(** * QUBEKit: the Modified Seminario engine and the Lennard-Jones deriver

    A shallow embedding of [QUBEKit/mod_seminario.py] and
    [QUBEKit/lennard_jones.py], and of the readers of a Hessian and of an
    optimised structure in [QUBEKit/engines.py].

    The Python code computes with numpy [float64] / [complex128] scalars and
    with Python floats.  Every function below is written once, over an
    arbitrary numeric carrier [F] that provides the operations the code uses
    (class [Num]; the libm functions are kept apart in class [Libm]).  Two
    carriers are provided:

    - [PrimFloat.float], IEEE-754 binary64, on which the definitions run,
      operation by operation, NaN and infinities included;
    - [R], the idealised arithmetic in which the algebraic statements
      (means, invariance under sign changes, independence of summation
      order) are proved.

    Conventions of the embedding:

    - a complex scalar is a pair of reals with the textbook sum, product,
      quotient and modulus; a real operand of a mixed operation is promoted
      to a complex number with imaginary part 0;
    - [x ** n] with a literal integer [n] is the repeated product and
      [x ** 0.5] the square root; [x ** (1 / 3)] and [x ** (1 / 6)] go
      through [fpow];
    - an index out of range ([IndexError]), a missing key ([KeyError]), a
      division of Python floats by zero ([ZeroDivisionError]) and a string
      that [int] rejects ([ValueError]) make a function return [None];
      range and domain errors of libm are not represented;
    - atom labels of bond lists, angle lists, edges and symmetry groups are
      the 1-based labels of the topology ([positive]);
    - [bond_lens], [eigenvals] and [eigenvecs], which
      [modified_seminario_method] fills for all pairs of atoms of [coords]
      (norm of the difference of the coordinates, [linalg.eig] of the 3x3
      block of the Hessian), are arguments of the functions, as in the code;
      in [modified_seminario_method] itself [linalg.eig] is a parameter;
    - the conversion of a line of text to numbers ([split], [float]) is a
      parameter of the functions that read a file;
    - the files written, the atom names and the table [HarmonicBondForce]
      do not enter any number computed here and are left out. *)

From Stdlib Require Import ZArith List Reals Lra Lia Permutation Sorted Ascii String.
From Stdlib Require Import RNsatz.
From Stdlib Require PrimFloat Uint63 Floats.
From stdpp Require Import base option list gmap strings.

Set Default Proof Using "Type".

(** ** Numeric carrier *)

Class Num (F : Type) := {
  of_Z : Z -> F;            (* an integer literal or a Python int used as a number *)
  add : F -> F -> F;
  sub : F -> F -> F;
  mul : F -> F -> F;
  div : F -> F -> F;
  opp : F -> F;
  fabs : F -> F;            (* abs on a real *)
  fsqrt : F -> F;
  feqb : F -> F -> bool     (* == *)
}.

Class Libm (F : Type) := {
  fsin : F -> F;
  fcos : F -> F;
  facos : F -> F;           (* math.acos, radians *)
  degrees : F -> F;         (* math.degrees *)
  fpow : F -> F -> F        (* x ** y with a float exponent *)
}.

Declare Scope num_scope.
Delimit Scope num_scope with num.
Infix "+." := add (at level 50, left associativity) : num_scope.
Infix "-." := sub (at level 50, left associativity) : num_scope.
Infix "*." := mul (at level 40, left associativity) : num_scope.
Infix "/." := div (at level 40, left associativity) : num_scope.
Local Open Scope num_scope.

Section Numeric.
Context {F : Type} {N : Num F}.

(** A decimal literal [n/d], e.g. [0.5] is [lit 1 2]: on binary64 the
    correctly rounded quotient of two exactly represented integers is the
    float the Python parser produces for the literal. *)
Definition lit (n d : Z) : F := of_Z n /. of_Z d.

(** [bool(x)] of a number: everything but zero is true (NaN included). *)
Definition truthy (x : F) : bool := negb (feqb x (of_Z 0)).

(** [x ** n] for a literal integer exponent [n >= 1]. *)
Fixpoint ipow (x : F) (n : nat) : F :=
  match n with
  | O => of_Z 1
  | S O => x
  | S n' => x *. ipow x n'
  end.

(** The builtin [sum] of a list of reals: starts from the int [0]. *)
Definition py_sum (l : list F) : F := fold_left add l (of_Z 0).

(** [numpy.average] of a one-dimensional array. *)
Definition average (l : list F) : F := py_sum l /. of_Z (Z.of_nat (length l)).
End Numeric.

(** ** Complex scalars ([complex128]) *)

Record complex (F : Type) := Cx { re : F; im : F }.
Arguments Cx {F} _ _.
Arguments re {F} _.
Arguments im {F} _.

Section Complex.
Context {F : Type} {N : Num F}.

(** Promotion of a real operand in a mixed real/complex operation. *)
Definition c_of_real (x : F) : complex F := Cx x (of_Z 0).

Definition cadd (z w : complex F) : complex F :=
  Cx (re z +. re w) (im z +. im w).

Definition cmul (z w : complex F) : complex F :=
  Cx (re z *. re w -. im z *. im w) (re z *. im w +. im z *. re w).

Definition cdiv (z w : complex F) : complex F :=
  let d := re w *. re w +. im w *. im w in
  Cx ((re z *. re w +. im z *. im w) /. d)
     ((im z *. re w -. re z *. im w) /. d).

Definition copp (z : complex F) : complex F := Cx (opp (re z)) (opp (im z)).

(** [z.conjugate()] *)
Definition conjugate (z : complex F) : complex F := Cx (re z) (opp (im z)).

(** [abs(z)]: the modulus. *)
Definition cabs (z : complex F) : F := fsqrt (re z *. re z +. im z *. im z).

(** [numpy.real(z)] *)
Definition real (z : complex F) : F := re z.

(** The builtin [sum] of complex terms: starts from the int [0]. *)
Definition py_csum (l : list (complex F)) : complex F :=
  fold_left cadd l (c_of_real (of_Z 0)).
End Complex.

(** ** Three-component arrays *)

Record vec3 (A : Type) := V3 { vx : A; vy : A; vz : A }.
Arguments V3 {A} _ _ _.
Arguments vx {A} _.
Arguments vy {A} _.
Arguments vz {A} _.

(** [v[i]] for [i] in [range(3)]. *)
Definition vget {A : Type} (v : vec3 A) (i : nat) : A :=
  match i with
  | O => vx v
  | S O => vy v
  | _ => vz v
  end.

Definition vmap {A B : Type} (f : A -> B) (v : vec3 A) : vec3 B :=
  V3 (f (vx v)) (f (vy v)) (f (vz v)).

Section Vectors.
Context {F : Type} {N : Num F}.

(** [numpy.cross] *)
Definition cross (u v : vec3 F) : vec3 F :=
  V3 (vy u *. vz v -. vz u *. vy v)
     (vz u *. vx v -. vx u *. vz v)
     (vx u *. vy v -. vy u *. vx v).

(** [numpy.dot] of two real vectors. *)
Definition dot (u v : vec3 F) : F :=
  vx u *. vx v +. vy u *. vy v +. vz u *. vz v.

(** [numpy.dot] of a real vector with a complex one (no conjugation). *)
Definition dot_rc (u : vec3 F) (v : vec3 (complex F)) : complex F :=
  cadd (cadd (cmul (c_of_real (vx u)) (vx v)) (cmul (c_of_real (vy u)) (vy v)))
       (cmul (c_of_real (vz u)) (vz v)).

(** [numpy.linalg.norm] *)
Definition norm (v : vec3 F) : F :=
  fsqrt (vx v *. vx v +. vy v *. vy v +. vz v *. vz v).

Definition vsub (u v : vec3 F) : vec3 F :=
  V3 (vx u -. vx v) (vy u -. vy v) (vz u -. vz v).

(** [v / s] *)
Definition vdiv (v : vec3 F) (s : F) : vec3 F :=
  V3 (vx v /. s) (vy v /. s) (vz v /. s).

(** The builtin [sum(v)] of an array. *)
Definition vsum (v : vec3 F) : F := py_sum [vx v; vy v; vz v].
End Vectors.

#[export] Instance vec3_inhabited {F : Type} {N : Num F} : Inhabited (vec3 F) :=
  populate (V3 (of_Z 0) (of_Z 0) (of_Z 0)).

(** ** Eigen-cache

    [eigenvals[i, j, :]] holds the three eigenvalues of Hessian block
    [(i, j)] and [eigenvecs[:, :, i, j]] the matrix whose column [k] is the
    eigenvector of eigenvalue [k]; both are [dtype=complex].  The arrays are
    indexed by the same atom indices as [coords], so an index that is valid
    for [coords] is valid for them: they are modelled as total tables, and
    the bounds check is the one on [coords]. *)

Definition eigvals_table (F : Type) := nat -> nat -> vec3 (complex F).
(** [eigenvecs_table a b] gives the three columns of [eigenvecs[:, :, a, b]]. *)
Definition eigvecs_table (F : Type) := nat -> nat -> vec3 (vec3 (complex F)).
Definition lens_table (F : Type) := nat -> nat -> F.

(** ** class ModSemMaths *)

Module ModSemMaths.
Section Maths.
Context {F : Type} {N : Num F}.

Definition unit_vector_n (u_bc u_ab : vec3 F) : vec3 F :=
  vdiv (cross u_bc u_ab) (norm (cross u_bc u_ab)).

(** [coords[atom, :]] fails on an index out of range. *)
Definition vector_along_bond (coords : list (vec3 F)) (atom_a atom_b : nat)
  : option (vec3 F) :=
  cb ← coords !! atom_b;
  ca ← coords !! atom_a;
  let diff_ab := vsub cb ca in
  Some (vdiv diff_ab (norm diff_ab)).

Definition u_pa_from_angles (atom_a atom_b atom_c : nat) (coords : list (vec3 F))
  : option (vec3 F) :=
  u_ab ← vector_along_bond coords atom_a atom_b;
  u_cb ← vector_along_bond coords atom_c atom_b;
  let u_n := unit_vector_n u_cb u_ab in
  Some (unit_vector_n u_n u_ab).

Definition dot_product (u_pa : vec3 F) (eig_ab : vec3 (complex F)) : complex F :=
  py_csum (map (fun i => cmul (c_of_real (vget u_pa i)) (conjugate (vget eig_ab i)))
               (seq 0 3)).

Definition force_constant_bond (atom_a atom_b : nat)
    (eigenvals : eigvals_table F) (eigenvecs : eigvecs_table F)
    (coords : list (vec3 F)) : option (complex F) :=
  let eigenvals_ab := eigenvals atom_a atom_b in
  let eigenvecs_ab := eigenvecs atom_a atom_b in
  unit_vectors_ab ← vector_along_bond coords atom_a atom_b;
  Some (cmul (c_of_real (lit (-5) 10))
          (py_csum (map (fun i =>
              cmul (vget eigenvals_ab i)
                   (c_of_real (cabs (dot_rc unit_vectors_ab (vget eigenvecs_ab i)))))
            (seq 0 3)))).

(** The two weighted projection sums and their combination as two springs
    in series, as written (identically) in both branches of the angle
    calculator: [abs(k * 0.5)] with
    [k = 1 / (1 / (len_ab ** 2 * sum_first) + 1 / (len_bc ** 2 * sum_second))]. *)
Definition projection_sum (eigenvals_xb : vec3 (complex F))
    (eigenvecs_xb : vec3 (vec3 (complex F))) (u_p : vec3 F) : complex F :=
  py_csum (map (fun i =>
      cmul (vget eigenvals_xb i)
           (c_of_real (cabs (dot_product u_p (vget eigenvecs_xb i)))))
    (seq 0 3)).

Definition springs_in_series (bond_len_ab bond_len_bc : F)
    (sum_first sum_second : complex F) : F :=
  let c1 := c_of_real (of_Z 1) in
  let k_theta :=
    cadd (cdiv c1 (cmul (c_of_real (ipow bond_len_ab 2)) sum_first))
         (cdiv c1 (cmul (c_of_real (ipow bond_len_bc 2)) sum_second)) in
  let k_theta := cdiv c1 k_theta in
  cabs (cmul k_theta (c_of_real (lit 5 10))).

Context {L : Libm F}.

Definition n_samples : nat := 200.

(** The values taken by [theta] in [for theta in range(n_samples)]. *)
Definition sample_thetas : list nat := seq 0 n_samples.

(** The synthetic normal of sample [theta] in [f_c_a_special_case]. *)
Definition sample_normal (theta : nat) : vec3 F :=
  let t := of_Z (Z.of_nat theta) in
  V3 (fsin t *. fcos t) (fsin t *. fsin t) (fcos t).

(** The body of the sampling loop: the value stored in
    [k_theta_array[theta]]. *)
Definition special_case_sample (u_ab u_cb : vec3 F) (bond_lens : F * F)
    (eigenvals : vec3 (complex F) * vec3 (complex F))
    (eigenvecs : vec3 (vec3 (complex F)) * vec3 (vec3 (complex F)))
    (theta : nat) : F :=
  let u_n := sample_normal theta in
  let u_pa := unit_vector_n u_n u_ab in
  let u_pc := unit_vector_n u_cb u_n in
  let sum_first := projection_sum (fst eigenvals) (fst eigenvecs) u_pa in
  let sum_second := projection_sum (snd eigenvals) (snd eigenvecs) u_pc in
  springs_in_series (fst bond_lens) (snd bond_lens) sum_first sum_second.

(** [k_theta_array = zeros(n_samples)], filled in place by the loop. *)
Definition f_c_a_special_case (u_ab u_cb : vec3 F) (bond_lens : F * F)
    (eigenvals : vec3 (complex F) * vec3 (complex F))
    (eigenvecs : vec3 (vec3 (complex F)) * vec3 (vec3 (complex F)))
  : F * F :=
  let k_theta_array :=
    fold_left (fun arr theta =>
                 <[theta := special_case_sample u_ab u_cb bond_lens eigenvals eigenvecs theta]> arr)
              sample_thetas (replicate n_samples (of_Z 0)) in
  let k_theta := average k_theta_array in
  let theta_0 := facos (dot u_ab u_cb) in
  (k_theta, theta_0).

(** The test [if sum(u_n):] of [force_constant_angle]: [true] when the
    special case is taken. *)
Definition special_case_taken (atom_a atom_b atom_c : nat) (coords : list (vec3 F))
  : option bool :=
  u_ab ← vector_along_bond coords atom_a atom_b;
  u_cb ← vector_along_bond coords atom_c atom_b;
  Some (truthy (vsum (unit_vector_n u_cb u_ab))).

(** The [else] branch of [force_constant_angle]. *)
Definition regular_case (u_ab u_cb u_n : vec3 F) (bond_len_ab bond_len_bc : F)
    (eigenvals_ab eigenvals_cb : vec3 (complex F))
    (eigenvecs_ab eigenvecs_cb : vec3 (vec3 (complex F)))
    (scalings : F * F) : F * F :=
  let u_pa := unit_vector_n u_n u_ab in
  let u_pc := unit_vector_n u_cb u_n in
  let sum_first :=
    cdiv (projection_sum eigenvals_ab eigenvecs_ab u_pa) (c_of_real (fst scalings)) in
  let sum_second :=
    cdiv (projection_sum eigenvals_cb eigenvecs_cb u_pc) (c_of_real (snd scalings)) in
  let k_theta := springs_in_series bond_len_ab bond_len_bc sum_first sum_second in
  let theta_0 := degrees (facos (dot u_ab u_cb)) in
  (k_theta, theta_0).

Definition force_constant_angle (atom_a atom_b atom_c : nat)
    (bond_lens : lens_table F) (eigenvals : eigvals_table F)
    (eigenvecs : eigvecs_table F) (coords : list (vec3 F)) (scalings : F * F)
  : option (F * F) :=
  u_ab ← vector_along_bond coords atom_a atom_b;
  u_cb ← vector_along_bond coords atom_c atom_b;
  let bond_len_ab := bond_lens atom_a atom_b in
  let eigenvals_ab := eigenvals atom_a atom_b in
  let eigenvecs_ab := eigenvecs atom_a atom_b in
  let bond_len_bc := bond_lens atom_b atom_c in
  let eigenvals_cb := eigenvals atom_c atom_b in
  let eigenvecs_cb := eigenvecs atom_c atom_b in
  let u_n := unit_vector_n u_cb u_ab in
  if truthy (vsum u_n) then
    Some (f_c_a_special_case u_ab u_cb (bond_len_ab, bond_len_bc)
            (eigenvals_ab, eigenvals_cb) (eigenvecs_ab, eigenvecs_cb))
  else
    Some (regular_case u_ab u_cb u_n bond_len_ab bond_len_bc
            eigenvals_ab eigenvals_cb eigenvecs_ab eigenvecs_cb scalings).
End Maths.
End ModSemMaths.

(** ** Python list objects and references

    [[[]] * n] builds a list whose [n] slots all refer to one and the same
    list object.  The store below keeps list objects in cells; a slot holds
    the address of a cell. *)

Module PyHeap.
Definition ref := nat.
Definition heap (A : Type) := list (list A).

(** A new list object with the given content. *)
Definition alloc {A} (h : heap A) (content : list A) : heap A * ref :=
  (h ++ [content], length h).

(** [obj.append(x)] on the object at address [r]. *)
Definition append {A} (h : heap A) (r : ref) (x : A) : option (heap A) :=
  content ← h !! r;
  Some (<[r := content ++ [x]]> h).

(** [[obj] * n] *)
Definition repeat_ref (r : ref) (n : nat) : list ref := replicate n r.

(** [slots[i][k]] *)
Definition read {A} (h : heap A) (slots : list ref) (i k : nat) : option A :=
  r ← slots !! i;
  content ← h !! r;
  content !! k.
End PyHeap.

(** [enumerate(l)] *)
Definition enumerate {A : Type} (l : list A) : list (nat * A) :=
  zip (seq 0 (length l)) l.

(** [sorted(l, key=...)]: a stable sort, entries with equal keys keep their
    order. *)
Fixpoint insert_by_key {A : Type} (key : A -> nat) (x : A) (l : list A) : list A :=
  match l with
  | [] => [x]
  | y :: l' => if (key x <=? key y)%nat then x :: y :: l' else y :: insert_by_key key x l'
  end.

Definition sorted_by_key {A : Type} (key : A -> nat) (l : list A) : list A :=
  foldr (insert_by_key key) [] l.

(** A monadic left fold: a [for] loop whose body may fail. *)
Fixpoint foldlM {A B : Type} (f : B -> A -> option B) (l : list A) (b : B) : option B :=
  match l with
  | [] => Some b
  | x :: l' => b' ← f b x; foldlM f l' b'
  end.

(** ** class ModSeminario *)

Module ModSeminario.
Import ModSemMaths.

(** Atom labels in the bond and angle lists are the 1-based node labels of
    the topology graph; [atom_index] is the [label - 1] of the code. *)
Definition atom_index (label : positive) : nat := Nat.pred (Pos.to_nat label).

Definition bond : Type := positive * positive.
Definition angle : Type := positive * positive * positive.

(** A row [[a, c, count]] of [central_atoms_angles[b]]: the flanking atom
    [a], the atom [c] at the other end, and the position of the angle in the
    angle list. *)
Record entry := Entry { e_first : nat; e_second : nat; e_count : nat }.

Definition central_atoms_angles_unsorted (n_coords : nat) (angle_list : list angle)
  : list (list entry) :=
  map (fun coord =>
         flat_map (fun '(count, (a, b, c)) =>
                     if (coord =? atom_index b)%nat
                     then [Entry (atom_index a) (atom_index c) count;
                           Entry (atom_index c) (atom_index a) count]
                     else [])
                  (enumerate angle_list))
      (seq 0 n_coords).

Definition central_atoms_angles (n_coords : nat) (angle_list : list angle)
  : list (list entry) :=
  map (sorted_by_key e_first) (central_atoms_angles_unsorted n_coords angle_list).

Section Seminario.
Context {F : Type} {N : Num F}.

Definition unit_pa_all_angles (cen : list (list entry)) (coords : list (vec3 F))
  : option (list (list (vec3 F))) :=
  mapM (fun '(i, row) =>
          mapM (fun e => u_pa_from_angles (e_first e) i (e_second e) coords) row)
       (enumerate cen).

(** [(abs(dot(u, v))) ** 2] *)
Definition contribution (u v : vec3 F) : F := ipow (fabs (dot u v)) 2.

(** The first [while] loop: state [(n, extra_contribs, angles_around)].
    [fuel] bounds the number of tests of the loop condition. *)
Fixpoint forward_loop (fuel : nat) (row : list entry) (upa : list (vec3 F))
    (j n : nat) (extra_contribs : F) (angles_around : nat)
  : option (nat * F * nat) :=
  match fuel with
  | O => None
  | S fuel' =>
      if (j + n <? length row)%nat then
        ej ← row !! j;
        ejn ← row !! (j + n)%nat;
        if (e_first ej =? e_first ejn)%nat then
          uj ← upa !! j;
          ujn ← upa !! (j + n)%nat;
          forward_loop fuel' row upa j (n + 1)
                       (extra_contribs +. contribution uj ujn) (angles_around + 1)
        else Some (n, extra_contribs, angles_around)
      else Some (n, extra_contribs, angles_around)
  end.

(** The second [while] loop: state [(m, extra_contribs, angles_around)]. *)
Fixpoint backward_loop (fuel : nat) (row : list entry) (upa : list (vec3 F))
    (j m : nat) (extra_contribs : F) (angles_around : nat)
  : option (nat * F * nat) :=
  match fuel with
  | O => None
  | S fuel' =>
      if (m <=? j)%nat then
        ej ← row !! j;
        ejm ← row !! (j - m)%nat;
        if (e_first ej =? e_first ejm)%nat then
          uj ← upa !! j;
          ujm ← upa !! (j - m)%nat;
          backward_loop fuel' row upa j (m + 1)
                        (extra_contribs +. contribution uj ujm) (angles_around + 1)
        else Some (m, extra_contribs, angles_around)
      else Some (m, extra_contribs, angles_around)
  end.

(** The pair [scaling_factor_all_angles[i][j]]: the scaling factor and the
    position of the angle in the angle list. *)
Definition scaling_factor (row : list entry) (upa : list (vec3 F)) (j : nat)
  : option (F * nat) :=
  ej ← row !! j;
  '(n, extra_contribs, angles_around) ←
    forward_loop (S (length row)) row upa j 1 (of_Z 0) 0;
  '(m, extra_contribs, angles_around) ←
    backward_loop (S (length row)) row upa j 1 extra_contribs angles_around;
  let factor := of_Z 1 in
  let factor :=
    if negb (n =? 1)%nat || negb (m =? 1)%nat
    then factor +. (extra_contribs /. of_Z (Z.of_nat (m + n - 2)))
    else factor in
  Some (factor, e_count ej).

Definition scaling_factor_all_angles (cen : list (list entry))
    (unit_pa : list (list (vec3 F))) : option (list (list (F * nat))) :=
  mapM (fun '(i, row) =>
          upa ← unit_pa !! i;
          mapM (scaling_factor row upa) (seq 0 (length row)))
       (enumerate cen).

(** [scaling_factors_angles_list = [[]] * len(angle_list)] followed by the
    loop that appends every scaling factor to the slot of its angle. *)
Definition scaling_factors_angles_list (n_angles : nat)
    (factors : list (list (F * nat))) : option (PyHeap.heap F * list PyHeap.ref) :=
  let '(h, r) := PyHeap.alloc [] [] in
  let slots := PyHeap.repeat_ref r n_angles in
  h' ← foldlM (fun h '(factor, count) =>
                 r ← slots !! count;
                 PyHeap.append h r factor)
              (concat factors) h;
  Some (h', slots).

(** Everything [calculate_angles] does before its last loop. *)
Definition scaling_store (angle_list : list angle) (coords : list (vec3 F))
  : option (PyHeap.heap F * list PyHeap.ref) :=
  let cen := central_atoms_angles (length coords) angle_list in
  unit_pa ← unit_pa_all_angles cen coords;
  factors ← scaling_factor_all_angles cen unit_pa;
  scaling_factors_angles_list (length angle_list) factors.

(** [scalings = [scaling_factors_angles_list[i][0], scaling_factors_angles_list[i][1]]] *)
Definition scalings_of (store : PyHeap.heap F * list PyHeap.ref) (i : nat)
  : option (F * F) :=
  s0 ← PyHeap.read (fst store) (snd store) i 0;
  s1 ← PyHeap.read (fst store) (snd store) i 1;
  Some (s0, s1).

Definition calculate_bonds (vib_scaling : F) (bond_list : list bond)
    (bond_lens : lens_table F) (eigenvals : eigvals_table F)
    (eigenvecs : eigvecs_table F) (coords : list (vec3 F))
  : option (list (F * F)) :=
  mapM (fun '(b0, b1) =>
          ab ← force_constant_bond (atom_index b0) (atom_index b1) eigenvals eigenvecs coords;
          ba ← force_constant_bond (atom_index b1) (atom_index b0) eigenvals eigenvecs coords;
          let k_b := real (cdiv (cadd ab ba) (c_of_real (of_Z 2))) *. ipow vib_scaling 2 in
          let bond_len := bond_lens (atom_index b0) (atom_index b1) in
          Some (k_b, bond_len))
       bond_list.

Context {L : Libm F}.

(** The body of the last loop of [calculate_angles] for the angle at
    position [i], given the pair [scalings] read for it. *)
Definition angle_result (vib_scaling : F) (bond_lens : lens_table F)
    (eigenvals : eigvals_table F) (eigenvecs : eigvecs_table F)
    (coords : list (vec3 F)) (ang : angle) (scalings : F * F) : option (F * F) :=
  let '(a, b, c) := ang in
  '(ab_k_theta, ab_theta_0) ←
    force_constant_angle (atom_index a) (atom_index b) (atom_index c)
                         bond_lens eigenvals eigenvecs coords scalings;
  '(ba_k_theta, ba_theta_0) ←
    force_constant_angle (atom_index c) (atom_index b) (atom_index a)
                         bond_lens eigenvals eigenvecs coords (snd scalings, fst scalings);
  let k_theta := ipow vib_scaling 2 *. ((ab_k_theta +. ba_k_theta) /. of_Z 2) in
  let theta_0 := (ab_theta_0 +. ba_theta_0) /. of_Z 2 in
  Some (k_theta, theta_0).

Definition calculate_angles (vib_scaling : F) (angle_list : list angle)
    (bond_lens : lens_table F) (eigenvals : eigvals_table F)
    (eigenvecs : eigvecs_table F) (coords : list (vec3 F))
  : option (list (F * F)) :=
  store ← scaling_store angle_list coords;
  mapM (fun '(i, ang) =>
          scalings ← scalings_of store i;
          angle_result vib_scaling bond_lens eigenvals eigenvecs coords ang scalings)
       (enumerate angle_list).

(** [hessian[(i * 3):((i + 1) * 3), (j * 3):((j + 1) * 3)]], by rows.  The
    Hessian is the [3N x 3N] array of the molecule of [N] atoms; it is
    indexed here by total functions, like the eigen-cache. *)
Definition partial_hessian (hessian : nat -> nat -> F) (i j : nat) : vec3 (vec3 F) :=
  let row r :=
    V3 (hessian r (j * 3)%nat) (hessian r (j * 3 + 1)%nat) (hessian r (j * 3 + 2)%nat) in
  V3 (row (i * 3)%nat) (row (i * 3 + 1)%nat) (row (i * 3 + 2)%nat).

(** What [linalg.eig] returns for a 3x3 block: the eigenvalues and the
    matrix whose columns are the eigenvectors. *)
Definition eig_result : Type := vec3 (complex F) * vec3 (vec3 (complex F)).

(** [coords]: the rows [[x, y, z]] of the atoms [[name, x, y, z]] of
    [molecule.molecule['qm']]. *)
Definition coords_of (qm : list (string * vec3 F)) : list (vec3 F) := map snd qm.

(** [bond_lens]: [zeros((size_mol, size_mol))], then
    [bond_lens[i][j] = linalg.norm(coords[i, :] - coords[j, :])] for all
    [i], [j] below [size_mol]. *)
Definition bond_lens_of (coords : list (vec3 F)) : lens_table F :=
  fun i j =>
    match coords !! i, coords !! j with
    | Some ci, Some cj => norm (vsub ci cj)
    | _, _ => of_Z 0
    end.

Section Method.
(** [numpy.linalg.eig]; it raises [LinAlgError] when the computation does
    not converge or the block holds a non-finite number. *)
Variable eig : vec3 (vec3 F) -> option eig_result.

(** The double loop of [modified_seminario_method] that fills [eigenvals]
    and [eigenvecs]: one call of [linalg.eig] per pair of atoms. *)
Definition eigen_cache (size_mol : nat) (hessian : nat -> nat -> F)
  : option (list (list eig_result)) :=
  mapM (fun i => mapM (fun j => eig (partial_hessian hessian i j)) (seq 0 size_mol))
       (seq 0 size_mol).

Definition cache_lookup (cache : list (list eig_result)) (i j : nat) : option eig_result :=
  row ← cache !! i; row !! j.

(** The two arrays read off the cache; a slot outside the cache is never
    read, the coordinates being looked up first. *)
Definition eigenvals_of (cache : list (list eig_result)) : eigvals_table F :=
  fun i j =>
    match cache_lookup cache i j with
    | Some r => fst r
    | None => let z := c_of_real (of_Z 0) in V3 z z z
    end.

Definition eigenvecs_of (cache : list (list eig_result)) : eigvecs_table F :=
  fun i j =>
    match cache_lookup cache i j with
    | Some r => snd r
    | None => let z := c_of_real (of_Z 0) in V3 (V3 z z z) (V3 z z z) (V3 z z z)
    end.

(** [modified_seminario_method]: the values handed back by its two calls,
    [calculate_bonds] on the edges of the topology and [calculate_angles]
    on the angles of the molecule. *)
Definition modified_seminario_method (vib_scaling : F) (qm : list (string * vec3 F))
    (hessian : nat -> nat -> F) (edges : list bond) (angles : list angle)
  : option (list (F * F) * list (F * F)) :=
  let coords := coords_of qm in
  let size_mol := length qm in
  let bond_lens := bond_lens_of coords in
  cache ← eigen_cache size_mol hessian;
  let eigenvals := eigenvals_of cache in
  let eigenvecs := eigenvecs_of cache in
  bonds ← calculate_bonds vib_scaling edges bond_lens eigenvals eigenvecs coords;
  angs ← calculate_angles vib_scaling angles bond_lens eigenvals eigenvecs coords;
  Some (bonds, angs).
End Method.
End Seminario.
End ModSeminario.

(** ** class LennardJones *)

Module LennardJones.
Import ModSeminario.

(** [x / y] on Python floats raises [ZeroDivisionError] when [y == 0]. *)
Definition py_div {F : Type} {N : Num F} (x y : F) : option F :=
  if feqb y (of_Z 0) then None else Some (x /. y).

(** [c in s] for a one-character string [c]. *)
Fixpoint contains (c : ascii) (s : string) : bool :=
  match s with
  | EmptyString => false
  | String c' s' => if Ascii.eqb c c' then true else contains c s'
  end.

(** A row of [ddec_data] as the extraction leaves it: of the row
    [[number, type, x, y, z, charge, ..., vol]] the code reads [atom[1]],
    [atom[5]] and [atom[-1]]. *)
Record aim_atom (F : Type) := AimAtom {
  atom_type : string;       (* atom[1] *)
  charge : F;               (* atom[5] *)
  vol : F                   (* atom[-1] before [append_ais_bis] *)
}.
Arguments AimAtom {F} _ _ _.
Arguments atom_type {F} _.
Arguments charge {F} _.
Arguments vol {F} _.

(** The row after [append_ais_bis] has appended [[r_aim, b_i, a_i]]:
    [atom[-3]], [atom[-2]] and [atom[-1]]. *)
Record lj_atom (F : Type) := LjAtom {
  aim : aim_atom F;
  r_aim : F;                (* atom[-3] *)
  b_i : F;                  (* atom[-2] *)
  a_i : F                   (* atom[-1] *)
}.
Arguments LjAtom {F} _ _ _ _.
Arguments aim {F} _.
Arguments r_aim {F} _.
Arguments b_i {F} _.
Arguments a_i {F} _.

(** An entry [[charge, sigma, epsilon]] of [non_bonded_force].  The code
    stores the three numbers as [str(x)] and reads them back with
    [float(s)]; the round trip is the identity and is left out. *)
Record nb_entry (F : Type) := NbEntry { nb_charge : F; nb_sigma : F; nb_epsilon : F }.
Arguments NbEntry {F} _ _ _.
Arguments nb_charge {F} _.
Arguments nb_sigma {F} _.
Arguments nb_epsilon {F} _.

(** One end of an entry of [new_pairs]: the string [str(label) + element],
    kept as its two parts.  The decimal digits of the label contain none of
    the letters looked for, so ['O' in pair[0]] is a test on the element. *)
Definition pair_end : Type := positive * string.

Definition has (c : string) (e : pair_end) : bool :=
  match c with
  | String a EmptyString => contains a (snd e)
  | _ => false
  end.

(** [int(pair[k][:-1])]: dropping the last character leaves the digits of
    the label exactly when the element has one character; with a longer
    element a letter is left and [int] raises [ValueError].  (The ends of a
    polar pair, the only ones read, contain a letter: the element is not
    empty.) *)
Definition int_of_all_but_last (e : pair_end) : option positive :=
  if (String.length (snd e) =? 1)%nat then Some (fst e) else None.

Section LJ.
Context {F : Type} {N : Num F}.

Definition sigma_conversion : F := lit 1 10.
Definition epsilon_conversion : F := lit 5765240039 100000000.

(** ['elem' : [vfree, bfree, rfree]] *)
Definition elem_dict : gmap string (F * F * F) :=
  list_to_map
    [("H",  (lit 76 10,  lit 65 10,  lit 164 100));
     ("C",  (lit 344 10, lit 466 10, lit 208 100));
     ("N",  (lit 259 10, lit 242 10, lit 172 100));
     ("O",  (lit 221 10, lit 156 10, lit 160 100));
     ("F",  (lit 182 10, lit 95 10,  lit 158 100));
     ("S",  (lit 752 10, lit 1340 10, lit 200 100));
     ("Cl", (lit 651 10, lit 946 10, lit 188 100));
     ("Br", (lit 957 10, lit 1620 10, lit 196 100))].

(** An atom of [molecule.molecule['input']]: [[element, x, y, z]]. *)
Definition input_atom : Type := string * vec3 F.

Definition input_atom_eqb (x y : input_atom) : bool :=
  String.eqb (fst x) (fst y)
  && feqb (vx (snd x)) (vx (snd y))
  && feqb (vy (snd x)) (vy (snd y))
  && feqb (vz (snd x)) (vz (snd y)).

(** [input.index(atom)] for the atom object at position [pos]: the first
    position holding an equal atom (an object is always found at its own
    position at the latest). *)
Definition index_of (input : list input_atom) (pos : nat) (atom : input_atom) : nat :=
  match list_find (fun x => input_atom_eqb x atom = true) (take pos input) with
  | Some (k, _) => k
  | None => pos
  end.

(** [positions = {input.index(atom) + 1: atom[0] for atom in input}] *)
Definition positions (input : list input_atom) : gmap positive string :=
  fold_left (fun d '(pos, atom) =>
               <[Pos.of_succ_nat (index_of input pos atom) := fst atom]> d)
            (enumerate input) ∅.

Definition new_pairs (input : list input_atom) (edges : list bond)
  : option (list (pair_end * pair_end)) :=
  mapM (fun '(p0, p1) =>
          e0 ← positions input !! p0;
          e1 ← positions input !! p1;
          Some ((p0, e0), (p1, e1)))
       edges.

Definition polars (pairs : list (pair_end * pair_end)) : list (pair_end * pair_end) :=
  flat_map (fun pair =>
              (if (has "O" (fst pair) || has "N" (fst pair) || has "S" (fst pair))
                  && has "H" (snd pair)
               then [pair] else [])
              ++
              (if (has "O" (snd pair) || has "N" (snd pair) || has "S" (snd pair))
                  && has "H" (fst pair)
               then [pair] else []))
           pairs.

Definition set_b_i (x : F) (atom : lj_atom F) : lj_atom F :=
  LjAtom (aim atom) (r_aim atom) x (a_i atom).
Definition set_a_i (x : F) (atom : lj_atom F) : lj_atom F :=
  LjAtom (aim atom) (r_aim atom) (b_i atom) x.

(** The body of the loop over [polars]. *)
Definition redistribute (ddec_data : list (lj_atom F)) (pair : pair_end * pair_end)
  : option (list (lj_atom F)) :=
  if has "H" (fst pair) || has "H" (snd pair) then
    '(h_label, son_label) ←
      (if has "H" (fst pair)
       then h ← int_of_all_but_last (fst pair);
            son ← int_of_all_but_last (snd pair); Some (h, son)
       else h ← int_of_all_but_last (snd pair);
            son ← int_of_all_but_last (fst pair); Some (h, son));
    let polar_h_pos := atom_index h_label in
    let polar_son_pos := atom_index son_label in
    son ← ddec_data !! polar_son_pos;
    h ← ddec_data !! polar_h_pos;
    let ddec_data := <[polar_son_pos := set_b_i (b_i son +. b_i h) son]> ddec_data in
    h ← ddec_data !! polar_h_pos;
    Some (<[polar_h_pos := set_b_i (of_Z 0) h]> ddec_data)
  else Some ddec_data.

(** The update of [atom[-2]] and [atom[-1]] in [correct_polar_hydrogens]:
    square roots ([x ** 0.5]), redistribution, squares, new [a_i]. *)
Definition correct_b_a (polar_pairs : list (pair_end * pair_end))
    (ddec_data : list (lj_atom F)) : option (list (lj_atom F)) :=
  let ddec_data := map (fun atom => set_b_i (fsqrt (b_i atom)) atom) ddec_data in
  ddec_data ← foldlM redistribute polar_pairs ddec_data;
  let ddec_data := map (fun atom => set_b_i (b_i atom *. b_i atom) atom) ddec_data in
  Some (map (fun atom => set_a_i (of_Z 32 *. b_i atom *. ipow (r_aim atom) 6) atom) ddec_data).

(** The last loop of [correct_polar_hydrogens]: one step per atom. *)
Definition update_epsilon (non_bonded_force : gmap nat (nb_entry F))
    (pos_atom : nat * lj_atom F) : option (gmap nat (nb_entry F)) :=
  let '(pos, atom) := pos_atom in
  if feqb (a_i atom) (of_Z 0) then
    old ← non_bonded_force !! pos;
    let non_bonded_force := <[pos := NbEntry (nb_charge old) (of_Z 0) (nb_epsilon old)]> non_bonded_force in
    old ← non_bonded_force !! pos;
    Some (<[pos := NbEntry (charge (aim atom)) (nb_sigma old) (of_Z 0)]> non_bonded_force)
  else
    epsilon ← py_div (ipow (b_i atom) 2) (of_Z 4 *. a_i atom);
    let epsilon := epsilon *. epsilon_conversion in
    old ← non_bonded_force !! pos;
    Some (<[pos := NbEntry (charge (aim atom)) (nb_sigma old) epsilon]> non_bonded_force).

Definition correct_polar_hydrogens (input : list input_atom) (edges : list bond)
    (ddec_data : list (lj_atom F)) (non_bonded_force : gmap nat (nb_entry F))
  : option (list (lj_atom F) * gmap nat (nb_entry F)) :=
  pairs ← new_pairs input edges;
  ddec_data ← correct_b_a (polars pairs) ddec_data;
  non_bonded_force ← foldlM update_epsilon (enumerate ddec_data) non_bonded_force;
  Some (ddec_data, non_bonded_force).

(** The state of the loops of [apply_symmetrisation]: the table and the
    three accumulator lists. *)
Definition sym_state : Type := gmap nat (nb_entry F) * (list F * list F * list F).

Definition collect (st : sym_state) (atom : positive) : option sym_state :=
  let '(nbf, (charges, sigmas, epsilons)) := st in
  e ← nbf !! atom_index atom;
  Some (nbf, (charges ++ [nb_charge e], sigmas ++ [nb_sigma e], epsilons ++ [nb_epsilon e])).

(** [sum(l) / len(l)] *)
Definition mean (l : list F) : option F :=
  py_div (py_sum l) (of_Z (Z.of_nat (length l))).

(** The body of [for atom_set in sym_set]. *)
Definition symmetrise_atom_set (st : sym_state) (atom_set : list positive)
  : option sym_state :=
  '(nbf, (charges, sigmas, epsilons)) ← foldlM collect atom_set st;
  charge ← mean charges;
  sigma ← mean sigmas;
  epsilon ← mean epsilons;
  let nbf :=
    fold_left (fun nbf atom => <[atom_index atom := NbEntry charge sigma epsilon]> nbf)
              atom_set nbf in
  Some (nbf, (charges, sigmas, epsilons)).

(** The body of [for sym_set in symm_hs.values()]: the accumulators are
    created here, once per [sym_set]. *)
Definition symmetrise_sym_set (nbf : gmap nat (nb_entry F))
    (sym_set : list (list positive)) : option (gmap nat (nb_entry F)) :=
  st ← foldlM symmetrise_atom_set sym_set (nbf, ([], [], []));
  Some (fst st).

Definition apply_symmetrisation (symm_hs : list (list (list positive)))
    (non_bonded_force : gmap nat (nb_entry F)) : option (gmap nat (nb_entry F)) :=
  foldlM symmetrise_sym_set symm_hs non_bonded_force.

Context {L : Libm F}.

(** The body of the loop of [append_ais_bis]; an element missing from
    [elem_dict] raises [KeyError]. *)
Definition ais_bis (atom : aim_atom F) : option (lj_atom F) :=
  '(vfree, bfree, rfree) ← elem_dict !! atom_type atom;
  let r_aim := rfree *. fpow (vol atom /. vfree) (lit 1 3) in
  let b_i := bfree *. ipow (vol atom /. vfree) 2 in
  let a_i := of_Z 32 *. b_i *. ipow r_aim 6 in
  Some (LjAtom atom r_aim b_i a_i).

Definition append_ais_bis (ddec_data : list (aim_atom F)) : option (list (lj_atom F)) :=
  mapM ais_bis ddec_data.

(** The pair [(sigma, epsilon)] computed for one atom in
    [calculate_sig_eps]. *)
Definition sig_eps (atom : lj_atom F) : option (F * F) :=
  if feqb (a_i atom) (of_Z 0) then Some (of_Z 0, of_Z 0)
  else
    q ← py_div (a_i atom) (b_i atom);
    let sigma := fpow q (lit 1 6) in
    let sigma := sigma *. sigma_conversion in
    epsilon ← py_div (ipow (b_i atom) 2) (of_Z 4 *. a_i atom);
    let epsilon := epsilon *. epsilon_conversion in
    Some (sigma, epsilon).

Definition calculate_sig_eps (ddec_data : list (lj_atom F))
    (non_bonded_force : gmap nat (nb_entry F)) : option (gmap nat (nb_entry F)) :=
  foldlM (fun nbf '(pos, atom) =>
            '(sigma, epsilon) ← sig_eps atom;
            Some (<[pos := NbEntry (charge (aim atom)) sigma epsilon]> nbf))
         (enumerate ddec_data) non_bonded_force.

(** [w * v] and [v * w] for a float [w] and an array [v]. *)
Definition vscale_l (w : F) (v : vec3 F) : vec3 F := vmap (fun x => w *. x) v.
Definition vscale_r (v : vec3 F) (w : F) : vec3 F := vmap (fun x => x *. w) v.
Definition vadd (u v : vec3 F) : vec3 F :=
  V3 (vx u +. vx v) (vy u +. vy v) (vz u +. vz v).

(** The weights of [extract_extra_sites]: [1.0, 0.0, 0.0], [-1.0, 1.0, 0.0]
    and [-1.0, 0.0, 1.0]. *)
Definition w1o : F := of_Z 1.
Definition w2o : F := of_Z 0.
Definition w3o : F := of_Z 0.
Definition w1x : F := of_Z (-1).
Definition w2x : F := of_Z 1.
Definition w3x : F := of_Z 0.
Definition w1y : F := of_Z (-1).
Definition w2y : F := of_Z 0.
Definition w3y : F := of_Z 1.

(** The local frame of a virtual site in [extract_extra_sites], from the
    positions of the parent atom and of its two reference atoms: the origin
    and the three axis vectors [(orig, x_dir, y_dir, z_dir)].  A [numpy.dot]
    with a reshaped [(3, 1)] operand is the dot product held in an array of
    one element, which the division broadcasts. *)
Definition site_frame (parent_pos close_a close_b : vec3 F)
  : vec3 F * vec3 F * vec3 F * vec3 F :=
  let orig := vadd (vadd (vscale_l w1o parent_pos) (vscale_l w2o close_a))
                   (vscale_r close_b w3o) in
  let ab := vadd (vadd (vscale_l w1x parent_pos) (vscale_l w2x close_a))
                 (vscale_l w3x close_b) in
  let ac := vadd (vadd (vscale_l w1y parent_pos) (vscale_l w2y close_a))
                 (vscale_l w3y close_b) in
  let z_dir := cross ab ac in
  let z_dir := vdiv z_dir (fsqrt (dot z_dir z_dir)) in
  let x_dir := vdiv ab (fsqrt (dot ab ab)) in
  let y_dir := cross z_dir x_dir in
  (orig, x_dir, y_dir, z_dir).

(** The stored position [(p1 / 10, p2 / 10, p3 / 10)] of the site at
    [v_pos]. *)
Definition site_local_coords (parent_pos close_a close_b v_pos : vec3 F) : vec3 F :=
  let '(orig, x_dir, y_dir, z_dir) := site_frame parent_pos close_a close_b in
  let p1 := dot (vsub v_pos orig) x_dir in
  let p2 := dot (vsub v_pos orig) y_dir in
  let p3 := dot (vsub v_pos orig) z_dir in
  V3 (p1 /. of_Z 10) (p2 /. of_Z 10) (p3 /. of_Z 10).

(** A value of [sites]:
    [[(parent - 1, closest_a - 1, closest_b - 1), (p1 / 10, p2 / 10, p3 / 10), charge]]. *)
Record site := Site {
  site_atoms : nat * nat * nat;
  site_coords : vec3 F;
  site_charge : F
}.

(** The last loop of [extract_extra_sites], over [sites.values()]: the
    charge of every site is taken off its parent atom. *)
Definition take_site_charge (non_bonded_force : gmap nat (nb_entry F)) (value : site)
  : option (gmap nat (nb_entry F)) :=
  let parent := fst (fst (site_atoms value)) in
  e ← non_bonded_force !! parent;
  let charge := nb_charge e -. site_charge value in
  Some (<[parent := NbEntry charge (nb_sigma e) (nb_epsilon e)]> non_bonded_force).

Definition take_site_charges (sites : list site) (non_bonded_force : gmap nat (nb_entry F))
  : option (gmap nat (nb_entry F)) :=
  foldlM take_site_charge sites non_bonded_force.

(** [calculate_non_bonded_force], from an empty [non_bonded_force].  The
    two methods that read the output of the charges engine, and the part of
    [extract_extra_sites] that reads the file of the sites, are parameters:
    what they leave in [ddec_data] and in [sites], or their failure. *)
Definition calculate_non_bonded_force (charges_engine : string)
    (extract_params_chargemol extract_params_onetep : option (list (aim_atom F)))
    (input : list input_atom) (edges : list bond)
    (symm_hs : list (list (list positive))) (read_sites : option (list site))
  : option (gmap nat (nb_entry F)) :=
  ddec_data ←
    (if String.eqb charges_engine "chargemol" then extract_params_chargemol
     else if String.eqb charges_engine "onetep" then extract_params_onetep
     else None);
  ddec_data ← append_ais_bis ddec_data;
  non_bonded_force ← calculate_sig_eps ddec_data ∅;
  '(ddec_data, non_bonded_force) ←
    correct_polar_hydrogens input edges ddec_data non_bonded_force;
  non_bonded_force ← apply_symmetrisation symm_hs non_bonded_force;
  if String.eqb charges_engine "onetep" then
    sites ← read_sites;
    take_site_charges sites non_bonded_force
  else Some non_bonded_force.
End LJ.
End LennardJones.

(** ** engines.py: reading a Hessian and a structure

    Of [Gaussian.hessian] the part between the lines of the output file and
    the array handed to [check_symmetry] is embedded; of [PSI4.hessian] the
    part between the lines of the output file and the list [reshaped],
    which is then turned into an array and converted to other units; of the
    two [optimised_structure] methods all that follows the reading of the
    lines.  The conversion of the tokens of a line to floats is a
    parameter. *)

(** [s in line] *)
Definition is_substring (s line : string) : bool :=
  match String.index 0 s line with
  | Some _ => true
  | None => false
  end.

(** [lines[a:b]] for [0 <= a]; [b] may lie before [a] or beyond the end. *)
Definition slice {A : Type} (l : list A) (a b : nat) : list A := take (b - a) (drop a l).

Module Gaussian.
Section Hessian.
Context {F : Type} {N : Num F}.

(** [[float(num) for num in line.strip('\n').split()]]; [float] raises
    [ValueError] on a token that is not a number. *)
Variable floats_of_line : string -> option (list F).

(** The scan of the lines of [lig.fchk]: [start_pos] and [end_pos] are
    bound by the last line that starts with their marker, and stay unbound
    when there is none. *)
Definition scan_markers (lines : list string) : option nat * option nat :=
  fold_left (fun '(start_pos, end_pos) '(count, line) =>
               let start_pos :=
                 if String.prefix "Cartesian Force Constants" line
                 then Some (count + 1)%nat else start_pos in
               let end_pos :=
                 if String.prefix "Dipole Moment" line then Some count else end_pos in
               (start_pos, end_pos))
            (enumerate lines) (None, None).

(** [hessian_list]: the numbers of the lines between the two markers, each
    multiplied by [0.529].  Reading an unbound [start_pos] or [end_pos]
    raises; a bound [start_pos] is never 0, so the test
    [if not start_pos and end_pos] never raises [EOFError]. *)
Definition hessian_list (lines : list string) : option (list F) :=
  let '(start_pos, end_pos) := scan_markers lines in
  start_pos ← start_pos;
  end_pos ← end_pos;
  rows ← mapM floats_of_line (slice lines start_pos end_pos);
  Some (map (fun num => num *. lit 529 1000) (concat rows)).

(** [hessian[i, j] = x] *)
Definition set_at (hessian : list (list F)) (i j : nat) (x : F) : list (list F) :=
  alter (fun row => <[j := x]> row) i hessian.

(** The body of the inner loop, on the state [(hessian, m)]. *)
Definition fill_step (hessian_list : list F) (i : nat) (st : list (list F) * nat) (j : nat)
  : option (list (list F) * nat) :=
  let '(hessian, m) := st in
  x ← hessian_list !! m;
  Some (set_at (set_at hessian i j x) j i x, (m + 1)%nat).

(** The two nested loops that rewrite the list of the non-repeated values
    as a full [hess_size x hess_size] array, from [zeros]. *)
Definition fill_symmetric (hess_size : nat) (hessian_list : list F)
  : option (list (list F)) :=
  let zeros := replicate hess_size (replicate hess_size (of_Z 0)) in
  st ← foldlM (fun st i => foldlM (fill_step hessian_list i) (seq 0 (i + 1)) st)
              (seq 0 hess_size) (zeros, 0%nat);
  Some (fst st).

(** [hessian], up to the call of [check_symmetry]. *)
Definition hessian (lines : list string) (n_atoms : nat) : option (list (list F)) :=
  l ← hessian_list lines;
  fill_symmetric (3 * n_atoms) l.
End Hessian.

Section Structure.
Context {F : Type}.

(** [[float(i) for i in line.split()[-3:]]]: the numbers of the last three
    tokens of the line, of all its tokens when it has fewer. *)
Variable last_floats_of_line : string -> option (list F).

(** [optimised_structure]: the loop over the lines stops at the first one
    that holds ['Input orientation'], so that [opt_coords_pos] holds one
    position; without such a line [EOFError] is raised.  [molecule] is
    [engine_mol.molecule], of rows [[name, x, y, z]]. *)
Definition optimised_structure (lines : list string) (molecule : list (string * vec3 F))
  : option (list (string * list F)) :=
  '(count, _) ← list_find (fun line => is_substring "Input orientation" line = true) lines;
  let opt_coords_pos := [(count + 5)%nat] in
  start_pos ← last opt_coords_pos;
  let num_atoms := length molecule in
  mapM (fun '(count, line) =>
          atom ← molecule !! count;
          vals ← last_floats_of_line line;
          Some (fst atom, vals))
       (enumerate (slice lines start_pos (start_pos + num_atoms))).
End Structure.
End Gaussian.

Module PSI4.
(** [extra = 0 if hess_size % 5 == 0 else 1] *)
Definition extra (hess_size : nat) : nat := if (hess_size mod 5 =? 0)%nat then 0%nat else 1%nat.

(** [hess_length], a Python int. *)
Definition hess_length (hess_size : nat) : Z :=
  let n := Z.of_nat hess_size in
  ((n / 5) * n + (n / 5 - 1) * 3 + Z.of_nat (extra hess_size) * (3 + n))%Z.

(** The first line holding ['## Hessian'] gives [hess_start = count + 5];
    without such a line [EOFError] is raised. *)
Definition hess_start (lines : list string) : option nat :=
  '(count, _) ← list_find (fun line => is_substring "## Hessian" line = true) lines;
  Some (count + 5)%nat.

Section Hessian.
Context {F : Type}.

(** [[float(val) for val in file_line.split() if len(val) > 5]] *)
Variable vals_of_line : string -> option (list F).

(** [hess_vals], blank entries removed. *)
Definition hess_vals (lines : list string) (hess_size : nat) : option (list (list F)) :=
  start ← hess_start lines;
  let hess_end := Z.to_nat (Z.of_nat start + hess_length hess_size) in
  rows ← mapM vals_of_line (slice lines start hess_end);
  Some (filter (fun elem => elem ≠ []) rows).

(** [reshaped]: row [old_row] is the concatenation, over the column
    blocks, of the rows [old_row + col_block * hess_size] of [hess_vals]. *)
Definition reshaped (hess_size : nat) (hess_vals : list (list F)) : option (list (list F)) :=
  mapM (fun old_row =>
          blocks ← mapM (fun col_block =>
                           hess_vals !! (old_row + col_block * hess_size)%nat)
                        (seq 0 (hess_size / 5 + extra hess_size));
          Some (concat blocks))
       (seq 0 hess_size).
End Hessian.

Section Structure.
Context {F : Type}.

(** [[line.split()[0]] + [float(line.split()[indx + 1]) for indx in range(3)]]:
    the first token and the numbers of the next three; [IndexError] on a
    line with fewer tokens. *)
Variable struct_row_of_line : string -> option (string * vec3 F).

(** [optimised_structure]: the loop over the lines stops at the first one
    that holds ['==> Geometry'], so that [geo_pos_list] holds one position;
    without such a line [EOFError] is raised. *)
Definition optimised_structure (lines : list string) (n_atoms : nat)
  : option (list (string * vec3 F)) :=
  '(count, _) ← list_find (fun line => is_substring "==> Geometry" line = true) lines;
  let geo_pos_list := [count] in
  last_pos ← last geo_pos_list;
  let start_of_vals := (last_pos + 9)%nat in
  mapM (fun row =>
          line ← lines !! (start_of_vals + row)%nat;
          struct_row_of_line line)
       (seq 0 n_atoms).
End Structure.
End PSI4.

(** ** The two carriers *)

(** *** IEEE-754 binary64 *)

Definition float_of_Z (z : Z) : PrimFloat.float :=
  match z with
  | Zneg p => PrimFloat.opp (PrimFloat.of_uint63 (Uint63.of_Z (Zpos p)))
  | _ => PrimFloat.of_uint63 (Uint63.of_Z z)
  end.

#[export] Instance Num_float : Num PrimFloat.float := {|
  of_Z := float_of_Z;
  add := PrimFloat.add;
  sub := PrimFloat.sub;
  mul := PrimFloat.mul;
  div := PrimFloat.div;
  opp := PrimFloat.opp;
  fabs := PrimFloat.abs;
  fsqrt := PrimFloat.sqrt;
  feqb := PrimFloat.eqb
|}.

(** The not-a-number of binary64, as a real and as a complex value. *)
Definition nan : PrimFloat.float := PrimFloat.nan.
Definition cnan : complex PrimFloat.float := Cx nan nan.

(** *** Real numbers *)

Definition Reqb (x y : R) : bool := if Req_dec_T x y then true else false.

#[export] Instance Num_R : Num R := {|
  of_Z := IZR;
  add := Rplus;
  sub := Rminus;
  mul := Rmult;
  div := Rdiv;
  opp := Ropp;
  fabs := Rabs;
  fsqrt := sqrt;
  feqb := Reqb
|}.

Definition Rpow (x y : R) : R :=
  if Req_dec_T x 0 then (if Req_dec_T y 0 then 1%R else 0%R) else Rpower x y.

(** [x ** y] is read on nonnegative bases only (a negative base with a
    fractional exponent yields a complex number in Python). *)
#[export] Instance Libm_R : Libm R := {|
  fsin := sin;
  fcos := cos;
  facos := acos;
  degrees := fun x => (x * (180 / PI))%R;
  fpow := Rpow
|}.

(** ** Statements of the specification *)

Module Spec.
Import ModSemMaths ModSeminario LennardJones.

Section Spec.
Context {F : Type} {N : Num F}.

(** The flanking bonds are colinear: the cross product of the two bond
    unit vectors is the zero vector. *)
Definition is_zero_vector (v : vec3 F) : bool :=
  feqb (vx v) (of_Z 0) && feqb (vy v) (of_Z 0) && feqb (vz v) (of_Z 0).

Definition colinear (atom_a atom_b atom_c : nat) (coords : list (vec3 F))
  : option bool :=
  u_ab ← vector_along_bond coords atom_a atom_b;
  u_cb ← vector_along_bond coords atom_c atom_b;
  Some (is_zero_vector (cross u_cb u_ab)).

(** [k = -0.5 * sum_i eigval_i * |dot(u_ab, eigvec_i)|] *)
Definition bond_force_constant (u_ab : vec3 F) (eigvals : vec3 (complex F))
    (eigvecs : vec3 (vec3 (complex F))) : complex F :=
  let term i := cmul (vget eigvals i) (c_of_real (cabs (dot_rc u_ab (vget eigvecs i)))) in
  cmul (c_of_real (lit (-5) 10)) (cadd (cadd (term 0%nat) (term 1%nat)) (term 2%nat)).

(** The mean of two complex values. *)
Definition cmean (z w : complex F) : complex F :=
  Cx ((re z +. re w) /. of_Z 2) ((im z +. im w) /. of_Z 2).

(** The reported bond: [vib_scaling ** 2] times the mean of the force
    constants of the two orderings (a force constant is the real part of
    the complex scalar), with the bond length. *)
Definition reported_bond (vib_scaling : F) (bond_lens : lens_table F)
    (eigenvals : eigvals_table F) (eigenvecs : eigvecs_table F)
    (coords : list (vec3 F)) (b : bond) : option (F * F) :=
  let i := atom_index (fst b) in
  let j := atom_index (snd b) in
  u_ab ← vector_along_bond coords i j;
  u_ba ← vector_along_bond coords j i;
  let ab := bond_force_constant u_ab (eigenvals i j) (eigenvecs i j) in
  let ba := bond_force_constant u_ba (eigenvals j i) (eigenvecs j i) in
  Some (vib_scaling *. vib_scaling *. re (cmean ab ba), bond_lens i j).

(** The positions, in the row of a central atom, of the entries other
    than [j] that have the flanking atom of entry [j]: the other angles
    around the central atom that share the flanking bond. *)
Definition neighbours (row : list entry) (j : nat) : list nat :=
  filter (fun k => k ≠ j ∧ (e_first <$> row !! k) = (e_first <$> row !! j))
         (seq 0 (length row)).

(** The scaling factors of the two flanking bonds of the angle at
    position [i] of the angle list, in the order [(a, b, c)]: those
    derived for its entries [[a, c, i]] and [[c, a, i]]. *)
Definition own_scalings (angle_list : list angle) (coords : list (vec3 F)) (i : nat)
  : option (F * F) :=
  '(a, b, c) ← angle_list !! i;
  let cen := central_atoms_angles (length coords) angle_list in
  unit_pa ← unit_pa_all_angles cen coords;
  factors ← scaling_factor_all_angles cen unit_pa;
  row ← cen !! atom_index b;
  row_factors ← factors !! atom_index b;
  '(ja, _) ← list_find (fun e => e_count e = i ∧ e_first e = atom_index a) row;
  '(jc, _) ← list_find (fun e => e_count e = i ∧ e_first e = atom_index c) row;
  sa ← row_factors !! ja;
  sc ← row_factors !! jc;
  Some (fst sa, fst sc).

(** [1 + mean(contributions)], and exactly [1] when there is none. *)
Definition one_plus_mean (contributions : list F) : F :=
  match contributions with
  | [] => of_Z 1
  | _ => of_Z 1 +. (py_sum contributions /. of_Z (Z.of_nat (length contributions)))
  end.

(** Replacing component [k] of a triple. *)
Definition vset {A : Type} (v : vec3 A) (k : nat) (x : A) : vec3 A :=
  match k with
  | O => V3 x (vy v) (vz v)
  | S O => V3 (vx v) x (vz v)
  | _ => V3 (vx v) (vy v) x
  end.

(** The eigen-cache in which eigenvector [k] of block [(p, q)] has the
    opposite sign. *)
Definition flip_eigenvector (eigenvecs : eigvecs_table F) (p q k : nat)
  : eigvecs_table F :=
  fun a b =>
    if ((a =? p)%nat && (b =? q)%nat)%bool
    then vset (eigenvecs a b) k (vmap copp (vget (eigenvecs a b) k))
    else eigenvecs a b.
End Spec.

Section PolarSpec.
Context {F : Type} {N : Num F}.

(** The positions in [ddec_data] of the two atoms of a polar pair, the
    hydrogen first, as the loop over [polars] reads them. *)
Definition polar_positions (pair : pair_end * pair_end) : option (nat * nat) :=
  if has "H" (fst pair) then
    h ← int_of_all_but_last (fst pair);
    son ← int_of_all_but_last (snd pair);
    Some (atom_index h, atom_index son)
  else if has "H" (snd pair) then
    h ← int_of_all_but_last (snd pair);
    son ← int_of_all_but_last (fst pair);
    Some (atom_index h, atom_index son)
  else None.

(** The polar bonds of the molecule, as pairs (position of the hydrogen,
    position of the O, N or S atom), in the order of the topology. *)
Definition polar_bonds (input : list (@input_atom F)) (edges : list bond)
  : list (nat * nat) :=
  match new_pairs input edges with
  | Some pairs => omap polar_positions (polars pairs)
  | None => []
  end.

(** The square roots of the [b_i] of the polar hydrogens bonded to the
    atom at position [son], before the correction. *)
Definition hydrogen_roots (ddec_data : list (lj_atom F)) (bonds : list (nat * nat))
    (son : nat) : list F :=
  omap (fun '(h, s) =>
          if (s =? son)%nat then (fun atom => fsqrt (b_i atom)) <$> ddec_data !! h
          else None)
       bonds.

(** The claim as stated, for one polar bond (hydrogen [h], partner [son]):
    the hydrogen ends with [b_i = 0], the partner with the square of the
    sum of the two square roots, and no sigma has changed. *)
Definition polar_claim_as_stated (ddec_data ddec_data' : list (lj_atom F))
    (nbf nbf' : gmap nat (nb_entry F)) (h son : nat) : Prop :=
  b_i <$> ddec_data' !! h = Some (of_Z 0)
  ∧ b_i <$> ddec_data' !! son =
      (atom_h ← ddec_data !! h;
       atom_son ← ddec_data !! son;
       let root := fsqrt (b_i atom_son) +. fsqrt (b_i atom_h) in
       Some (root *. root))
  ∧ ∀ pos, nb_sigma <$> nbf' !! pos = nb_sigma <$> nbf !! pos.
End PolarSpec.

(** The sample angles, read as radians, are swept over [[0, 2 pi)]. *)
Definition swept_over_one_turn (thetas : list nat) : Prop :=
  Forall (fun theta => (0 <= INR theta < 2 * PI)%R) thetas.
End Spec.

(** ** Auxiliary notions *)

(** The number of leading entries of [l] whose flanking atom is [key0]. *)
Fixpoint run_len (key0 : nat) (l : list ModSeminario.entry) : nat :=
  match l with
  | [] => 0
  | e :: l' => if (key0 =? ModSeminario.e_first e)%nat then S (run_len key0 l') else 0
  end.

(** The positions visited by the two loops that compute the scaling
    factor of entry [j], in the order of the visits: forwards from [j + 1],
    then backwards from [j - 1]. *)
Definition visited (row : list ModSeminario.entry) (j : nat) : list nat :=
  match row !! j with
  | Some ej =>
      seq (j + 1) (run_len (ModSeminario.e_first ej) (drop (j + 1) row))
      ++ ((fun i => j - i)%nat
            <$> seq 1 (run_len (ModSeminario.e_first ej) (reverse (take j row))))
  | None => []
  end.

(** The two assignments of the loop over [polars], for the hydrogen at
    position [h] and its partner at position [son]. *)
Definition redistribute_at {F : Type} {N : Num F}
    (d : list (LennardJones.lj_atom F)) (h_son : nat * nat)
  : option (list (LennardJones.lj_atom F)) :=
  let '(h, son) := h_son in
  atom_son ← d !! son;
  atom_h ← d !! h;
  let d :=
    <[son := LennardJones.set_b_i
               (LennardJones.b_i atom_son +. LennardJones.b_i atom_h) atom_son]> d in
  atom_h ← d !! h;
  Some (<[h := LennardJones.set_b_i (of_Z 0) atom_h]> d).

(** The order by key of [sorted(l, key=...)]. *)
Definition key_le {A : Type} (key : A → nat) (x y : A) : Prop := (key x ≤ key y)%nat.

(** *** Notions used by the further properties *)

Section Notions.
Import ModSemMaths ModSeminario LennardJones.

(** Both atoms of a bond, and the three atoms of an angle, are atoms of a
    molecule of [n] atoms. *)
Definition bond_in_range (n : nat) (b : bond) : Prop :=
  (atom_index (fst b) < n ∧ atom_index (snd b) < n)%nat.

Definition angle_in_range (n : nat) (ang : angle) : Prop :=
  let '(a, b, c) := ang in
  (atom_index a < n ∧ atom_index b < n ∧ atom_index c < n)%nat.

(** The central atom of an angle, as an index. *)
Definition central_index (ang : angle) : nat := atom_index (snd (fst ang)).

(** The opposite vector. *)
Definition vopp {F : Type} {N : Num F} (v : vec3 F) : vec3 F := vmap opp v.

(** The eigenvalues of every block multiplied by the real number [t], as
    after a change of the unit of the Hessian. *)
Definition scale_eigenvals {F : Type} {N : Num F} (t : F) (eigenvals : eigvals_table F)
  : eigvals_table F :=
  fun a b => vmap (cmul (c_of_real t)) (eigenvals a b).

(** The keys of [elem_dict]. *)
Definition supported_elements : list string :=
  ["H"; "C"; "N"; "O"; "F"; "S"; "Cl"; "Br"].

(** The sum of the square roots of the [b_i] of all atoms, and the sum of
    the [b_i]. *)
Definition total_root_b (ddec_data : list (lj_atom R)) : R :=
  fold_right Rplus 0%R (map (fun atom => sqrt (b_i atom)) ddec_data).

Definition sum_b (d : list (lj_atom R)) : R := fold_right Rplus 0%R (map b_i d).

Definition nonneg_b (d : list (lj_atom R)) : Prop :=
  Forall (fun atom => (0 <= b_i atom)%R) d.

(** The entries of the table for the atoms of a group, in the order of the
    group. *)
Definition group_entries {F : Type} (nbf : gmap nat (nb_entry F)) (atom_set : list positive)
  : option (list (nb_entry F)) :=
  mapM (fun atom => nbf !! atom_index atom) atom_set.

(** The parent atom of a site, and the charges of the sites of an atom, in
    the order of the sites. *)
Definition site_parent {F : Type} (value : @site F) : nat := fst (fst (site_atoms value)).

Definition site_charges_of {F : Type} (k : nat) (sites : list (@site F)) : list F :=
  map site_charge (filter (fun value => site_parent value = k) sites).

(** No two atoms of the input are equal (same element and same
    coordinates). *)
Definition distinct_atoms {F : Type} {N : Num F} (input : list (@input_atom F)) : Prop :=
  ∀ i j x y, (i < j)%nat → input !! i = Some x → input !! j = Some y →
             input_atom_eqb x y = false.

(** [h[a, b]] *)
Definition cell {A : Type} (h : list (list A)) (a b : nat) : option A :=
  row ← h !! a; row !! b.

(** The number of entries of the lower triangle above row [i]. *)
Definition tri (i : nat) : nat := (i * (i + 1) / 2)%nat.

(** The first [i] rounds of the outer loop of [Gaussian.fill_symmetric]. *)
Definition fill_rows {F : Type} (l : list F) (i : nat) (st : list (list F) * nat)
  : option (list (list F) * nat) :=
  foldlM (fun st i => foldlM (Gaussian.fill_step l i) (seq 0 (i + 1)) st) (seq 0 i) st.

(** The number of column blocks of the Hessian printed by PSI4. *)
Definition col_blocks (hess_size : nat) : nat := (hess_size / 5 + PSI4.extra hess_size)%nat.
End Notions.

(** ** Example inputs *)

Module Examples.
Import ModSeminario LennardJones.

Definition fl := float_of_Z.
Definition pt (x y z : Z) : vec3 PrimFloat.float := V3 (fl x) (fl y) (fl z).

(** Atoms 0, 1, 2 with a right angle at atom 1. *)
Definition right_angle : list (vec3 PrimFloat.float) :=
  [pt 1 0 0; pt 0 0 0; pt 0 1 0].

(** Atoms 0, 1, 2 on a line through atom 1. *)
Definition linear : list (vec3 PrimFloat.float) :=
  [pt 1 0 0; pt 0 0 0; pt (-1) 0 0].

(** Atoms 0, 1, 2 on the z axis, atom 1 in the middle. *)
Definition linear_z : list (vec3 PrimFloat.float) :=
  [pt 0 0 1; pt 0 0 0; pt 0 0 (-1)].

(** A central atom (label 1) with three neighbours and its three
    angles. *)
Definition tripod : list (vec3 PrimFloat.float) :=
  [pt 0 0 0; pt 1 0 0; pt 0 1 0; pt 0 1 1].
Definition tripod_angles : list angle :=
  [(2, 1, 3); (2, 1, 4); (3, 1, 4)]%positive.

(** A bond that is not along an axis, with a cache holding one real
    eigenpair and a pair of conjugate ones in every block. *)
Definition cx (a b : Z) : complex PrimFloat.float := Cx (fl a) (fl b).
Definition slanted_bond : list (vec3 PrimFloat.float) := [pt 0 0 0; pt 0 3 4].
Definition sample_eigenvals : eigvals_table PrimFloat.float :=
  fun _ _ => V3 (cx (-4) 0) (cx (-3) 1) (cx (-3) (-1)).
Definition sample_eigenvecs : eigvecs_table PrimFloat.float :=
  fun _ _ => V3 (V3 (cx 1 0) (cx 0 0) (cx 0 0))
                (V3 (cx 0 0) (cx 1 1) (cx 1 (-1)))
                (V3 (cx 0 0) (cx 1 (-1)) (cx 1 1)).

(** Four atoms; atoms 1, 2 form one declared group of equivalent atoms and
    atoms 3, 4 another one, both listed under the same key of
    [symm_hs]. *)
Definition four_atoms_table : gmap nat (nb_entry PrimFloat.float) :=
  list_to_map
    [(0%nat, NbEntry (fl 1) (fl 10) (fl 100));
     (1%nat, NbEntry (fl 3) (fl 30) (fl 300));
     (2%nat, NbEntry (fl 5) (fl 50) (fl 500));
     (3%nat, NbEntry (fl 7) (fl 70) (fl 700))].
Definition two_groups : list (list (list positive)) :=
  [[[1; 2]; [3; 4]]]%positive.

(** The in-plane vectors of the tripod, as [calculate_angles] computes
    them. *)
Definition tripod_unit_pa : list (list (vec3 PrimFloat.float)) :=
  Eval vm_compute in
    default [] (unit_pa_all_angles (central_atoms_angles 4 tripod_angles) tripod).

(** A water-like molecule: O (label 1) bonded to two H (labels 2, 3), with
    [b_i] 16, 9 and 4, [r_aim] 1 and [a_i = 32 * b_i * r_aim ** 6]; the
    table holds sigma 3 for O and sigma 2 for each H. *)
Definition water_input : list (@input_atom PrimFloat.float) :=
  [("O", pt 0 0 0); ("H", pt 1 0 0); ("H", pt 0 1 0)].
Definition water_edges : list bond := [(1, 2); (1, 3)]%positive.
Definition water_row (element : string) (q b a : Z) : lj_atom PrimFloat.float :=
  LjAtom (AimAtom element (fl q) (fl 1)) (fl 1) (fl b) (fl a).
Definition water_ddec : list (lj_atom PrimFloat.float) :=
  [water_row "O" (-2) 16 512; water_row "H" 1 9 288; water_row "H" 1 4 128].
Definition water_table : gmap nat (nb_entry PrimFloat.float) :=
  list_to_map
    [(0%nat, NbEntry (fl (-2)) (fl 3) (fl 1));
     (1%nat, NbEntry (fl 1) (fl 2) (fl 1));
     (2%nat, NbEntry (fl 1) (fl 2) (fl 1))].
Definition water_ddec_after : list (lj_atom PrimFloat.float) :=
  Eval vm_compute in
    match correct_polar_hydrogens water_input water_edges water_ddec water_table with
    | Some (d, _) => d
    | None => []
    end.
Definition water_table_after : gmap nat (nb_entry PrimFloat.float) :=
  Eval vm_compute in
    match correct_polar_hydrogens water_input water_edges water_ddec water_table with
    | Some (_, t) => t
    | None => ∅
    end.

(** An O-H pair in exact arithmetic: [b_i = 1], [r_aim = 1], [a_i = 32],
    charges -1 and 1; and two raw rows, a hydrogen without volume and an
    oxygen. *)
Definition oh_input : list (@input_atom R) := [("O", V3 0 0 0); ("H", V3 1 0 0)]%R.
Definition oh_edges : list bond := [(1, 2)]%positive.
Definition oh_ddec : list (lj_atom R) :=
  [LjAtom (AimAtom "O" (-1) 1) 1 1 32; LjAtom (AimAtom "H" 1 1) 1 1 32]%R.
Definition oh_raw : list (aim_atom R) := [AimAtom "H" 1 0; AimAtom "O" (-1) 30]%R.

(** Three atoms with a right angle at atom 1, in exact arithmetic. *)
Definition right_angle_R : list (vec3 R) := [V3 1 0 0; V3 0 0 0; V3 0 1 0]%R.
Definition one_angle : list angle := [(1, 2, 3)]%positive.

(** A cache with the same real eigenpairs in every block, unit bond
    lengths, and an eigen-solver that returns these eigenpairs for every
    block. *)
Definition unit_lens : lens_table R := fun _ _ => 1%R.
Definition cxR (a b : R) : complex R := Cx a b.
Definition diag_eigenvals : eigvals_table R :=
  fun _ _ => V3 (cxR 1 0) (cxR 2 0) (cxR 3 0).
Definition diag_eigenvecs : eigvecs_table R :=
  fun _ _ => V3 (V3 (cxR 1 0) (cxR 0 0) (cxR 0 0))
                (V3 (cxR 0 0) (cxR 1 0) (cxR 0 0))
                (V3 (cxR 0 0) (cxR 0 0) (cxR 1 0)).
Definition diag_eig (block : vec3 (vec3 R)) : option (@eig_result R) :=
  Some (diag_eigenvals 0%nat 0%nat, diag_eigenvecs 0%nat 0%nat).
Definition two_atoms_qm : list (string * vec3 R) := [("O", V3 0 0 0); ("H", V3 1 0 0)]%R.
Definition one_bond : list bond := [(1, 2)]%positive.

(** A C-H pair in exact arithmetic: [b_i = 1], [r_aim = 1], [a_i = 32]. *)
Definition ch_input : list (@input_atom R) := [("C", V3 0 0 0); ("H", V3 1 0 0)]%R.
Definition ch_edges : list bond := [(1, 2)]%positive.
Definition ch_ddec : list (lj_atom R) :=
  [LjAtom (AimAtom "C" (-1) 1) 1 1 32; LjAtom (AimAtom "H" 1 1) 1 1 32]%R.
End Examples.

(** * Properties *)

Import ModSemMaths ModSeminario LennardJones.

(** ** The branch taken by [force_constant_angle] *)

Section AngleBranch.
Context {F : Type} {N : Num F} {L : Libm F}.

Lemma force_constant_angle_branch a b c lens vals vecs (coords : list (vec3 F)) sc :
  force_constant_angle a b c lens vals vecs coords sc =
  (u_ab ← vector_along_bond coords a b;
   u_cb ← vector_along_bond coords c b;
   taken ← special_case_taken a b c coords;
   Some (if (taken : bool)
         then f_c_a_special_case u_ab u_cb (lens a b, lens b c)
                (vals a b, vals c b) (vecs a b, vecs c b)
         else regular_case u_ab u_cb (unit_vector_n u_cb u_ab) (lens a b) (lens b c)
                (vals a b) (vals c b) (vecs a b) (vecs c b) sc)).
Proof.
  unfold force_constant_angle, special_case_taken.
  destruct (vector_along_bond coords a b) as [u_ab|]; simpl; [|done].
  destruct (vector_along_bond coords c b) as [u_cb|]; simpl; [|done].
  by destruct (truthy _).
Qed.
End AngleBranch.

(** C1 (the code departs from the claim): at a right angle the flanking
    bonds are not colinear — the cross product of the bond unit vectors is
    not the zero vector and the plane normal is [(0, 0, -1)] — yet the test
    [if sum(u_n):] succeeds, because the components of the normal sum to
    [-1], and [force_constant_angle] returns the result of the sampling
    special case, whatever the cache and the scaling factors. *)
Theorem right_angle_takes_special_case :
  Spec.colinear 0 1 2 Examples.right_angle = Some false
  ∧ special_case_taken 0 1 2 Examples.right_angle = Some true
  ∧ ∀ (L : Libm PrimFloat.float) lens vals vecs sc,
      force_constant_angle 0 1 2 lens vals vecs Examples.right_angle sc =
      Some (f_c_a_special_case (Examples.pt (-1) 0 0) (Examples.pt 0 (-1) 0)
              (lens 0%nat 1%nat, lens 1%nat 2%nat)
              (vals 0%nat 1%nat, vals 2%nat 1%nat) (vecs 0%nat 1%nat, vecs 2%nat 1%nat)).
Proof.
  split; [by vm_compute|]. split; [by vm_compute|].
  intros L lens vals vecs sc. rewrite force_constant_angle_branch.
  replace (vector_along_bond Examples.right_angle 0 1)
    with (Some (Examples.pt (-1) 0 0)) by (by vm_compute).
  replace (vector_along_bond Examples.right_angle 2 1)
    with (Some (Examples.pt 0 (-1) 0)) by (by vm_compute).
  replace (special_case_taken 0 1 2 Examples.right_angle)
    with (Some true) by (by vm_compute).
  reflexivity.
Qed.

(** On colinear flanking bonds the normal is [0/0], a vector of NaN, whose
    sum is NaN and therefore true: the special case is taken there too. *)
Lemma linear_takes_special_case :
  Spec.colinear 0 1 2 Examples.linear = Some true
  ∧ special_case_taken 0 1 2 Examples.linear = Some true.
Proof. split; by vm_compute. Qed.

(** ** The scaling factors handed to [force_constant_angle] *)

Section SharedSlots.
Context {F : Type} {N : Num F}.

Lemma foldlM_append_single (slots : list PyHeap.ref) (l : list (F * nat)) (content : list F) h :
  (∀ r, r ∈ slots → r = 0%nat) →
  foldlM (fun h '(factor, count) => r ← slots !! count; PyHeap.append h r factor)
         l [content] = Some h →
  h = [content ++ map fst l].
Proof.
  intros Hslots. revert content.
  induction l as [|[factor count] l IH]; intros content; simpl.
  - intros [= <-]. by rewrite app_nil_r.
  - destruct (slots !! count) as [r|] eqn:Hr; simpl; [|done].
    assert (r = 0%nat) as -> by (eapply Hslots, list_elem_of_lookup_2; done).
    simpl. intros H. apply IH in H. by rewrite <- app_assoc in H.
Qed.

(** All the slots of [scaling_factors_angles_list] refer to one list, which
    receives every scaling factor in the order of the two loops. *)
Lemma scaling_factors_angles_list_shared n (factors : list (list (F * nat))) h slots :
  scaling_factors_angles_list n factors = Some (h, slots) →
  slots = replicate n 0%nat ∧ h = [map fst (concat factors)].
Proof.
  unfold scaling_factors_angles_list, PyHeap.alloc, PyHeap.repeat_ref. simpl.
  destruct (foldlM _ _ _) as [h'|] eqn:Hfold; simpl; [|done].
  intros [= <- <-]. split; [done|].
  apply foldlM_append_single in Hfold; [done|].
  intros r Hr. by apply elem_of_replicate in Hr as [-> _].
Qed.

(** Hence the pair read for an angle does not depend on the angle. *)
Lemma scalings_of_same_pair (angle_list : list angle) (coords : list (vec3 F)) store i i' :
  scaling_store angle_list coords = Some store →
  (i < length angle_list)%nat → (i' < length angle_list)%nat →
  scalings_of store i = scalings_of store i'.
Proof.
  unfold scaling_store. intros Hstore Hi Hi'.
  destruct (unit_pa_all_angles _ _) as [unit_pa|]; simpl in Hstore; [|done].
  destruct (scaling_factor_all_angles _ _) as [factors|]; simpl in Hstore; [|done].
  destruct store as [h slots].
  apply scaling_factors_angles_list_shared in Hstore as [-> ->].
  unfold scalings_of, PyHeap.read. simpl.
  by rewrite !lookup_replicate_2.
Qed.
End SharedSlots.

(** C2 (the code departs from the claim): around the central atom of the
    tripod the factors derived for the two flanking bonds of the first angle
    are [1.5] and [1], and those of the third angle are [1] and [1]; the
    pair passed to [force_constant_angle] is [(1.5, 1.5)] for both, the
    first two factors appended to the one list that all slots share. *)
Theorem tripod_scalings_not_own :
  let passed i := store ← scaling_store Examples.tripod_angles Examples.tripod;
                  scalings_of store i in
  let own := Spec.own_scalings Examples.tripod_angles Examples.tripod in
  passed 0%nat = Some (lit 3 2, lit 3 2)
  ∧ own 0%nat = Some (lit 3 2, of_Z 1)
  ∧ passed 2%nat = Some (lit 3 2, lit 3 2)
  ∧ own 2%nat = Some (of_Z 1, of_Z 1)
  ∧ feqb (lit 3 2 : PrimFloat.float) (of_Z 1) = false.
Proof. repeat split; by vm_compute. Qed.

(** ** Symmetry averaging *)

(** C7 (the code departs from the claim): with two groups under one key,
    the atoms of the second group (atoms 3 and 4, charges [5] and [7]) end
    with the mean [4] of all four charges collected so far, not with the
    mean [6] of their own group; likewise for sigma and epsilon. *)
Theorem second_group_averaged_with_first :
  let after k := nbf ← apply_symmetrisation Examples.two_groups Examples.four_atoms_table;
                 nbf !! k in
  after 0%nat = Some (NbEntry (of_Z 2) (of_Z 20) (of_Z 200))
  ∧ after 1%nat = Some (NbEntry (of_Z 2) (of_Z 20) (of_Z 200))
  ∧ after 2%nat = Some (NbEntry (of_Z 4) (of_Z 40) (of_Z 400))
  ∧ after 3%nat = Some (NbEntry (of_Z 4) (of_Z 40) (of_Z 400))
  ∧ mean [Examples.fl 5; Examples.fl 7] = Some (of_Z 6)
  ∧ mean [Examples.fl 50; Examples.fl 70] = Some (of_Z 60)
  ∧ mean [Examples.fl 500; Examples.fl 700] = Some (of_Z 600).
Proof. repeat split; by vm_compute. Qed.

(** ** The sampling special case *)

Lemma fill_array_from {A : Type} (f : nat → A) (z : A) (m a : nat) :
  fold_left (fun arr k => <[k := f k]> arr) (seq a m)
            (map f (seq 0 a) ++ replicate m z)
  = map f (seq 0 (a + m)).
Proof.
  revert a. induction m as [|m IH]; intros a; simpl.
  - by rewrite app_nil_r, Nat.add_0_r.
  - replace (<[a := f a]> (map f (seq 0 a) ++ z :: replicate m z))
      with (map f (seq 0 (S a)) ++ replicate m z).
    + rewrite IH. f_equal. f_equal. lia.
    + rewrite seq_S, map_app, <- app_assoc. simpl.
      rewrite insert_app_r_alt by (rewrite length_map, length_seq; lia).
      rewrite length_map, length_seq, Nat.sub_diag. done.
Qed.

(** Writing [f k] into slot [k] of [zeros(n)] for [k] in [range(n)] leaves
    the array [[f 0, ..., f (n-1)]]. *)
Lemma fill_array {A : Type} (f : nat → A) (z : A) (n : nat) :
  fold_left (fun arr k => <[k := f k]> arr) (seq 0 n) (replicate n z) = map f (seq 0 n).
Proof. apply (fill_array_from f z n 0). Qed.

(** C5 (amended): the special case draws exactly 200 trial normals
    [(sin t cos t, sin t sin t, cos t)], one for each integer
    [t = 0, 1, ..., 199] taken as an angle in radians (they are not confined
    to one turn); the force constant returned is the arithmetic mean of the
    200 trial force constants obtained from the in-plane projections, and
    the equilibrium angle returned is [acos(dot(u_ab, u_cb))], in radians:
    no conversion to degrees is applied, unlike in the regular case. *)
Theorem special_case_is_mean_over_integer_angles
    {F : Type} {N : Num F} {L : Libm F} (u_ab u_cb : vec3 F) lens vals vecs :
  sample_thetas = seq 0 200
  ∧ (∀ theta, sample_normal theta =
        let t := of_Z (Z.of_nat theta) in
        V3 (fsin t *. fcos t) (fsin t *. fsin t) (fcos t))
  ∧ (∀ theta, special_case_sample u_ab u_cb lens vals vecs theta =
        springs_in_series (fst lens) (snd lens)
          (projection_sum (fst vals) (fst vecs) (unit_vector_n (sample_normal theta) u_ab))
          (projection_sum (snd vals) (snd vecs) (unit_vector_n u_cb (sample_normal theta))))
  ∧ f_c_a_special_case u_ab u_cb lens vals vecs =
      (py_sum (map (special_case_sample u_ab u_cb lens vals vecs) sample_thetas)
         /. of_Z 200,
       facos (dot u_ab u_cb))
  ∧ (∀ u_n l_ab l_bc v_ab v_cb e_ab e_cb sc,
        snd (regular_case u_ab u_cb u_n l_ab l_bc v_ab v_cb e_ab e_cb sc)
        = degrees (facos (dot u_ab u_cb))).
Proof.
  split; [done|]. split; [done|]. split; [done|]. split; [|done].
  unfold f_c_a_special_case, sample_thetas.
  rewrite fill_array. unfold average.
  by rewrite length_map, length_seq.
Qed.

(** C5, as stated, fails: the angles are not swept over [[0, 2 pi)]; the
    sample [theta = 8] already lies beyond one turn. *)
Lemma sample_angles_exceed_one_turn : ¬ Spec.swept_over_one_turn sample_thetas.
Proof.
  unfold Spec.swept_over_one_turn. rewrite Forall_forall.
  intros H. specialize (H 8%nat).
  assert (8 ∈ sample_thetas) as Hin.
  { unfold sample_thetas, n_samples. apply elem_of_seq. lia. }
  destruct (H Hin) as [_ Hlt].
  pose proof PI_4 as Hpi. simpl in Hlt. lra.
Qed.

(** ** The sampling special case on a molecule along the z axis

    Not-a-number is absorbing for the operations of binary64, hence for the
    complex operations built on them.  The first trial normal, at
    [theta = 0], is [(0, 0, 1)]: when the bonds lie along the z axis its
    cross product with the bond vector vanishes, the in-plane vector is
    [0/0], and the not-a-number of that sample is carried by the sum into
    the mean. *)

Lemma Prim2SF_nan : FloatOps.Prim2SF nan = SpecFloat.S754_nan.
Proof. reflexivity. Qed.

Lemma nan_add_l x : nan +. x = nan.
Proof. apply FloatAxioms.Prim2SF_inj. simpl. by rewrite FloatAxioms.add_spec. Qed.

Lemma nan_add_r x : x +. nan = nan.
Proof.
  apply FloatAxioms.Prim2SF_inj. simpl. rewrite FloatAxioms.add_spec, Prim2SF_nan.
  by destruct (FloatOps.Prim2SF x) as [| | |[] ? ?].
Qed.

Lemma nan_sub_l x : nan -. x = nan.
Proof. apply FloatAxioms.Prim2SF_inj. simpl. by rewrite FloatAxioms.sub_spec. Qed.

Lemma nan_sub_r x : x -. nan = nan.
Proof.
  apply FloatAxioms.Prim2SF_inj. simpl. rewrite FloatAxioms.sub_spec, Prim2SF_nan.
  by destruct (FloatOps.Prim2SF x) as [| | |[] ? ?].
Qed.

Lemma nan_mul_l x : nan *. x = nan.
Proof. apply FloatAxioms.Prim2SF_inj. simpl. by rewrite FloatAxioms.mul_spec. Qed.

Lemma nan_mul_r x : x *. nan = nan.
Proof.
  apply FloatAxioms.Prim2SF_inj. simpl. rewrite FloatAxioms.mul_spec, Prim2SF_nan.
  by destruct (FloatOps.Prim2SF x) as [| | |[] ? ?].
Qed.

Lemma nan_div_l x : nan /. x = nan.
Proof. apply FloatAxioms.Prim2SF_inj. simpl. by rewrite FloatAxioms.div_spec. Qed.

Lemma nan_div_r x : x /. nan = nan.
Proof.
  apply FloatAxioms.Prim2SF_inj. simpl. rewrite FloatAxioms.div_spec, Prim2SF_nan.
  by destruct (FloatOps.Prim2SF x) as [| | |[] ? ?].
Qed.

Ltac nan_simpl :=
  rewrite ?nan_mul_l, ?nan_mul_r, ?nan_div_l, ?nan_div_r,
          ?nan_add_l, ?nan_add_r, ?nan_sub_l, ?nan_sub_r.

Lemma cmul_nan_l w : cmul (c_of_real nan) w = cnan.
Proof. unfold cmul, c_of_real, cnan; cbn [re im]. by nan_simpl. Qed.

Lemma cmul_nan_r z : cmul z (c_of_real nan) = cnan.
Proof. unfold cmul, c_of_real, cnan; cbn [re im]. by nan_simpl. Qed.

Lemma cmul_cnan_l w : cmul cnan w = cnan.
Proof. unfold cmul, cnan; cbn [re im]. by nan_simpl. Qed.

Lemma cmul_cnan_r z : cmul z cnan = cnan.
Proof. unfold cmul, cnan; cbn [re im]. by nan_simpl. Qed.

Lemma cadd_cnan_l w : cadd cnan w = cnan.
Proof. unfold cadd, cnan; cbn [re im]. by nan_simpl. Qed.

Lemma cadd_cnan_r z : cadd z cnan = cnan.
Proof. unfold cadd, cnan; cbn [re im]. by nan_simpl. Qed.

Lemma cdiv_cnan_r z : cdiv z cnan = cnan.
Proof. unfold cdiv, cnan; cbn [re im]. by nan_simpl. Qed.

Lemma cabs_cnan : cabs cnan = nan.
Proof. reflexivity. Qed.

Lemma dot_product_nan e : dot_product (V3 nan nan nan) e = cnan.
Proof.
  unfold dot_product, py_csum. cbn [seq map fold_left vget vx vy vz].
  by rewrite !cmul_nan_l, !cadd_cnan_r.
Qed.

Lemma projection_sum_nan vals vecs : projection_sum vals vecs (V3 nan nan nan) = cnan.
Proof.
  unfold projection_sum, py_csum. cbn [seq map fold_left].
  by rewrite !dot_product_nan, cabs_cnan, !cmul_nan_r, !cadd_cnan_r.
Qed.

Lemma springs_in_series_nan l_ab l_bc sum_second :
  springs_in_series l_ab l_bc cnan sum_second = nan.
Proof.
  unfold springs_in_series. cbv zeta.
  by rewrite cmul_cnan_r, cdiv_cnan_r, cadd_cnan_l, cdiv_cnan_r, cmul_cnan_l.
Qed.

Lemma py_sum_nan l : py_sum (nan :: l) = nan.
Proof.
  unfold py_sum. cbn [fold_left]. rewrite nan_add_r.
  induction l as [|x l IH]; [done|]. cbn [fold_left]. by rewrite nan_add_l.
Qed.

Section SpecialCaseAlongZ.
(** Any math library with [sin(0) = 0] and [cos(0) = 1]. *)
Context (L : Libm PrimFloat.float).
Hypothesis sin_0 : fsin (of_Z 0) = of_Z 0.
Hypothesis cos_0 : fcos (of_Z 0) = of_Z 1.

(** The sample at [theta = 0], for bond vectors [(0, 0, -1)] and
    [(0, 0, 1)]. *)
Lemma special_case_sample_along_z lens vals vecs :
  special_case_sample (Examples.pt 0 0 (-1)) (Examples.pt 0 0 1) lens vals vecs 0 = nan.
Proof using sin_0 cos_0.
  unfold special_case_sample, sample_normal. cbv zeta.
  change (Z.of_nat 0) with 0%Z. rewrite sin_0, cos_0.
  replace (unit_vector_n _ (Examples.pt 0 0 (-1))) with (V3 nan nan nan)
    by (by vm_compute).
  rewrite projection_sum_nan. apply springs_in_series_nan.
Qed.

(** For three atoms on the z axis the flanking bonds are colinear, the
    special case is taken, and the force constant it returns is
    not-a-number whatever the bond lengths and the eigen-cache; the angle is
    [acos(-1)]. *)
Lemma linear_along_z_gives_nan lens vals vecs sc :
  Spec.colinear 0 1 2 Examples.linear_z = Some true
  ∧ force_constant_angle 0 1 2 lens vals vecs Examples.linear_z sc =
      Some (nan, facos (of_Z (-1))).
Proof using sin_0 cos_0.
  split; [by vm_compute|].
  rewrite force_constant_angle_branch.
  replace (vector_along_bond Examples.linear_z 0 1)
    with (Some (Examples.pt 0 0 (-1))) by (by vm_compute).
  replace (vector_along_bond Examples.linear_z 2 1)
    with (Some (Examples.pt 0 0 1)) by (by vm_compute).
  replace (special_case_taken 0 1 2 Examples.linear_z) with (Some true) by (by vm_compute).
  cbn [mbind option_bind].
  unfold f_c_a_special_case, sample_thetas, n_samples. cbv zeta.
  rewrite fill_array. unfold average.
  change (seq 0 200) with (0%nat :: seq 1 199). cbn [map].
  rewrite special_case_sample_along_z, py_sum_nan, nan_div_l.
  do 2 f_equal.
Qed.
End SpecialCaseAlongZ.

(** ** Loops with a body that may fail *)

Lemma foldlM_invariant {A B : Type} (f : B → A → option B) (P : B → Prop) l b b' :
  (∀ b x b', x ∈ l → P b → f b x = Some b' → P b') →
  P b → foldlM f l b = Some b' → P b'.
Proof.
  revert b. induction l as [|x l IH]; intros b Hstep Hb; simpl.
  - by intros [= <-].
  - destruct (f b x) as [b1|] eqn:Hf; simpl; [|done].
    apply IH.
    + intros b2 y b3 Hy. apply Hstep. by right.
    + eapply Hstep; [left| |]; done.
Qed.

Lemma foldlM_is_Some {A B : Type} (f : B → A → option B) (P : B → Prop) l b :
  (∀ b x, x ∈ l → P b → ∃ b', f b x = Some b' ∧ P b') →
  P b → ∃ b', foldlM f l b = Some b' ∧ P b'.
Proof.
  revert b. induction l as [|x l IH]; intros b Hstep Hb; simpl.
  - eauto.
  - destruct (Hstep b x) as (b1 & -> & Hb1); [left|done|]. simpl.
    apply IH; [|done]. intros b2 y Hy. apply Hstep. by right.
Qed.

Section FoldEnumerate.
Context {A V : Type}.
Variable step : gmap nat V → nat * A → option (gmap nat V).
Variable Q : nat → A → option V → option V → Prop.
Hypothesis step_spec : ∀ m pos a m',
  step m (pos, a) = Some m' →
  (∀ k, k ≠ pos → m' !! k = m !! k) ∧ Q pos a (m !! pos) (m' !! pos).

Lemma foldlM_enumerate_from (l : list A) (s : nat) (m m' : gmap nat V) :
  foldlM step (zip (seq s (length l)) l) m = Some m' →
  (∀ k, (k < s ∨ s + length l ≤ k)%nat → m' !! k = m !! k)
  ∧ (∀ i a, l !! i = Some a → Q (s + i) a (m !! (s + i)%nat) (m' !! (s + i)%nat)).
Proof using step_spec.
  revert s m. induction l as [|x l IH]; intros s m; simpl.
  - intros [= <-]. split; [done|]. intros i a. by rewrite lookup_nil.
  - destruct (step m (s, x)) as [m1|] eqn:Hstep; simpl; [|done].
    intros Hfold. apply step_spec in Hstep as [Hother Hpos].
    apply IH in Hfold as [Hout Hin]. split.
    + intros k Hk. rewrite Hout by lia. apply Hother. lia.
    + intros [|i] a Hi; simpl in Hi.
      * injection Hi as ->. rewrite Nat.add_0_r. by rewrite Hout by lia.
      * specialize (Hin i a Hi).
        replace (S s + i)%nat with (s + S i)%nat in Hin by lia.
        by rewrite (Hother (s + S i)%nat) in Hin by lia.
Qed.

(** A loop [for pos, x in enumerate(l)] whose body rewrites entry [pos] of a
    dictionary only. *)
Lemma foldlM_enumerate (l : list A) (m m' : gmap nat V) :
  foldlM step (enumerate l) m = Some m' →
  (∀ k, (length l ≤ k)%nat → m' !! k = m !! k)
  ∧ (∀ i a, l !! i = Some a → Q i a (m !! i) (m' !! i)).
Proof using step_spec.
  intros H. apply foldlM_enumerate_from in H as [Hout Hin]. split.
  - intros k Hk. apply Hout. lia.
  - intros i a Hi. apply (Hin i a Hi).
Qed.
End FoldEnumerate.

(** ** The polar-hydrogen correction: what it leaves alone *)

Section PolarFrame.
Context {F : Type} {N : Num F}.

Lemma lookup_insert_set_b_i (d : list (lj_atom F)) i j x son h' :
  d !! i = Some son →
  <[i := set_b_i x son]> d !! j = Some h' →
  ∃ h0, d !! j = Some h0 ∧ aim h' = aim h0 ∧ r_aim h' = r_aim h0 ∧ a_i h' = a_i h0.
Proof.
  intros Hson Hh'. destruct (decide (i = j)) as [->|Hne].
  - rewrite list_lookup_insert_eq in Hh' by (by eapply lookup_lt_Some).
    injection Hh' as <-. by exists son.
  - rewrite list_lookup_insert_ne in Hh' by done. by exists h'.
Qed.

Lemma redistribute_frame (d d' : list (lj_atom F)) pair :
  redistribute d pair = Some d' →
  map aim d' = map aim d ∧ map r_aim d' = map r_aim d.
Proof.
  unfold redistribute. destruct (_ || _); [|by intros [= <-]].
  destruct (if has "H" pair.1 then _ else _) as [[h_label son_label]|]; simpl; [|done].
  destruct (d !! atom_index son_label) as [son|] eqn:Hson; simpl; [|done].
  destruct (d !! atom_index h_label) as [h|] eqn:Hh; simpl; [|done].
  destruct (<[_ := _]> d !! atom_index h_label) as [h'|] eqn:Hh'; simpl; [|done].
  intros [= <-].
  destruct (lookup_insert_set_b_i _ _ _ _ _ _ Hson Hh') as (h0 & Hh0 & Ea & Er & _).
  rewrite !list_fmap_insert. simpl. rewrite Ea, Er.
  split.
  - rewrite (list_insert_id (aim <$> d) (atom_index son_label))
      by (by rewrite list_lookup_fmap, Hson).
    apply list_insert_id. by rewrite list_lookup_fmap, Hh0.
  - rewrite (list_insert_id (r_aim <$> d) (atom_index son_label))
      by (by rewrite list_lookup_fmap, Hson).
    apply list_insert_id. by rewrite list_lookup_fmap, Hh0.
Qed.

(** [correct_b_a] rewrites [b_i] and [a_i] only. *)
Lemma correct_b_a_frame polar_pairs (d d' : list (lj_atom F)) :
  correct_b_a polar_pairs d = Some d' →
  map aim d' = map aim d ∧ map r_aim d' = map r_aim d.
Proof.
  unfold correct_b_a.
  destruct (foldlM _ _ _) as [d1|] eqn:Hfold; simpl; [|done].
  intros [= <-].
  apply (foldlM_invariant _
           (fun d1 => map aim d1 = map aim d ∧ map r_aim d1 = map r_aim d)) in Hfold.
  - destruct Hfold as [Ea Er]. rewrite <- Ea, <- Er.
    rewrite <- !list_fmap_compose. split; apply list_fmap_ext; done.
  - intros b x b' _ [Ea Er] Hstep. apply redistribute_frame in Hstep as [Ea' Er'].
    split; congruence.
  - rewrite <- !list_fmap_compose. split; apply list_fmap_ext; done.
Qed.

Lemma update_epsilon_spec (m : gmap nat (nb_entry F)) pos (atom : lj_atom F) m' :
  update_epsilon m (pos, atom) = Some m' →
  (∀ k, k ≠ pos → m' !! k = m !! k)
  ∧ ∃ old, m !! pos = Some old
      ∧ m' !! pos = Some (NbEntry (charge (aim atom))
                            (if feqb (a_i atom) (of_Z 0) then of_Z 0 else nb_sigma old)
                            (if feqb (a_i atom) (of_Z 0) then of_Z 0
                             else ipow (b_i atom) 2 /. (of_Z 4 *. a_i atom) *. epsilon_conversion)).
Proof.
  unfold update_epsilon. destruct (feqb (a_i atom) (of_Z 0)).
  - destruct (m !! pos) as [old|] eqn:Hold; simpl; [|done].
    rewrite lookup_insert_eq. simpl. intros [= <-]. split.
    + intros k Hk. by rewrite !lookup_insert_ne.
    + exists old. by rewrite lookup_insert_eq.
  - unfold py_div. destruct (feqb (of_Z 4 *. a_i atom) (of_Z 0)); simpl; [done|].
    destruct (m !! pos) as [old|] eqn:Hold; simpl; [|done].
    intros [= <-]. split.
    + intros k Hk. by rewrite lookup_insert_ne.
    + exists old. by rewrite lookup_insert_eq.
Qed.

Context {L : Libm F}.

Lemma calculate_sig_eps_step_spec (m : gmap nat (nb_entry F)) pos (atom : lj_atom F) m' :
  ('(sigma, epsilon) ← sig_eps atom;
   Some (<[pos := NbEntry (charge (aim atom)) sigma epsilon]> m)) = Some m' →
  (∀ k, k ≠ pos → m' !! k = m !! k)
  ∧ ∃ sigma epsilon, sig_eps atom = Some (sigma, epsilon)
      ∧ m' !! pos = Some (NbEntry (charge (aim atom)) sigma epsilon).
Proof.
  destruct (sig_eps atom) as [[sigma epsilon]|]; simpl; [|done].
  intros [= <-]. split.
  - intros k Hk. by rewrite lookup_insert_ne.
  - exists sigma, epsilon. by rewrite lookup_insert_eq.
Qed.

(** After [calculate_sig_eps] every atom has its entry, with the charge
    and the [(sigma, epsilon)] computed for it. *)
Lemma calculate_sig_eps_spec (ddec_data : list (lj_atom F)) nbf0 nbf :
  calculate_sig_eps ddec_data nbf0 = Some nbf →
  (∀ k, (length ddec_data ≤ k)%nat → nbf !! k = nbf0 !! k)
  ∧ (∀ pos atom, ddec_data !! pos = Some atom →
       ∃ sigma epsilon, sig_eps atom = Some (sigma, epsilon)
         ∧ nbf !! pos = Some (NbEntry (charge (aim atom)) sigma epsilon)).
Proof.
  unfold calculate_sig_eps. intros H.
  apply (foldlM_enumerate _
           (fun pos atom _ new =>
              ∃ sigma epsilon, sig_eps atom = Some (sigma, epsilon)
                ∧ new = Some (NbEntry (charge (aim atom)) sigma epsilon))) in H; [done|].
  intros m pos a m' Hstep. by apply calculate_sig_eps_step_spec in Hstep.
Qed.
End PolarFrame.

(** C10: the polar-hydrogen correction never modifies a charge.  For the
    table produced by [calculate_sig_eps], the charge entry of every atom
    index is the same after [correct_polar_hydrogens] as before it. *)
Theorem polar_correction_keeps_charges
    {F : Type} {N : Num F} {L : Libm F}
    (input : list input_atom) (edges : list bond) (ddec_data ddec_data' : list (lj_atom F))
    (nbf0 nbf nbf' : gmap nat (nb_entry F)) (pos : nat) :
  calculate_sig_eps ddec_data nbf0 = Some nbf →
  correct_polar_hydrogens input edges ddec_data nbf = Some (ddec_data', nbf') →
  nb_charge <$> nbf' !! pos = nb_charge <$> nbf !! pos.
Proof.
  intros Hsig Hcorr. unfold correct_polar_hydrogens in Hcorr.
  destruct (new_pairs input edges) as [pairs|]; simpl in Hcorr; [|done].
  destruct (correct_b_a (polars pairs) ddec_data) as [d1|] eqn:Hba; simpl in Hcorr; [|done].
  destruct (foldlM update_epsilon (enumerate d1) nbf) as [nbf1|] eqn:Hfold;
    simpl in Hcorr; [|done].
  injection Hcorr as <- <-.
  apply correct_b_a_frame in Hba as [Haim _].
  apply calculate_sig_eps_spec in Hsig as [Hout Hin].
  apply (foldlM_enumerate _
           (fun pos atom old new =>
              ∃ o, old = Some o ∧ nb_charge <$> new = Some (charge (aim atom)))) in Hfold.
  - destruct Hfold as [Hout' Hin'].
    destruct (d1 !! pos) as [atom1|] eqn:Hd1.
    + destruct (Hin' pos atom1 Hd1) as (o & Ho & ->).
      assert (map aim d1 !! pos = Some (aim atom1)) as Ha
          by (by rewrite list_lookup_fmap, Hd1).
      rewrite Haim, list_lookup_fmap in Ha.
      destruct (ddec_data !! pos) as [atom|] eqn:Hd; simpl in Ha; [|done].
      injection Ha as Ha.
      destruct (Hin pos atom Hd) as (sigma & epsilon & _ & ->).
      simpl. by rewrite Ha.
    + apply lookup_ge_None in Hd1. by rewrite Hout'.
  - intros m p a m' Hstep. apply update_epsilon_spec in Hstep as [Hother (old & Hold & Hnew)].
    split; [done|]. exists old. split; [done|]. by rewrite Hnew.
Qed.

(** ** Bonds *)

Lemma mapM_ext_eq {A B : Type} (f g : A → option B) (l : list A) :
  (∀ x, f x = g x) → mapM f l = mapM g l.
Proof.
  intros Hfg. induction l as [|x l IH]; simpl; [done|].
  by rewrite Hfg, IH.
Qed.

Section RealArithmetic.
Local Open Scope R_scope.

Lemma complex_eq_R (z w : complex R) : re z = re w → im z = im w → z = w.
Proof. destruct z, w; simpl; congruence. Qed.

(** In exact arithmetic the value returned by [force_constant_bond] is the
    closed formula of the specification. *)
Lemma force_constant_bond_formula a b (vals : eigvals_table R) (vecs : eigvecs_table R)
    (coords : list (vec3 R)) :
  force_constant_bond a b vals vecs coords =
  (u_ab ← vector_along_bond coords a b;
   Some (Spec.bond_force_constant u_ab (vals a b) (vecs a b))).
Proof.
  unfold force_constant_bond.
  destruct (vector_along_bond coords a b) as [u|]; simpl; [|done].
  f_equal. unfold Spec.bond_force_constant, py_csum, cmul, cadd, c_of_real, lit. simpl.
  apply complex_eq_R; simpl; ring.
Qed.

(** C3: for every bond of the list, the force constant of each ordering is
    [-0.5 * sum_i eigval_i * |dot(u_ab, eigvec_i)|] over the three
    eigenpairs of the block of that ordering, and the value reported with
    the bond length is [vib_scaling ** 2] times the mean of the two.  The
    scalars are complex and the reported force constant is real: it is
    [vib_scaling ** 2] times the real part of the mean, which is
    [vib_scaling ** 2] times the mean itself whenever the two values have no
    imaginary part, as for the eigen-data of real blocks. *)
Theorem calculate_bonds_reports_scaled_mean (vib_scaling : R) (bond_list : list bond)
    (bond_lens : lens_table R) (eigenvals : eigvals_table R) (eigenvecs : eigvecs_table R)
    (coords : list (vec3 R)) :
  calculate_bonds vib_scaling bond_list bond_lens eigenvals eigenvecs coords =
  mapM (Spec.reported_bond vib_scaling bond_lens eigenvals eigenvecs coords) bond_list
  ∧ ∀ ab ba : complex R,
      im ab = 0 → im ba = 0 →
      c_of_real (vib_scaling * vib_scaling * re (Spec.cmean ab ba))
      = cmul (c_of_real (vib_scaling * vib_scaling)) (Spec.cmean ab ba).
Proof.
  split.
  - unfold calculate_bonds. apply mapM_ext_eq. intros [b0 b1].
    unfold Spec.reported_bond. simpl.
    rewrite !force_constant_bond_formula.
    destruct (vector_along_bond coords (atom_index b0) (atom_index b1)) as [u_ab|];
      simpl; [|done].
    destruct (vector_along_bond coords (atom_index b1) (atom_index b0)) as [u_ba|];
      simpl; [|done].
    f_equal. f_equal.
    unfold real, cdiv, cadd, c_of_real, Spec.cmean. simpl. field.
  - intros ab ba Hab Hba.
    unfold cmul, c_of_real, Spec.cmean. simpl. rewrite Hab, Hba.
    apply complex_eq_R; simpl; field.
Qed.
End RealArithmetic.

(** ** Invariance under the sign of an eigenvector *)

Section SignFlip.
Local Open Scope R_scope.

Lemma cabs_dot_rc_opp (u : vec3 R) (v : vec3 (complex R)) :
  cabs (dot_rc u (vmap copp v)) = cabs (dot_rc u v).
Proof.
  unfold cabs, dot_rc, cadd, cmul, c_of_real, vmap, copp. simpl.
  f_equal. ring.
Qed.

Lemma cabs_dot_product_opp (u : vec3 R) (v : vec3 (complex R)) :
  cabs (dot_product u (vmap copp v)) = cabs (dot_product u v).
Proof.
  unfold cabs, dot_product, py_csum, cadd, cmul, c_of_real, conjugate, vmap, copp. simpl.
  f_equal. ring.
Qed.

Lemma vget_flipped_column {A : Type} (flip : A → A) (P : A → A → Prop)
    (cols : vec3 A) (k i : nat) :
  (∀ x, P x x) → (∀ x, P (flip x) x) →
  P (vget (Spec.vset cols k (flip (vget cols k))) i) (vget cols i).
Proof.
  intros Hrefl Hflip.
  destruct k as [|[|k]], i as [|[|i]]; simpl; auto.
Qed.

Variables (eigenvals : eigvals_table R) (eigenvecs : eigvecs_table R) (p q k : nat).

Lemma cabs_dot_rc_flip u a b i :
  cabs (dot_rc u (vget (Spec.flip_eigenvector eigenvecs p q k a b) i))
  = cabs (dot_rc u (vget (eigenvecs a b) i)).
Proof.
  unfold Spec.flip_eigenvector. destruct (_ && _)%bool; [|done].
  apply (vget_flipped_column (vmap copp)
           (fun x y => cabs (dot_rc u x) = cabs (dot_rc u y))); [done|].
  intros x. apply cabs_dot_rc_opp.
Qed.

Lemma projection_sum_flip vals u a b :
  projection_sum vals (Spec.flip_eigenvector eigenvecs p q k a b) u
  = projection_sum vals (eigenvecs a b) u.
Proof.
  unfold projection_sum. f_equal. apply map_ext. intros i. f_equal. f_equal.
  unfold Spec.flip_eigenvector. destruct (_ && _)%bool; [|done].
  apply (vget_flipped_column (vmap copp)
           (fun x y => cabs (dot_product u x) = cabs (dot_product u y))); [done|].
  intros x. apply cabs_dot_product_opp.
Qed.

Lemma force_constant_bond_flip a b coords :
  force_constant_bond a b eigenvals (Spec.flip_eigenvector eigenvecs p q k) coords
  = force_constant_bond a b eigenvals eigenvecs coords.
Proof.
  unfold force_constant_bond.
  destruct (vector_along_bond coords a b) as [u|]; [|done].
  cbn [mbind option_bind]. do 3 f_equal. apply map_ext. intros i.
  by rewrite cabs_dot_rc_flip.
Qed.

Lemma f_c_a_special_case_flip u_ab u_cb lens vals a b c d :
  f_c_a_special_case u_ab u_cb lens vals
    (Spec.flip_eigenvector eigenvecs p q k a b, Spec.flip_eigenvector eigenvecs p q k c d)
  = f_c_a_special_case u_ab u_cb lens vals (eigenvecs a b, eigenvecs c d).
Proof.
  unfold f_c_a_special_case, sample_thetas. rewrite !fill_array.
  f_equal. f_equal. apply map_ext. intros theta.
  unfold special_case_sample. cbn [fst snd]. by rewrite !projection_sum_flip.
Qed.

Lemma force_constant_angle_flip a b c lens coords sc :
  force_constant_angle a b c lens eigenvals (Spec.flip_eigenvector eigenvecs p q k) coords sc
  = force_constant_angle a b c lens eigenvals eigenvecs coords sc.
Proof.
  unfold force_constant_angle.
  destruct (vector_along_bond coords a b) as [u_ab|]; [|done].
  destruct (vector_along_bond coords c b) as [u_cb|]; [|done].
  cbn [mbind option_bind].
  destruct (truthy _).
  - by rewrite f_c_a_special_case_flip.
  - unfold regular_case. by rewrite !projection_sum_flip.
Qed.

(** C9: replacing any eigenvector of any block of the cache by its
    opposite changes no bond force constant and no angle force constant,
    neither the values returned by [force_constant_bond] and
    [force_constant_angle] nor the results of [calculate_bonds] and
    [calculate_angles]: an eigenvector enters only through the absolute
    value of a dot product. *)
Theorem force_constants_invariant_under_eigenvector_sign :
  (∀ a b coords,
      force_constant_bond a b eigenvals (Spec.flip_eigenvector eigenvecs p q k) coords
      = force_constant_bond a b eigenvals eigenvecs coords)
  ∧ (∀ a b c lens coords sc,
      force_constant_angle a b c lens eigenvals (Spec.flip_eigenvector eigenvecs p q k) coords sc
      = force_constant_angle a b c lens eigenvals eigenvecs coords sc)
  ∧ (∀ vib bond_list lens coords,
      calculate_bonds vib bond_list lens eigenvals (Spec.flip_eigenvector eigenvecs p q k) coords
      = calculate_bonds vib bond_list lens eigenvals eigenvecs coords)
  ∧ (∀ vib angle_list lens coords,
      calculate_angles vib angle_list lens eigenvals (Spec.flip_eigenvector eigenvecs p q k) coords
      = calculate_angles vib angle_list lens eigenvals eigenvecs coords).
Proof.
  split; [apply force_constant_bond_flip|].
  split; [apply force_constant_angle_flip|].
  split.
  - intros vib bond_list lens coords. unfold calculate_bonds.
    apply mapM_ext_eq. intros [b0 b1]. by rewrite !force_constant_bond_flip.
  - intros vib angle_list lens coords. unfold calculate_angles.
    destruct (scaling_store angle_list coords) as [store|]; simpl; [|done].
    apply mapM_ext_eq. intros [i [[a b] c]].
    destruct (scalings_of store i) as [sc|]; [|done].
    cbn [mbind option_bind]. unfold angle_result.
    by rewrite !force_constant_angle_flip.
Qed.
End SignFlip.

(** The same on binary64, on an example: the bond force constant computed
    with the second or the third eigenvector of the block negated is the
    same float, bit for bit. *)
Lemma sign_flip_example_binary64 :
  force_constant_bond 0 1 Examples.sample_eigenvals
    (Spec.flip_eigenvector Examples.sample_eigenvecs 0 1 1) Examples.slanted_bond
  = force_constant_bond 0 1 Examples.sample_eigenvals Examples.sample_eigenvecs
      Examples.slanted_bond
  ∧ force_constant_bond 0 1 Examples.sample_eigenvals
      (Spec.flip_eigenvector Examples.sample_eigenvecs 0 1 2) Examples.slanted_bond
    = force_constant_bond 0 1 Examples.sample_eigenvals Examples.sample_eigenvecs
        Examples.slanted_bond
  ∧ is_Some (force_constant_bond 0 1 Examples.sample_eigenvals Examples.sample_eigenvecs
               Examples.slanted_bond).
Proof. split; [by vm_compute|]. split; [by vm_compute|]. vm_compute. eauto. Qed.

(** ** Atoms without volume *)

Section ZeroVolume.
Local Open Scope R_scope.

Lemma Reqb_true (x y : R) : Reqb x y = true ↔ x = y.
Proof. unfold Reqb. destruct (Req_dec_T x y); split; congruence. Qed.

Lemma Reqb_false (x y : R) : Reqb x y = false ↔ x ≠ y.
Proof. unfold Reqb. destruct (Req_dec_T x y); split; congruence. Qed.

(** The coefficients appended by [append_ais_bis]. *)
Lemma ais_bis_fields (atom : aim_atom R) (lj : lj_atom R) :
  ais_bis atom = Some lj →
  aim lj = atom
  ∧ ∃ vfree bfree,
      b_i lj = bfree * (vol atom / vfree * (vol atom / vfree))
      ∧ a_i lj = 32 * b_i lj * ipow (r_aim lj) 6.
Proof.
  unfold ais_bis.
  destruct (elem_dict !! atom_type atom) as [[[vfree bfree] rfree]|]; simpl; [|done].
  intros [= <-]. simpl. split; [done|]. by exists vfree, bfree.
Qed.

(** On rows produced by [append_ais_bis] no division of
    [calculate_sig_eps] has a zero divisor. *)
Lemma sig_eps_total (atom : aim_atom R) (lj : lj_atom R) :
  ais_bis atom = Some lj → is_Some (sig_eps lj).
Proof.
  intros H. apply ais_bis_fields in H as (_ & vfree & bfree & _ & Ha).
  unfold sig_eps, py_div. simpl.
  destruct (Reqb (a_i lj) 0) eqn:Ea; [done|].
  apply Reqb_false in Ea.
  assert (b_i lj ≠ 0) as Hb.
  { intros Hb. apply Ea. rewrite Ha, Hb. simpl. ring. }
  apply Reqb_false in Hb. rewrite Hb. simpl.
  assert (4 * a_i lj ≠ 0) as H4 by lra.
  apply Reqb_false in H4. rewrite H4. done.
Qed.

Lemma sig_eps_zero_volume (atom : aim_atom R) (lj : lj_atom R) :
  ais_bis atom = Some lj → vol atom = 0 → sig_eps lj = Some (0, 0).
Proof.
  intros H Hvol. apply ais_bis_fields in H as (_ & vfree & bfree & Hb & Ha).
  unfold sig_eps. simpl.
  assert (a_i lj = 0) as ->.
  { rewrite Ha, Hb, Hvol. simpl. unfold Rdiv. ring. }
  assert (Reqb 0 0 = true) as -> by (by apply Reqb_true).
  done.
Qed.

(** C8: for a molecule whose elements are all tabulated, [append_ais_bis]
    followed by [calculate_sig_eps] completes, and every atom whose AIM
    volume is 0 receives exactly [(sigma, epsilon) = (0, 0)] (with its own
    charge). *)
Theorem zero_volume_gives_zero_sigma_epsilon
    (raw : list (aim_atom R)) (nbf0 : gmap nat (nb_entry R)) :
  Forall (fun atom => is_Some ((elem_dict : gmap string (R * R * R)) !! atom_type atom)) raw →
  ∃ ddec_data nbf,
    append_ais_bis raw = Some ddec_data
    ∧ calculate_sig_eps ddec_data nbf0 = Some nbf
    ∧ ∀ pos atom, raw !! pos = Some atom → vol atom = 0 →
        ∃ lj, ddec_data !! pos = Some lj
              ∧ sig_eps lj = Some (0, 0)
              ∧ nbf !! pos = Some (NbEntry (charge atom) 0 0).
Proof.
  intros Helems.
  assert (is_Some (append_ais_bis raw)) as [ddec_data Hddec].
  { apply mapM_is_Some. eapply Forall_impl; [exact Helems|].
    intros atom [[[vfree bfree] rfree] He]. unfold ais_bis. simpl. rewrite He. done. }
  exists ddec_data.
  pose proof Hddec as Hrows. apply mapM_Some in Hrows.
  assert (∃ nbf, calculate_sig_eps ddec_data nbf0 = Some nbf) as [nbf Hnbf].
  { unfold calculate_sig_eps.
    destruct (foldlM_is_Some
                (fun nbf '(pos, atom) =>
                   '(sigma, epsilon) ← sig_eps atom;
                   Some (<[pos := NbEntry (charge (aim atom)) sigma epsilon]> nbf))
                (fun _ => True) (enumerate ddec_data) nbf0) as (nbf & Hnbf & _); [|done|eauto].
    intros m [pos lj] Hin _.
    apply list_elem_of_lookup in Hin as [i Hi].
    unfold enumerate in Hi. apply lookup_zip_Some in Hi as [_ Hlj].
    destruct (Forall2_lookup_r _ _ _ _ _ Hrows Hlj) as (atom & _ & Hais).
    destruct (sig_eps_total _ _ Hais) as [[sigma epsilon] ->]. simpl. eauto. }
  exists nbf. split; [done|]. split; [done|].
  intros pos atom Hpos Hvol.
  destruct (Forall2_lookup_l _ _ _ _ _ Hrows Hpos) as (lj & Hlj & Hais).
  exists lj. split; [done|].
  pose proof (sig_eps_zero_volume _ _ Hais Hvol) as Hzero. split; [done|].
  apply calculate_sig_eps_spec in Hnbf as [_ Hin].
  destruct (Hin pos lj Hlj) as (sigma & epsilon & Hse & ->).
  rewrite Hzero in Hse. injection Hse as <- <-.
  apply ais_bis_fields in Hais as [-> _]. done.
Qed.
End ZeroVolume.

(** ** Scaling factors *)

Lemma run_len_le key0 l : (run_len key0 l ≤ length l)%nat.
Proof. induction l as [|e l IH]; simpl; [lia|]. destruct (_ =? _)%nat; lia. Qed.

Lemma run_len_inside key0 l i :
  (i < run_len key0 l)%nat → ∃ e, l !! i = Some e ∧ e_first e = key0.
Proof.
  revert i. induction l as [|e l IH]; intros i; simpl; [lia|].
  destruct (key0 =? e_first e)%nat eqn:E; [|lia].
  apply Nat.eqb_eq in E. destruct i as [|i]; simpl.
  - eauto.
  - intros Hi. apply IH. lia.
Qed.

Lemma run_len_stop key0 l e :
  l !! run_len key0 l = Some e → e_first e ≠ key0.
Proof.
  induction l as [|e' l IH]; simpl; [done|].
  destruct (key0 =? e_first e')%nat eqn:E; simpl.
  - done.
  - intros [= ->]. apply Nat.eqb_neq in E. congruence.
Qed.

Section Sorting.
Context {A : Type} (key : A → nat).

Lemma insert_by_key_elem x y l : y ∈ insert_by_key key x l ↔ y = x ∨ y ∈ l.
Proof.
  induction l as [|z l IH]; simpl.
  - rewrite list_elem_of_singleton, elem_of_nil. tauto.
  - destruct (key x <=? key z)%nat.
    + rewrite !elem_of_cons. tauto.
    + rewrite !elem_of_cons, IH. tauto.
Qed.

Lemma insert_by_key_sorted x l :
  StronglySorted (key_le key) l → StronglySorted (key_le key) (insert_by_key key x l).
Proof.
  induction 1 as [|z l Hl IH Hz]; simpl.
  - repeat constructor.
  - destruct (key x <=? key z)%nat eqn:E.
    + apply Nat.leb_le in E. constructor; [by constructor|].
      constructor; [done|]. eapply Forall_impl; [exact Hz|].
      unfold key_le. intros; simpl in *; lia.
    + apply Nat.leb_gt in E. constructor; [done|].
      apply Forall_forall. intros y Hy. apply insert_by_key_elem in Hy as [->|Hy].
      * unfold key_le. lia.
      * rewrite Forall_forall in Hz. by apply Hz.
Qed.

Lemma sorted_by_key_sorted l : StronglySorted (key_le key) (sorted_by_key key l).
Proof.
  induction l as [|x l IH]; simpl; [constructor|]. by apply insert_by_key_sorted.
Qed.

Lemma sorted_lookup_le l i k x y :
  StronglySorted (key_le key) l → (i ≤ k)%nat →
  l !! i = Some x → l !! k = Some y → (key x ≤ key y)%nat.
Proof.
  intros Hl. revert i k. induction Hl as [|z l Hl IH Hz]; intros i k Hik; [done|].
  destruct i as [|i], k as [|k]; simpl; try lia.
  - intros [= ->] [= ->]. lia.
  - intros [= ->] Hy. rewrite Forall_forall in Hz.
    apply (Hz y). by eapply list_elem_of_lookup_2.
  - apply IH. lia.
Qed.
End Sorting.

Section ScalingFactors.
Context {F : Type} {N : Num F}.

(** The first loop runs over the entries that follow position [j] as long
    as they have the flanking atom of entry [j]. *)
Lemma forward_loop_run (row : list entry) (upa : list (vec3 F)) j ej uj :
  row !! j = Some ej → upa !! j = Some uj → length upa = length row →
  ∀ fuel n extra around,
    (run_len (e_first ej) (drop (j + n) row) < fuel)%nat →
    forward_loop fuel row upa j n extra around =
    Some ((n + run_len (e_first ej) (drop (j + n) row))%nat,
          fold_left add
            (map (fun k => contribution uj (upa !!! k))
                 (seq (j + n) (run_len (e_first ej) (drop (j + n) row))))
            extra,
          (around + run_len (e_first ej) (drop (j + n) row))%nat).
Proof.
  intros Hj Huj Hlen. induction fuel as [|fuel IH]; intros n extra around Hfuel; [lia|].
  cbn [forward_loop]. destruct (j + n <? length row)%nat eqn:Hlt.
  - apply Nat.ltb_lt in Hlt.
    destruct (lookup_lt_is_Some_2 row (j + n)%nat Hlt) as [ejn Hejn].
    rewrite Hj, Hejn. cbn [mbind option_bind].
    rewrite (drop_S _ _ _ Hejn) in Hfuel. rewrite (drop_S _ _ _ Hejn).
    cbn [run_len] in Hfuel. cbn [run_len].
    destruct (e_first ej =? e_first ejn)%nat.
    + destruct (lookup_lt_is_Some_2 upa (j + n)%nat) as [ujn Hujn]; [lia|].
      rewrite Huj, Hujn. cbn [mbind option_bind].
      replace (S (j + n)) with (j + (n + 1))%nat in Hfuel by lia.
      replace (S (j + n)) with (j + (n + 1))%nat by lia.
      rewrite IH by lia.
      cbn [seq map fold_left]. rewrite (list_lookup_total_correct _ _ _ Hujn).
      replace (S (j + n)) with (j + (n + 1))%nat by lia.
      do 2 f_equal; [f_equal; lia | lia].
    + cbn [seq map fold_left]. do 2 f_equal; [f_equal; lia | lia].
  - apply Nat.ltb_ge in Hlt. rewrite drop_ge by lia.
    cbn [run_len seq map fold_left]. do 2 f_equal; [f_equal; lia | lia].
Qed.

(** The entries before position [j], nearest first. *)
Lemma lookup_before (row : list entry) j m :
  (1 ≤ m ≤ j)%nat → (j ≤ length row)%nat →
  reverse (take j row) !! (m - 1)%nat = row !! (j - m)%nat.
Proof.
  intros Hm Hj.
  rewrite reverse_lookup by (rewrite length_take; lia).
  rewrite length_take, lookup_take_lt by lia. f_equal. lia.
Qed.

(** The second loop runs over the entries that precede position [j],
    nearest first, as long as they have the flanking atom of entry [j]. *)
Lemma backward_loop_run (row : list entry) (upa : list (vec3 F)) j ej uj :
  row !! j = Some ej → upa !! j = Some uj → length upa = length row →
  ∀ fuel m extra around,
    (1 ≤ m)%nat →
    (run_len (e_first ej) (drop (m - 1) (reverse (take j row))) < fuel)%nat →
    backward_loop fuel row upa j m extra around =
    Some ((m + run_len (e_first ej) (drop (m - 1) (reverse (take j row))))%nat,
          fold_left add
            (map (fun i => contribution uj (upa !!! (j - i)%nat))
                 (seq m (run_len (e_first ej) (drop (m - 1) (reverse (take j row))))))
            extra,
          (around + run_len (e_first ej) (drop (m - 1) (reverse (take j row))))%nat).
Proof.
  intros Hj Huj Hlen. pose proof (lookup_lt_Some _ _ _ Hj) as Hjlt.
  induction fuel as [|fuel IH]; intros m extra around Hm Hfuel; [lia|].
  cbn [backward_loop]. destruct (m <=? j)%nat eqn:Hle.
  - apply Nat.leb_le in Hle.
    destruct (lookup_lt_is_Some_2 row (j - m)%nat) as [ejm Hejm]; [lia|].
    assert (reverse (take j row) !! (m - 1)%nat = Some ejm) as Hback
        by (rewrite lookup_before by lia; done).
    rewrite Hj, Hejm. cbn [mbind option_bind].
    rewrite (drop_S _ _ _ Hback) in Hfuel. rewrite (drop_S _ _ _ Hback).
    cbn [run_len] in Hfuel. cbn [run_len].
    replace (S (m - 1)) with (m + 1 - 1)%nat in Hfuel by lia.
    replace (S (m - 1)) with (m + 1 - 1)%nat by lia.
    destruct (e_first ej =? e_first ejm)%nat.
    + destruct (lookup_lt_is_Some_2 upa (j - m)%nat) as [ujm Hujm]; [lia|].
      rewrite Huj, Hujm. cbn [mbind option_bind].
      rewrite IH by lia.
      cbn [seq map fold_left]. rewrite (list_lookup_total_correct _ _ _ Hujm).
      replace (S m) with (m + 1)%nat by lia.
      do 2 f_equal; [f_equal; lia | lia].
    + cbn [seq map fold_left]. do 2 f_equal; [f_equal; lia | lia].
  - apply Nat.leb_gt in Hle.
    rewrite drop_ge by (rewrite length_reverse, length_take; lia).
    cbn [run_len seq map fold_left]. do 2 f_equal; [f_equal; lia | lia].
Qed.

Lemma one_plus_mean_nonempty (l : list F) :
  l ≠ [] →
  Spec.one_plus_mean l = of_Z 1 +. (py_sum l /. of_Z (Z.of_nat (length l))).
Proof. by destruct l. Qed.

Lemma fold_left_add_app (l k : list F) (x : F) :
  fold_left add k (fold_left add l x) = fold_left add (l ++ k) x.
Proof. by rewrite fold_left_app. Qed.

(** The value computed for entry [j]: one plus the mean of the
    contributions of the visited positions, and exactly one when no position
    is visited. *)
Lemma scaling_factor_visited (row : list entry) (upa : list (vec3 F)) j ej :
  row !! j = Some ej → length upa = length row →
  scaling_factor row upa j =
  Some (Spec.one_plus_mean
          (map (fun k => contribution (upa !!! j) (upa !!! k)) (visited row j)),
        e_count ej).
Proof.
  intros Hj Hlen. pose proof (lookup_lt_Some _ _ _ Hj) as Hjlt.
  destruct (lookup_lt_is_Some_2 upa j) as [uj Huj]; [lia|].
  unfold scaling_factor, visited. rewrite Hj. cbn [mbind option_bind].
  set (nf := run_len (e_first ej) (drop (j + 1) row)).
  set (nb := run_len (e_first ej) (reverse (take j row))).
  assert (nf ≤ length row)%nat as Hnf.
  { unfold nf. etransitivity; [apply run_len_le|]. rewrite length_drop. lia. }
  assert (nb ≤ length row)%nat as Hnb.
  { unfold nb. etransitivity; [apply run_len_le|].
    rewrite length_reverse, length_take. lia. }
  rewrite (forward_loop_run row upa j ej uj Hj Huj Hlen) by (fold nf; lia).
  fold nf. cbn [mbind option_bind].
  rewrite (backward_loop_run row upa j ej uj Hj Huj Hlen)
    by first [lia | (change (1 - 1)%nat with 0%nat; rewrite drop_0; fold nb; lia)].
  change (1 - 1)%nat with 0%nat. rewrite drop_0. fold nb. cbn [mbind option_bind].
  rewrite (list_lookup_total_correct _ _ _ Huj).
  rewrite fold_left_add_app.
  replace (map (fun k => contribution uj (upa !!! k)) (seq (j + 1) nf)
           ++ map (fun i => contribution uj (upa !!! (j - i)%nat)) (seq 1 nb))
    with (map (fun k => contribution uj (upa !!! k))
              (seq (j + 1) nf ++ ((fun i => (j - i)%nat) <$> seq 1 nb))).
  2:{ rewrite map_app. f_equal. by rewrite <- list_fmap_compose. }
  do 2 f_equal.
  destruct (decide (nf = 0%nat ∧ nb = 0%nat)) as [[-> ->]|Hne].
  - done.
  - assert (negb (1 + nf =? 1)%nat || negb (1 + nb =? 1)%nat = true) as ->.
    { destruct nf, nb; simpl; try done. lia. }
    rewrite one_plus_mean_nonempty.
    + unfold py_sum. do 3 f_equal.
      rewrite length_map, length_app, length_seq, length_fmap, length_seq. lia.
    + intros Hnil. apply (f_equal length) in Hnil.
      rewrite length_map, length_app, length_seq, length_fmap, length_seq in Hnil.
      simpl in Hnil. lia.
Qed.

(** In a row sorted by flanking atom the visited positions are exactly the
    positions of the other entries with the flanking atom of entry [j]. *)
Lemma visited_neighbours (row : list entry) j ej :
  StronglySorted (key_le e_first) row → row !! j = Some ej →
  visited row j ≡ₚ Spec.neighbours row j.
Proof.
  intros Hsorted Hj. pose proof (lookup_lt_Some _ _ _ Hj) as Hjlt.
  unfold visited, Spec.neighbours. rewrite Hj.
  set (nf := run_len (e_first ej) (drop (j + 1) row)).
  set (nb := run_len (e_first ej) (reverse (take j row))).
  assert (nb ≤ j)%nat as Hnb.
  { unfold nb. etransitivity; [apply run_len_le|].
    rewrite length_reverse, length_take. lia. }
  assert (j + nf < length row)%nat as Hnf.
  { assert (nf ≤ length (drop (j + 1) row))%nat as Hle by apply run_len_le.
    rewrite length_drop in Hle. lia. }
  assert (∀ k, (j < k ≤ j + nf)%nat → ∃ e, row !! k = Some e ∧ e_first e = e_first ej) as F1.
  { intros k Hk. destruct (run_len_inside (e_first ej) (drop (j + 1) row) (k - (j + 1))%nat)
      as (e & He & Hkey); [fold nf; lia|].
    rewrite lookup_drop in He. replace (j + 1 + (k - (j + 1)))%nat with k in He by lia. eauto. }
  assert (∀ e, row !! (j + nf + 1)%nat = Some e → e_first e ≠ e_first ej) as F2.
  { intros e He. apply (run_len_stop (e_first ej) (drop (j + 1) row)).
    fold nf. rewrite lookup_drop. rewrite <- He. f_equal. lia. }
  assert (∀ i, (1 ≤ i ≤ nb)%nat → ∃ e, row !! (j - i)%nat = Some e ∧ e_first e = e_first ej) as B1.
  { intros i Hi. destruct (run_len_inside (e_first ej) (reverse (take j row)) (i - 1)%nat)
      as (e & He & Hkey); [fold nb; lia|].
    rewrite lookup_before in He by lia. eauto. }
  assert (∀ e, (nb < j)%nat → row !! (j - (nb + 1))%nat = Some e → e_first e ≠ e_first ej) as B2.
  { intros e Hlt He. apply (run_len_stop (e_first ej) (reverse (take j row))).
    fold nb. replace nb with (nb + 1 - 1)%nat at 1 by lia.
    rewrite lookup_before by lia. done. }
  apply NoDup_Permutation.
  - apply NoDup_app. split; [apply NoDup_seq|]. split.
    + intros x Hx Hx'. apply elem_of_seq in Hx.
      apply list_elem_of_fmap in Hx' as (i & -> & Hi). lia.
    + apply NoDup_fmap_2_strong; [|apply NoDup_seq].
      intros x y Hx Hy. apply elem_of_seq in Hx, Hy. lia.
  - apply NoDup_filter, NoDup_seq.
  - intros x. rewrite elem_of_app, list_elem_of_filter, !elem_of_seq. simpl. split.
    + intros [Hx|Hx].
      * destruct (F1 x) as (e & He & Hkey); [lia|]. rewrite He. simpl.
        split; [split; [lia|congruence]|lia].
      * apply list_elem_of_fmap in Hx as (i & -> & Hi). apply elem_of_seq in Hi.
        destruct (B1 i) as (e & He & Hkey); [lia|]. rewrite He. simpl.
        split; [split; [lia|congruence]|lia].
    + intros [[Hne Hkey] Hx].
      destruct (row !! x) as [ex|] eqn:Hex; simpl in Hkey; [|done].
      injection Hkey as Hkey.
      destruct (decide (j < x)%nat) as [Hgt|Hle].
      * left. destruct (decide (x ≤ j + nf)%nat) as [|Hfar]; [lia|]. exfalso.
        destruct (lookup_lt_is_Some_2 row (j + nf + 1)%nat) as [e' He']; [lia|].
        apply (F2 e' He').
        pose proof (sorted_lookup_le e_first row j (j + nf + 1) ej e' Hsorted) as H1.
        pose proof (sorted_lookup_le e_first row (j + nf + 1) x e' ex Hsorted) as H2.
        specialize (H1 ltac:(lia) Hj He'). specialize (H2 ltac:(lia) He' Hex). lia.
      * right. apply list_elem_of_fmap.
        destruct (decide (j - nb ≤ x)%nat) as [Hnear|Hfar].
        -- exists (j - x)%nat. split; [lia|]. apply elem_of_seq. lia.
        -- exfalso.
           destruct (lookup_lt_is_Some_2 row (j - (nb + 1))%nat) as [e' He']; [lia|].
           apply (B2 e' ltac:(lia) He').
           pose proof (sorted_lookup_le e_first row x (j - (nb + 1)) ex e' Hsorted) as H1.
           pose proof (sorted_lookup_le e_first row (j - (nb + 1)) j e' ej Hsorted) as H2.
           specialize (H1 ltac:(lia) Hex He'). specialize (H2 ltac:(lia) He' Hj). lia.
Qed.
End ScalingFactors.

Lemma enumerate_lookup {A : Type} (l : list A) i k x :
  enumerate l !! i = Some (k, x) ↔ k = i ∧ l !! i = Some x.
Proof.
  unfold enumerate. rewrite lookup_zip_Some, lookup_seq. split.
  - intros [[-> _] Hx]. done.
  - intros [-> Hx]. split; [|done]. split; [done|]. by eapply lookup_lt_Some.
Qed.

Lemma length_enumerate {A : Type} (l : list A) : length (enumerate l) = length l.
Proof. unfold enumerate. rewrite length_zip, length_seq. lia. Qed.

Lemma central_atoms_angles_sorted n angle_list i row :
  central_atoms_angles n angle_list !! i = Some row →
  StronglySorted (key_le e_first) row.
Proof.
  unfold central_atoms_angles. intros H.
  apply list_lookup_fmap_Some in H as (row0 & -> & _).
  apply sorted_by_key_sorted.
Qed.

Lemma sorted_by_key_elem {A : Type} (key : A → nat) (l : list A) x :
  x ∈ sorted_by_key key l ↔ x ∈ l.
Proof.
  induction l as [|y l IH]; simpl; [done|].
  rewrite insert_by_key_elem, elem_of_cons, IH. done.
Qed.

(** Every angle whose central atom has coordinates contributes its two
    entries, one per flanking bond, to the row of its central atom. *)
Lemma angle_entries_in_row n (angle_list : list angle) i a b c :
  angle_list !! i = Some (a, b, c) → (atom_index b < n)%nat →
  ∃ row,
    central_atoms_angles n angle_list !! atom_index b = Some row
    ∧ Entry (atom_index a) (atom_index c) i ∈ row
    ∧ Entry (atom_index c) (atom_index a) i ∈ row.
Proof.
  intros Hi Hb. unfold central_atoms_angles, central_atoms_angles_unsorted.
  rewrite !list_lookup_fmap.
  assert (seq 0 n !! atom_index b = Some (atom_index b)) as ->
      by (apply lookup_seq; lia).
  simpl. eexists. split; [done|].
  rewrite !sorted_by_key_elem, !list_elem_of_In, !in_flat_map.
  split; exists (i, (a, b, c)).
  - split; [apply list_elem_of_In, list_elem_of_lookup; exists i; by apply enumerate_lookup|].
    rewrite Nat.eqb_refl. by left.
  - split; [apply list_elem_of_In, list_elem_of_lookup; exists i; by apply enumerate_lookup|].
    rewrite Nat.eqb_refl. right. by left.
Qed.

(** C4: in [calculate_angles], once the in-plane vectors of all entries are
    available, the scaling factors are all derived; every angle has, in the
    row of its central atom, one entry for each of its two flanking bonds;
    and for every entry [e] at position [j] of the row of a central atom
    [i] the derived factor is 1 plus the mean, over the neighbours
    (the other entries of the row, that is the other angles around the same
    central atom, that have the same flanking atom), of the squared
    (absolute) dot product of the in-plane vector of the entry with that of
    the neighbour; without neighbour it is exactly 1, and no division takes
    place.  The neighbours are taken in the order in which the two loops
    meet them. *)
Theorem scaling_factor_is_one_plus_mean_over_neighbours
    {F : Type} {N : Num F} (angle_list : list angle) (coords : list (vec3 F))
    (unit_pa : list (list (vec3 F))) :
  let cen := central_atoms_angles (length coords) angle_list in
  unit_pa_all_angles cen coords = Some unit_pa →
  ∃ factors,
    scaling_factor_all_angles cen unit_pa = Some factors
    ∧ (∀ i a b c,
         angle_list !! i = Some (a, b, c) → (atom_index b < length coords)%nat →
         ∃ row, cen !! atom_index b = Some row
                ∧ Entry (atom_index a) (atom_index c) i ∈ row
                ∧ Entry (atom_index c) (atom_index a) i ∈ row)
    ∧ ∀ i j row e,
        cen !! i = Some row → row !! j = Some e →
        ∃ upa nbrs,
          unit_pa !! i = Some upa
          ∧ (∀ k ek, row !! k = Some ek →
               upa !! k = u_pa_from_angles (e_first ek) i (e_second ek) coords)
          ∧ nbrs ≡ₚ Spec.neighbours row j
          ∧ (∀ u v : vec3 F, contribution u v = fabs (dot u v) *. fabs (dot u v))
          ∧ (factors !! i ≫= (.!! j)) =
            Some (Spec.one_plus_mean
                    (map (fun k => contribution (upa !!! j) (upa !!! k)) nbrs),
                  e_count e)
          ∧ (nbrs = [] → (factors !! i ≫= (.!! j)) = Some (of_Z 1, e_count e)).
Proof.
  intros cen Hupa. unfold unit_pa_all_angles in Hupa. apply mapM_Some in Hupa.
  assert (∀ i row, cen !! i = Some row →
            ∃ upa, unit_pa !! i = Some upa
                   ∧ mapM (fun e => u_pa_from_angles (e_first e) i (e_second e) coords) row
                     = Some upa) as Hrow.
  { intros i row Hi.
    destruct (Forall2_lookup_l _ _ _ i (i, row) Hupa) as (upa & Hu & Hm).
    - by apply enumerate_lookup.
    - eauto. }
  assert (∀ i row upa j e,
            cen !! i = Some row → unit_pa !! i = Some upa → row !! j = Some e →
            length upa = length row) as Hlen.
  { intros i row upa j e Hi Hu _. destruct (Hrow i row Hi) as (upa' & Hu' & Hm).
    rewrite Hu in Hu'. injection Hu' as <-. symmetry. by eapply length_mapM. }
  assert (is_Some (scaling_factor_all_angles cen unit_pa)) as [factors Hfactors].
  { unfold scaling_factor_all_angles. apply mapM_is_Some, Forall_forall.
    intros [i row] Hin. apply list_elem_of_lookup in Hin as [i' Hin].
    apply enumerate_lookup in Hin as [-> Hi]. simpl.
    destruct (Hrow i' row Hi) as (upa & Hu & Hm). rewrite Hu. simpl.
    apply mapM_is_Some, Forall_forall. intros j Hj. apply elem_of_seq in Hj.
    destruct (lookup_lt_is_Some_2 row j) as [e He]; [lia|]. simpl.
    rewrite (scaling_factor_visited row upa j e He); [done|].
    by eapply Hlen. }
  exists factors. split; [done|].
  split; [intros i a b c; apply angle_entries_in_row|].
  intros i j row e Hi Hj.
  destruct (Hrow i row Hi) as (upa & Hu & Hm).
  exists upa, (visited row j). split; [done|]. split.
  { intros k ek Hk. apply mapM_Some in Hm.
    destruct (Forall2_lookup_l _ _ _ _ _ Hm Hk) as (u & -> & Hu'). done. }
  split. { eapply visited_neighbours; [|done]. by eapply central_atoms_angles_sorted. }
  split. { done. }
  assert ((factors !! i ≫= (.!! j)) =
          Some (Spec.one_plus_mean
                  (map (fun k => contribution (upa !!! j) (upa !!! k)) (visited row j)),
                e_count e)) as Hfactor.
  { unfold scaling_factor_all_angles in Hfactors. apply mapM_Some in Hfactors.
    destruct (Forall2_lookup_l _ _ _ i (i, row) Hfactors) as (frow & Hf & Hm').
    { by apply enumerate_lookup. }
    simpl in Hm'. rewrite Hu in Hm'. simpl in Hm'. apply mapM_Some in Hm'.
    destruct (Forall2_lookup_l _ _ _ j j Hm') as (y & Hy & Hs).
    { apply lookup_seq. split; [done|]. by eapply lookup_lt_Some. }
    rewrite Hf. simpl. rewrite Hy, <- Hs.
    apply scaling_factor_visited; [done|]. by eapply Hlen. }
  split; [done|].
  intros Hnil. rewrite Hfactor, Hnil. done.
Qed.

(** ** The polar-hydrogen correction: what it computes *)

Lemma omap_ext_elem {A B : Type} (f g : A → option B) (l : list A) :
  (∀ x, x ∈ l → f x = g x) → omap f l = omap g l.
Proof.
  induction l as [|x l IH]; intros Hfg; [done|]. csimpl.
  rewrite (Hfg x) by left. rewrite IH; [done|].
  intros y Hy. apply Hfg. by right.
Qed.

Lemma omap_all_None {A B : Type} (f : A → option B) (l : list A) :
  (∀ x, x ∈ l → f x = None) → omap f l = [].
Proof.
  induction l as [|x l IH]; intros Hf; [done|]. csimpl.
  rewrite (Hf x) by left. apply IH. intros y Hy. apply Hf. by right.
Qed.

Section Redistribution.
Context {F : Type} {N : Num F}.

Lemma lookup_set_b_i (d : list (lj_atom F)) i x atom k :
  d !! i = Some atom →
  b_i <$> (<[i := set_b_i x atom]> d) !! k
  = if decide (k = i) then Some x else b_i <$> d !! k.
Proof.
  intros Hi. destruct (decide (k = i)) as [->|Hne].
  - rewrite list_lookup_insert_eq by (by eapply lookup_lt_Some). done.
  - rewrite list_lookup_insert_ne by done. done.
Qed.

(** One redistribution adds the value of the hydrogen to that of its
    partner and zeroes the hydrogen. *)
Lemma redistribute_at_b (d d' : list (lj_atom F)) h son :
  redistribute_at d (h, son) = Some d' → h ≠ son →
  ∃ b_h b_son,
    b_i <$> d !! h = Some b_h ∧ b_i <$> d !! son = Some b_son
    ∧ ∀ k, b_i <$> d' !! k =
           if decide (k = h) then Some (of_Z 0)
           else if decide (k = son) then Some (b_son +. b_h)
           else b_i <$> d !! k.
Proof.
  unfold redistribute_at. intros H Hne.
  destruct (d !! son) as [atom_son|] eqn:Hson; simpl in H; [|done].
  destruct (d !! h) as [atom_h|] eqn:Hh; simpl in H; [|done].
  destruct (<[_ := _]> d !! h) as [atom_h'|] eqn:Hh'; simpl in H; [|done].
  injection H as <-.
  exists (b_i atom_h), (b_i atom_son). split; [done|]. split; [done|].
  intros k. rewrite (lookup_set_b_i _ _ _ _ _ Hh').
  destruct (decide (k = h)); [done|].
  by rewrite (lookup_set_b_i _ _ _ _ _ Hson).
Qed.

(** The loop over the polar bonds [hs], when no hydrogen occurs twice and
    no partner is a hydrogen of the list: every hydrogen ends with zero,
    every other atom with its value plus, in the order of the list, those
    of its hydrogens. *)
Lemma redistribute_fold (hs : list (nat * nat)) :
  ∀ d d' : list (lj_atom F),
    foldlM redistribute_at hs d = Some d' →
    NoDup hs.*1 →
    (∀ h son, (h, son) ∈ hs → son ∉ hs.*1) →
    (∀ h, h ∈ hs.*1 → b_i <$> d' !! h = Some (of_Z 0))
    ∧ (∀ k, k ∉ hs.*1 →
         b_i <$> d' !! k =
         (fun x => fold_left add
                     (omap (fun '(h, son) =>
                              if (son =? k)%nat then b_i <$> d !! h else None) hs) x)
         <$> (b_i <$> d !! k)).
Proof.
  induction hs as [|[h0 s0] hs IH]; intros d d' Hfold Hnodup Hsons.
  - simpl in Hfold. injection Hfold as <-. split.
    + intros h Hh. by apply elem_of_nil in Hh.
    + intros k _. simpl. by destruct (d !! k).
  - cbn [foldlM] in Hfold.
    destruct (redistribute_at d (h0, s0)) as [d1|] eqn:Hstep; [|done].
    cbn [mbind option_bind] in Hfold.
    apply NoDup_cons in Hnodup as [Hh0 Hnodup].
    assert (h0 ≠ s0) as Hne.
    { intros ->. apply (Hsons s0 s0); [left|]. simpl. left. }
    apply redistribute_at_b in Hstep as (b_h & b_son & Hbh & Hbson & Hd1); [|done].
    destruct (IH d1 d' Hfold Hnodup) as [Hzero Hsum].
    { intros h son Hin Hin'. apply (Hsons h son); [by right|]. simpl. by right. }
    assert (∀ h son, (h, son) ∈ hs → h ≠ h0 ∧ h ≠ s0 ∧ son ≠ h0) as Hfresh.
    { intros h son Hin. split; [|split].
      - intros ->. apply Hh0. apply list_elem_of_fmap. by exists (h0, son).
      - intros ->. apply (Hsons h0 s0); [left|]. simpl. right.
        apply list_elem_of_fmap. by exists (s0, son).
      - intros ->. apply (Hsons h h0); [by right|]. simpl. left. }
    split.
    + intros h Hh. simpl in Hh. apply elem_of_cons in Hh as [->|Hh]; [|by apply Hzero].
      rewrite (Hsum h0 Hh0), Hd1. rewrite decide_True by done. simpl. f_equal.
      rewrite omap_all_None; [done|].
      intros [h son] Hin. destruct (Hfresh h son Hin) as (_ & _ & Hson).
      by apply Nat.eqb_neq in Hson as ->.
    + intros k Hk. simpl in Hk. apply not_elem_of_cons in Hk as [Hk0 Hk].
      rewrite (Hsum k Hk), Hd1. rewrite decide_False by done.
      rewrite (omap_ext_elem _
                 (fun '(h, son) => if (son =? k)%nat then b_i <$> d !! h else None)).
      2:{ intros [h son] Hin. destruct (Hfresh h son Hin) as (Hh0' & Hs0' & _).
          destruct (son =? k)%nat; [|done].
          rewrite Hd1. by rewrite !decide_False by done. }
      csimpl. destruct (decide (k = s0)) as [->|Hks].
      * rewrite Nat.eqb_refl, Hbh, Hbson. done.
      * apply not_eq_sym in Hks. apply Nat.eqb_neq in Hks as ->.
        by destruct (d !! k).
Qed.
End Redistribution.

Section PolarPairs.
Context {F : Type} {N : Num F}.

Lemma has_single_char (c : ascii) (e : pair_end) :
  String.length (snd e) = 1%nat → has (String c EmptyString) e = true →
  snd e = String c EmptyString.
Proof.
  destruct e as [l [|c' [|c'' e]]]; simpl; try done.
  intros _. destruct (Ascii.eqb c c') eqn:E; [|done].
  apply Ascii.eqb_eq in E as ->. done.
Qed.

Lemma int_of_all_but_last_Some (e : pair_end) l :
  int_of_all_but_last e = Some l → l = fst e ∧ String.length (snd e) = 1%nat.
Proof.
  unfold int_of_all_but_last. destruct (_ =? 1)%nat eqn:E; [|done].
  apply Nat.eqb_eq in E. by intros [= <-].
Qed.

Lemma atom_index_inj (l l' : positive) : atom_index l = atom_index l' → l = l'.
Proof. unfold atom_index. intros H. apply Pos2Nat.inj. lia. Qed.

Lemma elem_of_polars (pairs : list (pair_end * pair_end)) pair :
  pair ∈ polars pairs →
  pair ∈ pairs
  ∧ (((has "O" pair.1 || has "N" pair.1 || has "S" pair.1) && has "H" pair.2 = true)
     ∨ ((has "O" pair.2 || has "N" pair.2 || has "S" pair.2) && has "H" pair.1 = true)).
Proof.
  unfold polars. rewrite list_elem_of_In, in_flat_map.
  intros (pair' & Hin & Hpair). apply list_elem_of_In in Hin.
  apply in_app_or in Hpair as [Hpair|Hpair].
  - destruct (_ && _) eqn:E; [|done]. destruct Hpair as [<-|[]]. auto.
  - destruct (_ && _) eqn:E; [|done]. destruct Hpair as [<-|[]]. auto.
Qed.

(** The two atoms read for a polar pair: the end whose element is ["H"]
    and the other end, whose element is not. *)
Lemma polar_positions_elements (pairs : list (pair_end * pair_end)) pair h son :
  pair ∈ polars pairs → Spec.polar_positions pair = Some (h, son) →
  ∃ end_h end_son,
    ((end_h = pair.1 ∧ end_son = pair.2) ∨ (end_h = pair.2 ∧ end_son = pair.1))
    ∧ h = atom_index (fst end_h) ∧ son = atom_index (fst end_son)
    ∧ snd end_h = "H" ∧ snd end_son ≠ "H".
Proof.
  intros Hin Hpos. apply elem_of_polars in Hin as [_ Hcond].
  unfold Spec.polar_positions in Hpos.
  assert (∀ e : pair_end, String.length (snd e) = 1%nat →
            has "O" e || has "N" e || has "S" e = true → snd e ≠ "H") as Hheavy.
  { intros [l [|c [|c' e]]]; simpl; try done. intros _ Hc [= ->]. by vm_compute in Hc. }
  destruct (has "H" pair.1) eqn:H1.
  - destruct (int_of_all_but_last pair.1) as [lh|] eqn:Eh; simpl in Hpos; [|done].
    destruct (int_of_all_but_last pair.2) as [ls|] eqn:Es; simpl in Hpos; [|done].
    injection Hpos as <- <-.
    apply int_of_all_but_last_Some in Eh as [-> Lh], Es as [-> Ls].
    pose proof (has_single_char _ _ Lh H1) as Eh.
    exists pair.1, pair.2. split; [by left|]. split; [done|]. split; [done|]. split; [done|].
    apply Hheavy; [done|].
    destruct Hcond as [Hc|Hc]; apply andb_prop in Hc as [Hc1 Hc2].
    + exfalso. eapply (Hheavy pair.1); done.
    + done.
  - destruct (has "H" pair.2) eqn:H2; [|done].
    destruct (int_of_all_but_last pair.2) as [lh|] eqn:Eh; simpl in Hpos; [|done].
    destruct (int_of_all_but_last pair.1) as [ls|] eqn:Es; simpl in Hpos; [|done].
    injection Hpos as <- <-.
    apply int_of_all_but_last_Some in Eh as [-> Lh], Es as [-> Ls].
    pose proof (has_single_char _ _ Lh H2) as Eh.
    exists pair.2, pair.1. split; [by right|]. split; [done|]. split; [done|]. split; [done|].
    apply Hheavy; [done|].
    destruct Hcond as [Hc|Hc]; apply andb_prop in Hc as [Hc1 Hc2]; done.
Qed.

(** Each end of an entry of [new_pairs] carries the element that
    [positions] gives to its label. *)
Lemma new_pairs_elements (input : list (@input_atom F)) edges pairs pair :
  new_pairs input edges = Some pairs → pair ∈ pairs →
  positions input !! fst pair.1 = Some (snd pair.1)
  ∧ positions input !! fst pair.2 = Some (snd pair.2).
Proof.
  unfold new_pairs. intros Hpairs Hin. apply mapM_Some in Hpairs.
  apply list_elem_of_lookup in Hin as [i Hi].
  destruct (Forall2_lookup_r _ _ _ _ _ Hpairs Hi) as ([p0 p1] & _ & Hpair).
  destruct (positions input !! p0) as [e0|] eqn:E0; simpl in Hpair; [|done].
  destruct (positions input !! p1) as [e1|] eqn:E1; simpl in Hpair; [|done].
  injection Hpair as <-. done.
Qed.

(** In the list of polar bonds no partner atom is the hydrogen of a
    bond. *)
Lemma polar_bonds_partner_not_hydrogen (input : list (@input_atom F)) edges h son :
  (h, son) ∈ Spec.polar_bonds input edges → son ∉ (Spec.polar_bonds input edges).*1.
Proof.
  unfold Spec.polar_bonds.
  destruct (new_pairs input edges) as [pairs|] eqn:Hpairs; [|by intros ?%elem_of_nil].
  intros Hin Hson.
  apply list_elem_of_omap in Hin as (pair & Hpair & Hpos).
  apply list_elem_of_fmap in Hson as ([h' son'] & Hh' & Hin'). simpl in Hh'. subst h'.
  apply list_elem_of_omap in Hin' as (pair' & Hpair' & Hpos').
  destruct (polar_positions_elements _ _ _ _ Hpair Hpos)
    as (end_h & end_son & Hends & _ & Hs & _ & Hheavy).
  destruct (polar_positions_elements _ _ _ _ Hpair' Hpos')
    as (end_h' & end_son' & Hends' & Hh' & _ & Hhyd & _).
  rewrite Hs in Hh'. apply atom_index_inj in Hh'.
  apply elem_of_polars in Hpair as [Hpair _], Hpair' as [Hpair' _].
  destruct (new_pairs_elements _ _ _ _ Hpairs Hpair) as [E1 E2].
  destruct (new_pairs_elements _ _ _ _ Hpairs Hpair') as [E1' E2'].
  assert (positions input !! fst end_son = Some (snd end_son)) as Eson
      by (by destruct Hends as [[_ ->]|[_ ->]]).
  assert (positions input !! fst end_h' = Some (snd end_h')) as Eh
      by (by destruct Hends' as [[-> _]|[-> _]]).
  rewrite Hh', Eh in Eson. injection Eson as Eson. congruence.
Qed.

Lemma heavy_single_char (e : pair_end) :
  String.length (snd e) = 1%nat →
  has "O" e || has "N" e || has "S" e = true →
  snd e = "O" ∨ snd e = "N" ∨ snd e = "S".
Proof.
  intros Hlen Hc.
  destruct (has "O" e) eqn:HO; [left; by apply has_single_char|].
  destruct (has "N" e) eqn:HN; [right; left; by apply has_single_char|].
  destruct (has "S" e) eqn:HS; [right; right; by apply has_single_char|].
  done.
Qed.

Lemma new_pairs_edges (input : list (@input_atom F)) edges pairs pair :
  new_pairs input edges = Some pairs → pair ∈ pairs →
  (fst pair.1, fst pair.2) ∈ edges.
Proof.
  unfold new_pairs. intros Hpairs Hin. apply mapM_Some in Hpairs.
  apply list_elem_of_lookup in Hin as [i Hi].
  destruct (Forall2_lookup_r _ _ _ _ _ Hpairs Hi) as ([p0 p1] & Hedge & Hpair).
  destruct (positions input !! p0) as [e0|]; simpl in Hpair; [|done].
  destruct (positions input !! p1) as [e1|]; simpl in Hpair; [|done].
  injection Hpair as <-. by eapply list_elem_of_lookup_2.
Qed.

(** Every polar bond is a bond of the topology between an atom whose
    element is ["H"] and an atom whose element is ["O"], ["N"] or ["S"]. *)
Lemma polar_bonds_sound (input : list (@input_atom F)) edges h son :
  (h, son) ∈ Spec.polar_bonds input edges →
  ∃ label_h label_son,
    ((label_h, label_son) ∈ edges ∨ (label_son, label_h) ∈ edges)
    ∧ h = atom_index label_h ∧ son = atom_index label_son
    ∧ positions input !! label_h = Some "H"
    ∧ (positions input !! label_son = Some "O"
       ∨ positions input !! label_son = Some "N"
       ∨ positions input !! label_son = Some "S").
Proof.
  unfold Spec.polar_bonds.
  destruct (new_pairs input edges) as [pairs|] eqn:Hpairs; [|by intros ?%elem_of_nil].
  intros Hin. apply list_elem_of_omap in Hin as (pair & Hpair & Hpos).
  pose proof Hpair as Hpol. apply elem_of_polars in Hpol as [Hin Hcond].
  destruct (new_pairs_elements _ _ _ _ Hpairs Hin) as [E1 E2].
  pose proof (new_pairs_edges _ _ _ _ Hpairs Hin) as Hedge.
  destruct pair as [[l0 e0] [l1 e1]]. simpl in E1, E2, Hedge.
  unfold Spec.polar_positions in Hpos. cbn [fst snd] in Hpos, Hcond.
  destruct (has "H" (l0, e0)) eqn:H1.
  - destruct (int_of_all_but_last (l0, e0)) as [lh|] eqn:Eh; simpl in Hpos; [|done].
    destruct (int_of_all_but_last (l1, e1)) as [ls|] eqn:Es; simpl in Hpos; [|done].
    injection Hpos as <- <-.
    apply int_of_all_but_last_Some in Eh as [-> Lh], Es as [-> Ls].
    pose proof (has_single_char _ _ Lh H1) as EH. simpl in EH. subst e0.
    exists l0, l1. split; [by left|]. split; [done|]. split; [done|]. split; [done|].
    rewrite E2.
    destruct Hcond as [Hc|Hc]; apply andb_prop in Hc as [Hc1 Hc2].
    + by vm_compute in Hc1.
    + destruct (heavy_single_char _ Ls Hc1) as [Hs|[Hs|Hs]]; simpl in Hs; subst e1; auto.
  - destruct (has "H" (l1, e1)) eqn:H2; [|done].
    destruct (int_of_all_but_last (l1, e1)) as [lh|] eqn:Eh; simpl in Hpos; [|done].
    destruct (int_of_all_but_last (l0, e0)) as [ls|] eqn:Es; simpl in Hpos; [|done].
    injection Hpos as <- <-.
    apply int_of_all_but_last_Some in Eh as [-> Lh], Es as [-> Ls].
    pose proof (has_single_char _ _ Lh H2) as EH. simpl in EH. subst e1.
    exists l1, l0. split; [by right|]. split; [done|]. split; [done|]. split; [done|].
    rewrite E1.
    destruct Hcond as [Hc|Hc]; apply andb_prop in Hc as [Hc1 Hc2]; [|done].
    destruct (heavy_single_char _ Ls Hc1) as [Hs|[Hs|Hs]]; simpl in Hs; subst e0; auto.
Qed.

(** Conversely every bond of the topology between an ["H"] and an ["O"],
    ["N"] or ["S"] is a polar bond, whichever end comes first. *)
Lemma polar_bonds_complete (input : list (@input_atom F)) edges label_h label_son e :
  is_Some (new_pairs input edges) →
  (label_h, label_son) ∈ edges ∨ (label_son, label_h) ∈ edges →
  positions input !! label_h = Some "H" →
  positions input !! label_son = Some e → e = "O" ∨ e = "N" ∨ e = "S" →
  (atom_index label_h, atom_index label_son) ∈ Spec.polar_bonds input edges.
Proof.
  intros [pairs Hpairs] Hedge Hh Hson He. unfold Spec.polar_bonds. rewrite Hpairs.
  apply list_elem_of_omap.
  assert (∀ p0 p1 e0 e1, (p0, p1) ∈ edges →
            positions input !! p0 = Some e0 → positions input !! p1 = Some e1 →
            ((p0, e0), (p1, e1)) ∈ pairs) as Hmk.
  { intros p0 p1 e0 e1 Hin E0 E1. unfold new_pairs in Hpairs. apply mapM_Some in Hpairs.
    apply list_elem_of_lookup in Hin as [i Hi].
    destruct (Forall2_lookup_l _ _ _ _ _ Hpairs Hi) as (pair & Hp & Hpair).
    simpl in Hpair. rewrite E0, E1 in Hpair. simpl in Hpair. injection Hpair as <-.
    by eapply list_elem_of_lookup_2. }
  assert (∀ pair, pair ∈ pairs →
            ((has "O" pair.1 || has "N" pair.1 || has "S" pair.1) && has "H" pair.2 = true
             ∨ (has "O" pair.2 || has "N" pair.2 || has "S" pair.2) && has "H" pair.1 = true) →
            pair ∈ polars pairs) as Hpol.
  { intros pair Hin Hc. unfold polars. apply list_elem_of_In, in_flat_map.
    exists pair. split; [by apply list_elem_of_In|]. apply in_or_app.
    destruct Hc as [->| ->]; [left|right]; by left. }
  destruct Hedge as [Hedge|Hedge].
  - exists ((label_h, "H"), (label_son, e)). split.
    + apply Hpol; [by apply Hmk|]. right. by destruct He as [->|[->| ->]].
    + by destruct He as [->|[->| ->]].
  - exists ((label_son, e), (label_h, "H")). split.
    + apply Hpol; [by apply Hmk|]. left. by destruct He as [->|[->| ->]].
    + by destruct He as [->|[->| ->]].
Qed.

Lemma redistribute_polar (d d1 : list (lj_atom F)) pair :
  has "H" pair.1 || has "H" pair.2 = true →
  redistribute d pair = Some d1 →
  ∃ hs, Spec.polar_positions pair = Some hs ∧ redistribute_at d hs = Some d1.
Proof.
  unfold redistribute, Spec.polar_positions, redistribute_at. intros HH. rewrite HH.
  destruct (has "H" pair.1) eqn:H1.
  - destruct (int_of_all_but_last pair.1) as [lh|]; simpl; [|done].
    destruct (int_of_all_but_last pair.2) as [ls|]; simpl; [|done].
    intros H. eexists. split; [done|]. exact H.
  - destruct (has "H" pair.2) eqn:H2.
    + destruct (int_of_all_but_last pair.2) as [lh|]; simpl; [|done].
      destruct (int_of_all_but_last pair.1) as [ls|]; simpl; [|done].
      intros H. eexists. split; [done|]. exact H.
    + done.
Qed.

(** The loop over [polars] is the loop of redistributions over the polar
    bonds. *)
Lemma foldlM_redistribute (pol : list (pair_end * pair_end)) :
  ∀ d d' : list (lj_atom F),
    (∀ pair, pair ∈ pol → has "H" pair.1 || has "H" pair.2 = true) →
    foldlM redistribute pol d = Some d' →
    foldlM redistribute_at (omap Spec.polar_positions pol) d = Some d'.
Proof.
  induction pol as [|pair pol IH]; intros d d' HH Hfold; [done|].
  cbn [foldlM] in Hfold.
  destruct (redistribute d pair) as [d1|] eqn:Hstep; [|done].
  cbn [mbind option_bind] in Hfold.
  apply redistribute_polar in Hstep as (hs & Hpos & Hat); [|apply HH; left].
  csimpl. rewrite Hpos. cbn [foldlM]. rewrite Hat. cbn [mbind option_bind].
  apply IH; [|done]. intros pair' Hin. apply HH. by right.
Qed.
End PolarPairs.

Section PolarCorrection.
Context {F : Type} {N : Num F}.

Lemma correct_b_a_rows polar_pairs (d d' : list (lj_atom F)) :
  correct_b_a polar_pairs d = Some d' →
  ∃ d2,
    foldlM redistribute polar_pairs (map (fun atom => set_b_i (fsqrt (b_i atom)) atom) d)
    = Some d2
    ∧ (∀ k, b_i <$> d' !! k = (fun b => b *. b) <$> (b_i <$> d2 !! k))
    ∧ (∀ k atom', d' !! k = Some atom' →
         a_i atom' = of_Z 32 *. b_i atom' *. ipow (r_aim atom') 6).
Proof.
  unfold correct_b_a.
  destruct (foldlM _ _ _) as [d2|] eqn:Hfold; simpl; [|done].
  intros [= <-]. exists d2. split; [done|]. split.
  - intros k. rewrite !list_lookup_fmap. by destruct (d2 !! k).
  - intros k atom'. rewrite !list_lookup_fmap.
    destruct (d2 !! k) as [a2|]; simpl; [|done]. by intros [= <-].
Qed.

(** C6 (amended): after the polar-hydrogen correction, when no hydrogen
    takes part in two polar bonds, for every bonded pair of a hydrogen with
    an O, N or S atom the hydrogen's [b_i] is exactly 0 and the partner's
    [b_i] is the square of the sum of its own pre-correction square root and
    the pre-correction square roots of all the polar hydrogens bonded to it
    (with a single polar hydrogen: the square of the sum of the two roots);
    for every atom [a_i] is recomputed as [32 * b_i * r_aim ** 6] from the
    new [b_i], epsilon is recomputed from the new [a_i] and [b_i] (and is 0
    when the new [a_i] is 0), and sigma is unchanged when the new [a_i] is
    not 0 and set to 0 when it is, as for the polar hydrogens. *)
Theorem polar_hydrogen_correction
    (input : list input_atom) (edges : list bond)
    (ddec_data ddec_data' : list (lj_atom F)) (nbf nbf' : gmap nat (nb_entry F)) :
  of_Z 0 *. of_Z 0 = of_Z 0 →
  correct_polar_hydrogens input edges ddec_data nbf = Some (ddec_data', nbf') →
  NoDup (Spec.polar_bonds input edges).*1 →
  (∀ h son, (h, son) ∈ Spec.polar_bonds input edges →
     b_i <$> ddec_data' !! h = Some (of_Z 0)
     ∧ b_i <$> ddec_data' !! son =
       (fun atom =>
          let root :=
            fold_left add
              (Spec.hydrogen_roots ddec_data (Spec.polar_bonds input edges) son)
              (fsqrt (b_i atom)) in
          root *. root) <$> ddec_data !! son)
  ∧ (∀ pos atom', ddec_data' !! pos = Some atom' →
       ∃ atom old,
         ddec_data !! pos = Some atom ∧ nbf !! pos = Some old
         ∧ aim atom' = aim atom ∧ r_aim atom' = r_aim atom
         ∧ a_i atom' = of_Z 32 *. b_i atom' *. ipow (r_aim atom') 6
         ∧ nbf' !! pos =
           Some (NbEntry (charge (aim atom))
                   (if feqb (a_i atom') (of_Z 0) then of_Z 0 else nb_sigma old)
                   (if feqb (a_i atom') (of_Z 0) then of_Z 0
                    else ipow (b_i atom') 2 /. (of_Z 4 *. a_i atom') *. epsilon_conversion))).
Proof.
  intros Hzero Hcorr Hnodup. unfold correct_polar_hydrogens in Hcorr.
  unfold Spec.polar_bonds in Hnodup. unfold Spec.polar_bonds.
  destruct (new_pairs input edges) as [pairs|] eqn:Hpairs; [|done].
  cbn [mbind option_bind] in Hcorr.
  destruct (correct_b_a (polars pairs) ddec_data) as [d1|] eqn:Hba; [|done].
  cbn [mbind option_bind] in Hcorr.
  destruct (foldlM update_epsilon (enumerate d1) nbf) as [nbf1|] eqn:Hfold; [|done].
  cbn [mbind option_bind] in Hcorr. injection Hcorr as <- <-.
  pose proof (correct_b_a_frame _ _ _ Hba) as [Haim Hraim].
  apply correct_b_a_rows in Hba as (d2 & Hred & Hb & Ha).
  apply foldlM_redistribute in Hred.
  2:{ intros pair Hin. apply elem_of_polars in Hin as [_ [Hc|Hc]];
        apply andb_prop in Hc as [_ ->]; by rewrite ?orb_true_r. }
  apply redistribute_fold in Hred as [Hzeros Hsums]; [|done|].
  2:{ intros h son Hin.
      pose proof (polar_bonds_partner_not_hydrogen input edges h son) as Hp.
      unfold Spec.polar_bonds in Hp. rewrite Hpairs in Hp. by apply Hp. }
  split.
  - intros h son Hin. split.
    + rewrite Hb, Hzeros; [simpl; by rewrite Hzero|].
      apply list_elem_of_fmap. by exists (h, son).
    + rewrite Hb, Hsums.
      2:{ pose proof (polar_bonds_partner_not_hydrogen input edges h son) as Hp.
          unfold Spec.polar_bonds in Hp. rewrite Hpairs in Hp. by apply Hp. }
      rewrite list_lookup_fmap.
      destruct (ddec_data !! son) as [atom|]; simpl; [|done].
      do 2 f_equal;
        (f_equal; unfold Spec.hydrogen_roots; apply omap_ext_elem;
         intros [h' son'] _; destruct (son' =? son)%nat; [|done];
         rewrite list_lookup_fmap; by destruct (ddec_data !! h')).
  - intros pos atom' Hpos.
    assert (aim <$> ddec_data !! pos = Some (aim atom')
            ∧ r_aim <$> ddec_data !! pos = Some (r_aim atom')) as [Ea Er].
    { rewrite <- !list_lookup_fmap. change (fmap aim ddec_data) with (map aim ddec_data).
      change (fmap r_aim ddec_data) with (map r_aim ddec_data).
      rewrite <- Haim, <- Hraim. by rewrite !list_lookup_fmap, Hpos. }
    destruct (ddec_data !! pos) as [atom|] eqn:Hatom; [|done].
    injection Ea as Ea. injection Er as Er.
    apply (foldlM_enumerate _
             (fun pos atom' old new =>
                ∃ o, old = Some o
                  ∧ new = Some (NbEntry (charge (aim atom'))
                            (if feqb (a_i atom') (of_Z 0) then of_Z 0 else nb_sigma o)
                            (if feqb (a_i atom') (of_Z 0) then of_Z 0
                             else ipow (b_i atom') 2 /. (of_Z 4 *. a_i atom')
                                  *. epsilon_conversion)))) in Hfold.
    2:{ intros m p a m' Hstep. by apply update_epsilon_spec in Hstep. }
    destruct Hfold as [_ Hin]. destruct (Hin pos atom' Hpos) as (old & Hold & Hnew).
    exists atom, old. rewrite Hnew, <- Ea. eauto 10 using Ha.
Qed.
End PolarCorrection.

(** Two binary64 numbers that the comparison tells apart are different. *)
Lemma float_neq (x y : PrimFloat.float) :
  PrimFloat.eqb x x = true → PrimFloat.eqb x y = false → x ≠ y.
Proof. intros Hxx Hxy ->. congruence. Qed.

(** C6, as stated, fails on the water-like molecule, for the polar bond of
    the first hydrogen (position 1) with the oxygen (position 0): the
    oxygen ends with [b_i = (4 + 3 + 2) ** 2 = 81], the roots of both its
    hydrogens being added, and not with [(4 + 3) ** 2 = 49]; and the sigma
    of the hydrogen, 2 before the correction, is 0 after it. *)
Lemma water_refutes_polar_claim :
  correct_polar_hydrogens Examples.water_input Examples.water_edges
    Examples.water_ddec Examples.water_table
  = Some (Examples.water_ddec_after, Examples.water_table_after)
  ∧ (1%nat, 0%nat) ∈ Spec.polar_bonds Examples.water_input Examples.water_edges
  ∧ b_i <$> Examples.water_ddec_after !! 0%nat = Some (of_Z 81)
  ∧ nb_sigma <$> Examples.water_table !! 1%nat = Some (of_Z 2)
  ∧ nb_sigma <$> Examples.water_table_after !! 1%nat = Some (of_Z 0)
  ∧ ¬ Spec.polar_claim_as_stated Examples.water_ddec Examples.water_ddec_after
        Examples.water_table Examples.water_table_after 1 0.
Proof.
  split; [by vm_compute|].
  split; [vm_compute; left|].
  split; [by vm_compute|]. split; [by vm_compute|]. split; [by vm_compute|].
  intros (_ & _ & Hsigma). specialize (Hsigma 1%nat).
  vm_compute in Hsigma. apply (inj Some) in Hsigma.
  by apply float_neq in Hsigma.
Qed.

Lemma polar_hydrogen_correction_witness :
  (of_Z 0 *. of_Z 0 = (of_Z 0 : PrimFloat.float))
  ∧ correct_polar_hydrogens Examples.water_input Examples.water_edges
      Examples.water_ddec Examples.water_table
    = Some (Examples.water_ddec_after, Examples.water_table_after)
  ∧ NoDup (Spec.polar_bonds Examples.water_input Examples.water_edges).*1
  ∧ (1%nat, 0%nat) ∈ Spec.polar_bonds Examples.water_input Examples.water_edges
  ∧ b_i <$> Examples.water_ddec_after !! 1%nat = Some (of_Z 0)
  ∧ b_i <$> Examples.water_ddec_after !! 0%nat =
    (fun atom =>
       let root :=
         fold_left add
           (Spec.hydrogen_roots Examples.water_ddec
              (Spec.polar_bonds Examples.water_input Examples.water_edges) 0)
           (fsqrt (b_i atom)) in
       root *. root) <$> Examples.water_ddec !! 0%nat.
Proof.
  assert (of_Z 0 *. of_Z 0 = (of_Z 0 : PrimFloat.float)) as Hzero by (by vm_compute).
  assert (correct_polar_hydrogens Examples.water_input Examples.water_edges
            Examples.water_ddec Examples.water_table
          = Some (Examples.water_ddec_after, Examples.water_table_after)) as Hcorr
    by (by vm_compute).
  assert (NoDup (Spec.polar_bonds Examples.water_input Examples.water_edges).*1) as Hnodup.
  { apply (bool_decide_unpack _). by vm_compute. }
  assert ((1%nat, 0%nat) ∈ Spec.polar_bonds Examples.water_input Examples.water_edges) as Hin.
  { vm_compute. left. }
  split; [exact Hzero|]. split; [exact Hcorr|]. split; [exact Hnodup|]. split; [exact Hin|].
  exact (proj1 (polar_hydrogen_correction _ _ _ _ _ _ Hzero Hcorr Hnodup) 1%nat 0%nat Hin).
Defined.

(** ** Instances of the statements above *)

(** Evaluation of the option-valued pipeline in exact arithmetic: the
    comparisons between closed real expressions are decided by [lra]. *)
Ltac decide_Reqb :=
  match goal with
  | |- context [Reqb ?a ?b] =>
      first [ rewrite (proj2 (Reqb_true a b)) by (rewrite ?sqrt_1, ?sqrt_0; lra)
            | rewrite (proj2 (Reqb_false a b)) by (rewrite ?sqrt_1, ?sqrt_0; lra) ]
  end.

Ltac run_R :=
  repeat first
    [ progress cbn -[Rplus Rmult Rdiv Rminus Ropp sqrt IZR Rpow Reqb Rabs
                     gmap_lookup map_insert gmap_partial_alter]
    | progress change (atom_index 1) with 0%nat
    | progress change (atom_index 2) with 1%nat
    | rewrite lookup_insert_eq
    | rewrite lookup_insert_ne by done
    | decide_Reqb ].

Lemma calculate_bonds_reports_scaled_mean_witness :
  im (Cx 1 0)%R = 0%R ∧ im (Cx 3 0)%R = 0%R
  ∧ c_of_real (2 * 2 * re (Spec.cmean (Cx 1 0) (Cx 3 0)))%R
    = cmul (c_of_real (2 * 2)%R) (Spec.cmean (Cx 1 0) (Cx 3 0))%R.
Proof.
  split; [reflexivity|]. split; [reflexivity|].
  apply (proj2 (calculate_bonds_reports_scaled_mean 2 [] (fun _ _ => 1%R)
                  (fun _ _ => V3 (Cx 1 0) (Cx 1 0) (Cx 1 0))%R
                  (fun _ _ => V3 (V3 (Cx 1 0) (Cx 0 0) (Cx 0 0))
                                 (V3 (Cx 0 0) (Cx 1 0) (Cx 0 0))
                                 (V3 (Cx 0 0) (Cx 0 0) (Cx 1 0)))%R
                  [])); reflexivity.
Defined.

Lemma polar_correction_keeps_charges_witness :
  ∃ nbf ddec_data' nbf',
    calculate_sig_eps Examples.oh_ddec ∅ = Some nbf
    ∧ correct_polar_hydrogens Examples.oh_input Examples.oh_edges Examples.oh_ddec nbf
      = Some (ddec_data', nbf')
    ∧ nb_charge <$> nbf' !! 1%nat = nb_charge <$> nbf !! 1%nat.
Proof.
  eassert (calculate_sig_eps Examples.oh_ddec ∅ = Some _) as Hsig.
  { unfold calculate_sig_eps, enumerate, Examples.oh_ddec, sig_eps, py_div.
    run_R. reflexivity. }
  match type of Hsig with
  | _ = Some ?nbf =>
      eassert (correct_polar_hydrogens Examples.oh_input Examples.oh_edges
                 Examples.oh_ddec nbf = Some (_, _)) as Hcorr
  end.
  { unfold correct_polar_hydrogens.
    assert (new_pairs Examples.oh_input Examples.oh_edges
            = Some [((1%positive, "O"), (2%positive, "H"))]) as -> by (by vm_compute).
    cbn [mbind option_bind].
    assert (polars [((1%positive, "O"), (2%positive, "H"))]
            = [((1%positive, "O"), (2%positive, "H"))]) as -> by (by vm_compute).
    unfold correct_b_a, Examples.oh_ddec, redistribute, update_epsilon, enumerate, py_div.
    run_R. reflexivity. }
  eexists _, _, _. split; [exact Hsig|]. split; [exact Hcorr|].
  exact (polar_correction_keeps_charges _ _ _ _ _ _ _ 1%nat Hsig Hcorr).
Defined.

Lemma zero_volume_gives_zero_sigma_epsilon_witness :
  Forall (fun atom => is_Some ((elem_dict : gmap string (R * R * R)) !! atom_type atom))
         Examples.oh_raw
  ∧ ∃ ddec_data nbf,
      append_ais_bis Examples.oh_raw = Some ddec_data
      ∧ calculate_sig_eps ddec_data ∅ = Some nbf
      ∧ nbf !! 0%nat = Some (NbEntry 1%R 0%R 0%R).
Proof.
  assert (Forall (fun atom => is_Some ((elem_dict : gmap string (R * R * R)) !! atom_type atom))
                 Examples.oh_raw) as Helems.
  { repeat constructor; by eexists. }
  split; [exact Helems|].
  destruct (zero_volume_gives_zero_sigma_epsilon Examples.oh_raw ∅ Helems)
    as (ddec_data & nbf & Happ & Hsig & Hzero).
  exists ddec_data, nbf. split; [exact Happ|]. split; [exact Hsig|].
  destruct (Hzero 0%nat (AimAtom "H" 1%R 0%R) eq_refl eq_refl) as (lj & _ & _ & Hnbf).
  exact Hnbf.
Defined.

Lemma scaling_factor_is_one_plus_mean_over_neighbours_witness :
  unit_pa_all_angles
    (central_atoms_angles (length Examples.tripod) Examples.tripod_angles) Examples.tripod
  = Some Examples.tripod_unit_pa
  ∧ ∃ factors,
      scaling_factor_all_angles
        (central_atoms_angles (length Examples.tripod) Examples.tripod_angles)
        Examples.tripod_unit_pa
      = Some factors.
Proof.
  assert (unit_pa_all_angles
            (central_atoms_angles (length Examples.tripod) Examples.tripod_angles)
            Examples.tripod
          = Some Examples.tripod_unit_pa) as Hupa by (by vm_compute).
  split; [exact Hupa|].
  destruct (scaling_factor_is_one_plus_mean_over_neighbours
              Examples.tripod_angles Examples.tripod Examples.tripod_unit_pa Hupa)
    as (factors & Hfactors & _).
  exists factors. exact Hfactors.
Defined.

(** ** Real eigen-data give real bond force constants

    The eigendecomposition of a real 3x3 block returns real eigenpairs or a
    pair of conjugate eigenvalues with conjugate eigenvectors.  In both
    cases the sum computed by [force_constant_bond] has no imaginary part,
    so that taking the real part of the mean of the two orderings loses
    nothing. *)

Section RealEigenData.
Local Open Scope R_scope.

Lemma cabs_dot_rc_conjugate (u : vec3 R) (v : vec3 (complex R)) :
  cabs (dot_rc u (vmap conjugate v)) = cabs (dot_rc u v).
Proof.
  unfold cabs, dot_rc, cadd, cmul, c_of_real, vmap, conjugate. simpl.
  f_equal. ring.
Qed.

Lemma bond_force_constant_real_eigenvalues (u : vec3 R) (vals : vec3 (complex R)) vecs :
  im (vx vals) = 0 → im (vy vals) = 0 → im (vz vals) = 0 →
  im (Spec.bond_force_constant u vals vecs) = 0.
Proof.
  intros H0 H1 H2. unfold Spec.bond_force_constant, cmul, cadd, c_of_real, lit. simpl.
  rewrite H0, H1, H2. field.
Qed.

Lemma bond_force_constant_conjugate_pair (u : vec3 R) (l m : complex R)
    (v w : vec3 (complex R)) :
  im m = 0 →
  im (Spec.bond_force_constant u (V3 l (conjugate l) m) (V3 v (vmap conjugate v) w)) = 0.
Proof.
  intros Hm. unfold Spec.bond_force_constant. cbn [vget vx vy vz].
  rewrite cabs_dot_rc_conjugate.
  unfold cmul, cadd, c_of_real, conjugate, lit. simpl. rewrite Hm. field.
Qed.
End RealEigenData.

(** ** Scaling factors in exact arithmetic

    In exact arithmetic the order of the neighbours is immaterial and
    [abs(d) ** 2] is [d ** 2]: the factor is 1 plus the mean of the squared
    dot products over the neighbours. *)

Section ScalingFactorsR.
Local Open Scope R_scope.

Lemma fold_left_Rplus_perm (l k : list R) :
  l ≡ₚ k → ∀ x, fold_left Rplus l x = fold_left Rplus k x.
Proof.
  induction 1 as [|y l k _ IH|y z l|l k m _ IH1 _ IH2]; intros x; simpl.
  - done.
  - apply IH.
  - f_equal. ring.
  - by rewrite IH1.
Qed.

Lemma one_plus_mean_perm (l k : list R) :
  l ≡ₚ k → Spec.one_plus_mean l = Spec.one_plus_mean k.
Proof.
  intros Hperm. destruct l as [|x l].
  - by apply Permutation_nil_l in Hperm as ->.
  - destruct k as [|y k]; [by apply Permutation_nil_r in Hperm|].
    unfold Spec.one_plus_mean, py_sum.
    rewrite (fold_left_Rplus_perm _ _ Hperm), (Permutation_length Hperm). done.
Qed.

Lemma contribution_is_squared_dot (u v : vec3 R) :
  contribution u v = dot u v * dot u v.
Proof.
  unfold contribution. simpl.
  rewrite <- Rabs_mult. apply Rabs_pos_eq, Rle_0_sqr.
Qed.

Lemma one_plus_mean_over_neighbours_R (row : list entry) (upa : list (vec3 R)) j nbrs :
  nbrs ≡ₚ Spec.neighbours row j →
  Spec.one_plus_mean (map (fun k => contribution (upa !!! j) (upa !!! k)) nbrs)
  = Spec.one_plus_mean
      (map (fun k => dot (upa !!! j) (upa !!! k) * dot (upa !!! j) (upa !!! k))
           (Spec.neighbours row j)).
Proof.
  intros Hperm.
  rewrite (one_plus_mean_perm _
             (map (fun k => contribution (upa !!! j) (upa !!! k)) (Spec.neighbours row j))).
  - f_equal. apply map_ext. intros k. apply contribution_is_squared_dot.
  - by apply Permutation_map.
Qed.
End ScalingFactorsR.

(** * Further properties of the code *)

(** ** Unit vectors of [ModSemMaths] *)

Section GeometryR.
Local Open Scope R_scope.

Lemma vec3_eq_R (u v : vec3 R) : vx u = vx v → vy u = vy v → vz u = vz v → u = v.
Proof. destruct u, v; simpl; congruence. Qed.

Lemma dot_self_nonneg (v : vec3 R) : 0 <= dot v v.
Proof. unfold dot. simpl. nra. Qed.

Lemma norm_sqrt_dot (v : vec3 R) : norm v = sqrt (dot v v).
Proof. done. Qed.

Lemma norm_sq (v : vec3 R) : norm v * norm v = dot v v.
Proof. rewrite norm_sqrt_dot. apply sqrt_sqrt, dot_self_nonneg. Qed.

Lemma norm_nonneg (v : vec3 R) : 0 <= norm v.
Proof. rewrite norm_sqrt_dot. apply sqrt_pos. Qed.

Lemma norm_vopp (v : vec3 R) : norm (vopp v) = norm v.
Proof. unfold norm, vopp, vmap. simpl. f_equal. ring. Qed.

Lemma norm_eq_0 (v : vec3 R) : norm v = 0 ↔ v = V3 0 0 0.
Proof.
  split.
  - intros H. pose proof (norm_sq v) as Hsq. rewrite H in Hsq.
    unfold dot in Hsq. simpl in Hsq. apply vec3_eq_R; simpl; nra.
  - intros ->. unfold norm. simpl. replace (0 * 0 + 0 * 0 + 0 * 0) with 0 by ring.
    apply sqrt_0.
Qed.

Lemma vdiv_opp (v : vec3 R) s : vdiv (vopp v) s = vopp (vdiv v s).
Proof. unfold vdiv, vopp, vmap. simpl. apply vec3_eq_R; simpl; unfold Rdiv; ring. Qed.

Lemma dot_vdiv_l (u v : vec3 R) s : dot (vdiv u s) v = dot u v / s.
Proof. unfold dot, vdiv. simpl. unfold Rdiv. ring. Qed.

Lemma dot_vdiv_r (u v : vec3 R) s : dot u (vdiv v s) = dot u v / s.
Proof. unfold dot, vdiv. simpl. unfold Rdiv. ring. Qed.

Lemma dot_comm (u v : vec3 R) : dot u v = dot v u.
Proof. unfold dot. simpl. ring. Qed.

(** A vector divided by its norm has norm 1, unless it is the zero
    vector. *)
Lemma norm_normalised (v : vec3 R) : v ≠ V3 0 0 0 → norm (vdiv v (norm v)) = 1.
Proof.
  intros Hv. assert (norm v ≠ 0) as Hn by (by rewrite norm_eq_0).
  rewrite norm_sqrt_dot, dot_vdiv_l, dot_vdiv_r, <- norm_sq.
  replace (norm v * norm v / norm v / norm v) with 1 by (by field).
  apply sqrt_1.
Qed.

Lemma cross_vopp_l (u v : vec3 R) : cross (vopp u) v = cross v u.
Proof. unfold cross, vopp, vmap. simpl. apply vec3_eq_R; simpl; ring. Qed.

Lemma cross_vopp_r (u v : vec3 R) : cross u (vopp v) = cross v u.
Proof. unfold cross, vopp, vmap. simpl. apply vec3_eq_R; simpl; ring. Qed.

Lemma cross_swap (u v : vec3 R) : cross u v = vopp (cross v u).
Proof. unfold cross, vopp, vmap. simpl. apply vec3_eq_R; simpl; ring. Qed.

Lemma dot_cross_l (u v : vec3 R) : dot (cross u v) u = 0.
Proof. unfold dot, cross. simpl. ring. Qed.

Lemma dot_cross_r (u v : vec3 R) : dot (cross u v) v = 0.
Proof. unfold dot, cross. simpl. ring. Qed.

(** Lagrange's identity. *)
Lemma dot_cross_cross (u v : vec3 R) :
  dot (cross u v) (cross u v) = dot u u * dot v v - dot u v * dot u v.
Proof. unfold dot, cross. simpl. ring. Qed.

Lemma unit_vector_n_swap (u v : vec3 R) : unit_vector_n u v = vopp (unit_vector_n v u).
Proof.
  unfold unit_vector_n. rewrite (cross_swap u v), norm_vopp. apply vdiv_opp.
Qed.

Lemma unit_vector_n_vopp_l (u v : vec3 R) : unit_vector_n (vopp u) v = unit_vector_n v u.
Proof. unfold unit_vector_n. by rewrite cross_vopp_l. Qed.

Lemma unit_vector_n_vopp_r (u v : vec3 R) : unit_vector_n u (vopp v) = unit_vector_n v u.
Proof. unfold unit_vector_n. by rewrite cross_vopp_r. Qed.

Lemma vsub_swap (u v : vec3 R) : vsub u v = vopp (vsub v u).
Proof. unfold vsub, vopp, vmap. simpl. apply vec3_eq_R; simpl; ring. Qed.

(** X1: in exact arithmetic the unit vector of a bond taken from the
    other end is the opposite vector, [vector_along_bond(coords, b, a) =
    - vector_along_bond(coords, a, b)], the two calls failing on the same
    inputs; and the vector has norm 1 whenever the two atoms do not have
    the same coordinates. *)
Theorem vector_along_bond_reversed (coords : list (vec3 R)) a b :
  vector_along_bond coords b a = vopp <$> vector_along_bond coords a b
  ∧ ∀ u, vector_along_bond coords a b = Some u →
         coords !! a ≠ coords !! b → norm u = 1.
Proof.
  split.
  - unfold vector_along_bond.
    destruct (coords !! a) as [ca|]; destruct (coords !! b) as [cb|];
      cbn [mbind option_bind fmap option_fmap option_map]; try done.
    f_equal. rewrite (vsub_swap ca cb), norm_vopp. apply vdiv_opp.
  - intros u. unfold vector_along_bond.
    destruct (coords !! a) as [ca|]; destruct (coords !! b) as [cb|];
      cbn [mbind option_bind]; try done.
    intros [= <-] Hne. apply norm_normalised. intros H0. apply Hne. f_equal.
    unfold vsub in H0. injection H0 as Hx Hy Hz.
    apply vec3_eq_R; lra.
Qed.

Lemma is_zero_vector_false (v : vec3 R) : Spec.is_zero_vector v = false ↔ v ≠ V3 0 0 0.
Proof.
  unfold Spec.is_zero_vector. simpl. rewrite !andb_false_iff, !Reqb_false. split.
  - intros H ->. simpl in H. tauto.
  - intros H. destruct (Req_dec_T (vx v) 0) as [Hx|]; [|tauto].
    destruct (Req_dec_T (vy v) 0) as [Hy|]; [|tauto].
    right. intros Hz. apply H. by apply vec3_eq_R.
Qed.

Lemma vdiv_zero (s : R) : vdiv (V3 0 0 0) s = V3 0 0 0.
Proof. unfold vdiv. simpl. apply vec3_eq_R; simpl; unfold Rdiv; ring. Qed.

Lemma cross_zero_r (u : vec3 R) : cross u (V3 0 0 0) = V3 0 0 0.
Proof. unfold cross. simpl. apply vec3_eq_R; simpl; ring. Qed.

(** The normalised cross product of two vectors that are not parallel is a
    unit vector perpendicular to both. *)
Lemma unit_vector_n_unit (u v : vec3 R) :
  cross u v ≠ V3 0 0 0 →
  norm (unit_vector_n u v) = 1
  ∧ dot (unit_vector_n u v) u = 0
  ∧ dot (unit_vector_n u v) v = 0.
Proof.
  intros Hc. unfold unit_vector_n. split; [by apply norm_normalised|].
  rewrite !dot_vdiv_l, dot_cross_l, dot_cross_r. unfold Rdiv. split; ring.
Qed.

(** X2: in exact arithmetic, for two vectors that are not parallel
    (their cross product is not the zero vector), [unit_vector_n(u, v)] has
    norm 1, is orthogonal to [u] and to [v], and changes sign when the two
    arguments are exchanged. *)
Theorem unit_vector_n_is_unit_normal (u v : vec3 R) :
  cross u v ≠ V3 0 0 0 →
  norm (unit_vector_n u v) = 1
  ∧ dot (unit_vector_n u v) u = 0
  ∧ dot (unit_vector_n u v) v = 0
  ∧ unit_vector_n v u = vopp (unit_vector_n u v).
Proof.
  intros Hc. destruct (unit_vector_n_unit u v Hc) as (H1 & H2 & H3).
  repeat split; try done. apply unit_vector_n_swap.
Qed.

(** X3: in exact arithmetic, for an angle [a-b-c] of atoms of [coords]
    whose two unit bond vectors are not parallel, [u_pa_from_angles] returns
    a vector of norm 1 that is orthogonal to the bond [a-b] and to the
    normal of the plane [abc]: it lies in the plane of the angle, across
    the bond. *)
Theorem u_pa_from_angles_in_plane (coords : list (vec3 R)) a b c u_ab u_cb :
  vector_along_bond coords a b = Some u_ab →
  vector_along_bond coords c b = Some u_cb →
  Spec.colinear a b c coords = Some false →
  ∃ u_pa,
    u_pa_from_angles a b c coords = Some u_pa
    ∧ norm u_pa = 1
    ∧ dot u_pa u_ab = 0
    ∧ dot u_pa (unit_vector_n u_cb u_ab) = 0.
Proof.
  intros Hab Hcb Hcol. unfold Spec.colinear in Hcol. unfold u_pa_from_angles.
  rewrite Hab, Hcb in Hcol. rewrite Hab, Hcb. cbn [mbind option_bind] in Hcol.
  cbn [mbind option_bind]. injection Hcol as Hcol. apply is_zero_vector_false in Hcol.
  eexists. split; [done|].
  assert (norm u_ab = 1) as Hunit.
  { unfold vector_along_bond in Hab.
    destruct (coords !! b) as [cb|]; [|done]. destruct (coords !! a) as [ca|]; [|done].
    cbn [mbind option_bind] in Hab. injection Hab as <-.
    apply norm_normalised. intros H0. apply Hcol. rewrite H0, vdiv_zero.
    apply cross_zero_r. }
  destruct (unit_vector_n_unit u_cb u_ab Hcol) as (Hn & _ & Hperp).
  set (u_n := unit_vector_n u_cb u_ab) in Hn, Hperp |- * .
  assert (dot (cross u_n u_ab) (cross u_n u_ab) = 1) as Hlag.
  { rewrite dot_cross_cross, <- !norm_sq, Hn, Hunit, Hperp. ring. }
  assert (cross u_n u_ab ≠ V3 0 0 0) as Hne.
  { intros H0. rewrite H0 in Hlag. unfold dot in Hlag. simpl in Hlag. lra. }
  unfold unit_vector_n at 1 2 3. split; [by apply norm_normalised|].
  rewrite !dot_vdiv_l, dot_cross_l, dot_cross_r. unfold Rdiv. split; ring.
Qed.
End GeometryR.

(** ** The two orderings of an angle *)

Section ReversalR.
Local Open Scope R_scope.

(** X4: in exact arithmetic [dot_product(u_pa, eig_ab)], which
    conjugates the components of the eigenvector, is the conjugate of
    [numpy.dot] of the same two arrays, the product [force_constant_bond]
    uses; its modulus, the only thing [force_constant_angle] reads of it,
    is that of [numpy.dot]: bonds and angles project on an eigenvector in
    the same way. *)
Theorem dot_product_is_conjugate_of_dot (u : vec3 R) (e : vec3 (complex R)) :
  dot_product u e = conjugate (dot_rc u e)
  ∧ cabs (dot_product u e) = cabs (dot_rc u e).
Proof.
  assert (dot_product u e = conjugate (dot_rc u e)) as H.
  { unfold dot_product, dot_rc, py_csum, cadd, cmul, c_of_real, conjugate. simpl.
    apply complex_eq_R; simpl; ring. }
  split; [done|]. rewrite H. unfold cabs, conjugate. simpl. f_equal. ring.
Qed.

Lemma dot_product_vopp (u : vec3 R) (e : vec3 (complex R)) :
  cabs (dot_product (vopp u) e) = cabs (dot_product u e).
Proof.
  unfold cabs, dot_product, py_csum, cadd, cmul, c_of_real, conjugate, vopp, vmap. simpl.
  f_equal. ring.
Qed.

Lemma projection_sum_vopp vals vecs (u : vec3 R) :
  projection_sum vals vecs (vopp u) = projection_sum vals vecs u.
Proof.
  unfold projection_sum. f_equal. apply map_ext. intros i. by rewrite dot_product_vopp.
Qed.

Lemma cadd_comm_R (z w : complex R) : cadd z w = cadd w z.
Proof. unfold cadd. apply complex_eq_R; simpl; ring. Qed.

Lemma springs_in_series_swap (l1 l2 : R) (s1 s2 : complex R) :
  springs_in_series l1 l2 s1 s2 = springs_in_series l2 l1 s2 s1.
Proof. unfold springs_in_series. cbv zeta. by rewrite cadd_comm_R. Qed.

Lemma truthy_vsum_vopp (v : vec3 R) : truthy (vsum (vopp v)) = truthy (vsum v).
Proof.
  unfold truthy, vsum, py_sum, vopp, vmap. simpl.
  destruct (Reqb (0 + vx v + vy v + vz v) 0) eqn:E.
  - apply Reqb_true in E. apply negb_false_iff, Reqb_true. lra.
  - apply Reqb_false in E. apply negb_true_iff, Reqb_false. lra.
Qed.

Lemma special_case_sample_swap (L := Libm_R) (u_ab u_cb : vec3 R) l1 l2 v1 v2 e1 e2 theta :
  special_case_sample u_cb u_ab (l2, l1) (v2, v1) (e2, e1) theta
  = special_case_sample u_ab u_cb (l1, l2) (v1, v2) (e1, e2) theta.
Proof.
  unfold special_case_sample. cbv zeta. cbn [fst snd].
  rewrite springs_in_series_swap.
  rewrite (unit_vector_n_swap u_ab (sample_normal theta)), projection_sum_vopp.
  rewrite (unit_vector_n_swap (sample_normal theta) u_cb), projection_sum_vopp.
  done.
Qed.

Lemma f_c_a_special_case_swap (u_ab u_cb : vec3 R) l1 l2 v1 v2 e1 e2 :
  f_c_a_special_case u_cb u_ab (l2, l1) (v2, v1) (e2, e1)
  = f_c_a_special_case u_ab u_cb (l1, l2) (v1, v2) (e1, e2).
Proof.
  unfold f_c_a_special_case, sample_thetas. cbv zeta.
  rewrite !fill_array, (dot_comm u_cb u_ab).
  rewrite (map_ext _ _ (special_case_sample_swap u_ab u_cb l1 l2 v1 v2 e1 e2)). done.
Qed.

Lemma regular_case_swap (u_ab u_cb : vec3 R) l1 l2 v1 v2 e1 e2 s0 s1 :
  regular_case u_cb u_ab (unit_vector_n u_ab u_cb) l2 l1 v2 v1 e2 e1 (s1, s0)
  = regular_case u_ab u_cb (unit_vector_n u_cb u_ab) l1 l2 v1 v2 e1 e2 (s0, s1).
Proof.
  unfold regular_case. cbv zeta. cbn [fst snd].
  rewrite springs_in_series_swap.
  rewrite (unit_vector_n_swap u_ab u_cb), unit_vector_n_vopp_l, unit_vector_n_vopp_r.
  by rewrite (dot_comm u_cb u_ab).
Qed.

Lemma force_constant_angle_swap a b c (lens : lens_table R) vals vecs coords s0 s1 :
  lens a b = lens b a → lens b c = lens c b →
  force_constant_angle c b a lens vals vecs coords (s1, s0)
  = force_constant_angle a b c lens vals vecs coords (s0, s1).
Proof.
  intros Hab Hbc. unfold force_constant_angle.
  destruct (vector_along_bond coords a b) as [u_ab|];
    destruct (vector_along_bond coords c b) as [u_cb|]; cbn [mbind option_bind]; try done.
  cbv zeta. rewrite (unit_vector_n_swap u_ab u_cb), truthy_vsum_vopp.
  destruct (truthy _).
  - f_equal. rewrite <- Hbc, <- Hab. apply f_c_a_special_case_swap.
  - f_equal. rewrite <- Hbc, <- Hab.
    rewrite <- (unit_vector_n_swap u_ab u_cb). apply regular_case_swap.
Qed.

Lemma angle_result_forward vib (a b c : positive) (lens : lens_table R) vals vecs coords
    s0 s1 :
  lens (atom_index a) (atom_index b) = lens (atom_index b) (atom_index a) →
  lens (atom_index b) (atom_index c) = lens (atom_index c) (atom_index b) →
  angle_result vib lens vals vecs coords (a, b, c) (s0, s1)
  = ('(k_theta, theta_0) ←
       force_constant_angle (atom_index a) (atom_index b) (atom_index c)
         lens vals vecs coords (s0, s1);
     Some (vib * vib * k_theta, theta_0)).
Proof.
  intros Hab Hbc.
  unfold angle_result. cbn [fst snd]. rewrite force_constant_angle_swap by done.
  destruct (force_constant_angle (atom_index a) (atom_index b) (atom_index c)
              lens vals vecs coords (s0, s1)) as [[k t]|];
    cbn [mbind option_bind]; [|done].
  f_equal. f_equal; simpl; field.
Qed.

(** X6: in exact arithmetic, when [bond_lens] has the same entry for
    the two orders of each of the two bonds, [force_constant_angle] on the
    reversed angle with the reversed scalings returns what it returns on
    the angle itself, in the regular case and in the sampled special case
    alike; hence the means that [calculate_angles] takes of the two
    orderings are the values of one: [k_theta = vib_scaling ** 2 *
    ab_k_theta] and [theta_0 = ab_theta_0]. *)
Theorem angle_orderings_agree vib (a b c : positive) (lens : lens_table R) vals vecs coords
    s0 s1 :
  lens (atom_index a) (atom_index b) = lens (atom_index b) (atom_index a) →
  lens (atom_index b) (atom_index c) = lens (atom_index c) (atom_index b) →
  force_constant_angle (atom_index c) (atom_index b) (atom_index a)
    lens vals vecs coords (s1, s0)
  = force_constant_angle (atom_index a) (atom_index b) (atom_index c)
      lens vals vecs coords (s0, s1)
  ∧ angle_result vib lens vals vecs coords (a, b, c) (s0, s1)
    = ('(k_theta, theta_0) ←
         force_constant_angle (atom_index a) (atom_index b) (atom_index c)
           lens vals vecs coords (s0, s1);
       Some (vib * vib * k_theta, theta_0)).
Proof.
  intros Hab Hbc. split; [by apply force_constant_angle_swap | by apply angle_result_forward].
Qed.
End ReversalR.

(** ** The two orderings of a bond, and the unit of the Hessian *)

Section ScalingR.
Local Open Scope R_scope.

Lemma cabs_dot_rc_vopp (u : vec3 R) (e : vec3 (complex R)) :
  cabs (dot_rc (vopp u) e) = cabs (dot_rc u e).
Proof.
  unfold cabs, dot_rc, cadd, cmul, c_of_real, vopp, vmap. simpl. f_equal. ring.
Qed.

Lemma vector_along_bond_swap (coords : list (vec3 R)) a b :
  vector_along_bond coords b a = vopp <$> vector_along_bond coords a b.
Proof.
  unfold vector_along_bond.
  destruct (coords !! a) as [ca|]; destruct (coords !! b) as [cb|];
    cbn [mbind option_bind fmap option_fmap option_map]; try done.
  f_equal. rewrite (vsub_swap ca cb), norm_vopp. apply vdiv_opp.
Qed.

(** X5: in exact arithmetic the two orderings of a bond differ only
    through the blocks of the cache they read: when the blocks [a, b] and
    [b, a] hold the same eigenvalues and eigenvectors,
    [force_constant_bond(b, a, ...) = force_constant_bond(a, b, ...)], and
    the real part of the mean of the two, which [calculate_bonds] reports,
    is the real part of either. *)
Theorem bond_orderings_agree (a b : nat) (vals : eigvals_table R) (vecs : eigvecs_table R)
    (coords : list (vec3 R)) :
  vals a b = vals b a → vecs a b = vecs b a →
  force_constant_bond b a vals vecs coords = force_constant_bond a b vals vecs coords
  ∧ ∀ ab, force_constant_bond a b vals vecs coords = Some ab →
          real (cdiv (cadd ab ab) (c_of_real (of_Z 2))) = re ab.
Proof.
  intros Hvals Hvecs. split.
  - unfold force_constant_bond. cbv zeta. rewrite vector_along_bond_swap.
    destruct (vector_along_bond coords a b) as [u|];
      cbn [mbind option_bind fmap option_fmap option_map]; [|done].
    rewrite <- Hvals, <- Hvecs. do 3 f_equal. apply map_ext. intros i.
    by rewrite cabs_dot_rc_vopp.
  - intros ab _. unfold real, cdiv, cadd, c_of_real. simpl. field.
Qed.

Lemma cmul_real_assoc (t x : R) (z : complex R) :
  cmul (cmul (c_of_real t) z) (c_of_real x) = cmul (c_of_real t) (cmul z (c_of_real x)).
Proof. unfold cmul, c_of_real. apply complex_eq_R; simpl; ring. Qed.

Lemma cmul_real_comm (s t : R) (z : complex R) :
  cmul (c_of_real s) (cmul (c_of_real t) z) = cmul (c_of_real t) (cmul (c_of_real s) z).
Proof. unfold cmul, c_of_real. apply complex_eq_R; simpl; ring. Qed.

Lemma cadd_scaled (t : R) (z w : complex R) :
  cadd (cmul (c_of_real t) z) (cmul (c_of_real t) w) = cmul (c_of_real t) (cadd z w).
Proof. unfold cadd, cmul, c_of_real. apply complex_eq_R; simpl; ring. Qed.

Lemma fold_left_cadd_scaled (t : R) (l : list (complex R)) (z : complex R) :
  fold_left cadd (map (cmul (c_of_real t)) l) (cmul (c_of_real t) z)
  = cmul (c_of_real t) (fold_left cadd l z).
Proof.
  revert z. induction l as [|w l IH]; intros z; simpl; [done|].
  by rewrite cadd_scaled, IH.
Qed.

Lemma py_csum_scaled (t : R) (l : list (complex R)) :
  py_csum (map (cmul (c_of_real t)) l) = cmul (c_of_real t) (py_csum l).
Proof.
  unfold py_csum. rewrite <- fold_left_cadd_scaled. f_equal.
  unfold cmul, c_of_real. apply complex_eq_R; simpl; ring.
Qed.

Lemma projection_sum_scaled (t : R) (vals : vec3 (complex R)) vecs (u : vec3 R) :
  projection_sum (vmap (cmul (c_of_real t)) vals) vecs u
  = cmul (c_of_real t) (projection_sum vals vecs u).
Proof.
  unfold projection_sum. rewrite <- py_csum_scaled, map_map. f_equal.
  apply map_ext_in. intros i Hi. apply in_seq in Hi.
  rewrite <- cmul_real_assoc. f_equal.
  destruct i as [|[|[|i]]]; first [done | lia].
Qed.

Lemma cdiv_scaled_numerator (t : R) (z w : complex R) :
  cdiv (cmul (c_of_real t) z) w = cmul (c_of_real t) (cdiv z w).
Proof. unfold cdiv, cmul, c_of_real. apply complex_eq_R; simpl; unfold Rdiv; ring. Qed.

Lemma cdiv_scaled_denominator (t : R) (z w : complex R) :
  t ≠ 0 → cdiv z (cmul (c_of_real t) w) = cmul (c_of_real (/ t)) (cdiv z w).
Proof.
  intros Ht. unfold cdiv, cmul, c_of_real. cbn [re im]. simpl.
  replace ((t * re w - 0 * im w) * (t * re w - 0 * im w)
           + (t * im w + 0 * re w) * (t * im w + 0 * re w))
    with (t * (t * (re w * re w + im w * im w))) by ring.
  unfold Rdiv. rewrite !Rinv_mult.
  set (d := / (re w * re w + im w * im w)). set (y := / t).
  assert (t * y = 1) as Hy by (unfold y; by apply Rinv_r).
  apply complex_eq_R; cbn [re im]; nsatz.
Qed.

Lemma cabs_scaled (t : R) (z : complex R) :
  cabs (cmul (c_of_real t) z) = Rabs t * cabs z.
Proof.
  unfold cabs, cmul, c_of_real. cbn [re im]. simpl.
  replace ((t * re z - 0 * im z) * (t * re z - 0 * im z)
           + (t * im z + 0 * re z) * (t * im z + 0 * re z))
    with (Rsqr t * (re z * re z + im z * im z)) by (unfold Rsqr; ring).
  rewrite sqrt_mult; [|apply Rle_0_sqr|nra]. by rewrite sqrt_Rsqr_abs.
Qed.

Lemma springs_in_series_scaled (t l1 l2 : R) (s1 s2 : complex R) :
  t ≠ 0 →
  springs_in_series l1 l2 (cmul (c_of_real t) s1) (cmul (c_of_real t) s2)
  = Rabs t * springs_in_series l1 l2 s1 s2.
Proof.
  intros Ht. unfold springs_in_series. cbv zeta.
  rewrite !(cmul_real_comm _ t), !(cdiv_scaled_denominator t) by done.
  rewrite cadd_scaled, (cdiv_scaled_denominator (/ t)) by (by apply Rinv_neq_0_compat).
  rewrite Rinv_inv.
  rewrite <- cabs_scaled. f_equal.
  unfold cmul, c_of_real. apply complex_eq_R; simpl; ring.
Qed.

Lemma fold_left_Rplus_scaled (c : R) (l : list R) (x : R) :
  fold_left Rplus (map (Rmult c) l) (c * x) = c * fold_left Rplus l x.
Proof.
  revert x. induction l as [|y l IH]; intros x; simpl; [done|].
  by rewrite <- Rmult_plus_distr_l, IH.
Qed.

Lemma average_scaled (c : R) (l : list R) :
  average (map (Rmult c) l) = c * average l.
Proof.
  unfold average, py_sum. rewrite length_map.
  change (@add R Num_R) with Rplus.
  replace (of_Z 0 : R) with (c * 0) at 1 by (simpl; ring).
  rewrite fold_left_Rplus_scaled.
  change (@div R Num_R) with Rdiv. change (of_Z 0 : R) with 0.
  unfold Rdiv. ring.
Qed.

Lemma f_c_a_special_case_scaled (L := Libm_R) (t : R) u_ab u_cb l1 l2 v1 v2 e1 e2 :
  t ≠ 0 →
  f_c_a_special_case u_ab u_cb (l1, l2)
    (vmap (cmul (c_of_real t)) v1, vmap (cmul (c_of_real t)) v2) (e1, e2)
  = (Rabs t * fst (f_c_a_special_case u_ab u_cb (l1, l2) (v1, v2) (e1, e2)),
     snd (f_c_a_special_case u_ab u_cb (l1, l2) (v1, v2) (e1, e2))).
Proof.
  intros Ht. unfold f_c_a_special_case. cbv zeta. cbn [fst snd].
  unfold sample_thetas. rewrite !fill_array. f_equal.
  rewrite <- average_scaled, map_map. f_equal.
  apply map_ext. intros theta.
  unfold special_case_sample. cbv zeta. cbn [fst snd].
  by rewrite !projection_sum_scaled, springs_in_series_scaled.
Qed.

Lemma regular_case_scaled (L := Libm_R) (t : R) u_ab u_cb u_n l1 l2 v1 v2 e1 e2 sc :
  t ≠ 0 →
  regular_case u_ab u_cb u_n l1 l2
    (vmap (cmul (c_of_real t)) v1) (vmap (cmul (c_of_real t)) v2) e1 e2 sc
  = (Rabs t * fst (regular_case u_ab u_cb u_n l1 l2 v1 v2 e1 e2 sc),
     snd (regular_case u_ab u_cb u_n l1 l2 v1 v2 e1 e2 sc)).
Proof.
  intros Ht. unfold regular_case. cbv zeta. cbn [fst snd].
  by rewrite !projection_sum_scaled, !cdiv_scaled_numerator, springs_in_series_scaled.
Qed.

(** X7: in exact arithmetic, multiplying every eigenvalue of the
    cache by a real [t <> 0] (a change of the unit of the Hessian)
    multiplies every bond force constant by [t] and every angle force
    constant by [|t|], in both branches of [force_constant_angle], and
    leaves the equilibrium angles as they are. *)
Theorem force_constants_scale_with_eigenvalues (t : R) (vals : eigvals_table R)
    (vecs : eigvecs_table R) (coords : list (vec3 R)) :
  t ≠ 0 →
  (∀ a b, force_constant_bond a b (scale_eigenvals t vals) vecs coords
          = cmul (c_of_real t) <$> force_constant_bond a b vals vecs coords)
  ∧ (∀ a b c lens sc,
       force_constant_angle a b c lens (scale_eigenvals t vals) vecs coords sc
       = (fun r => (Rabs t * fst r, snd r))
           <$> force_constant_angle a b c lens vals vecs coords sc).
Proof.
  intros Ht. split.
  - intros a b. unfold force_constant_bond, scale_eigenvals. cbv zeta.
    destruct (vector_along_bond coords a b) as [u|];
      cbn [mbind option_bind fmap option_fmap option_map]; [|done].
    f_equal. rewrite cmul_real_comm. f_equal.
    rewrite <- py_csum_scaled, map_map. f_equal.
    apply map_ext_in. intros i Hi. apply in_seq in Hi.
    rewrite <- cmul_real_assoc. f_equal. destruct i as [|[|[|i]]]; first [done | lia].
  - intros a b c lens sc. unfold force_constant_angle, scale_eigenvals. cbv zeta.
    destruct (vector_along_bond coords a b) as [u_ab|];
      cbn [mbind option_bind fmap option_fmap option_map]; [|done].
    destruct (vector_along_bond coords c b) as [u_cb|];
      cbn [mbind option_bind fmap option_fmap option_map]; [|done].
    destruct (truthy _); cbn [fmap option_fmap option_map]; f_equal.
    + by apply f_c_a_special_case_scaled.
    + by apply regular_case_scaled.
Qed.
End ScalingR.

(** ** [calculate_bonds]: when it returns *)

Section Bounds.
Context {F : Type} {N : Num F}.

Lemma vector_along_bond_is_Some (coords : list (vec3 F)) a b :
  is_Some (vector_along_bond coords a b) ↔ (a < length coords ∧ b < length coords)%nat.
Proof.
  unfold vector_along_bond. rewrite <- !lookup_lt_is_Some. split.
  - intros [u Hu]. destruct (coords !! b); [|done]. destruct (coords !! a); [|done]. eauto.
  - intros [[ca ->] [cb ->]]. simpl. eauto.
Qed.

Lemma force_constant_bond_is_Some a b vals vecs (coords : list (vec3 F)) :
  is_Some (force_constant_bond a b vals vecs coords)
  ↔ (a < length coords ∧ b < length coords)%nat.
Proof.
  rewrite <- vector_along_bond_is_Some. unfold force_constant_bond.
  destruct (vector_along_bond coords a b); simpl; split; intros [? ?]; eauto; done.
Qed.

Lemma calculate_bonds_is_Some vib (bond_list : list bond) lens vals vecs
    (coords : list (vec3 F)) :
  is_Some (calculate_bonds vib bond_list lens vals vecs coords)
  ↔ Forall (bond_in_range (length coords)) bond_list.
Proof.
  unfold calculate_bonds.
  rewrite mapM_is_Some. apply Forall_iff. intros [b0 b1]. unfold bond_in_range. simpl.
  pose proof (force_constant_bond_is_Some (atom_index b0) (atom_index b1) vals vecs coords) as H1.
  pose proof (force_constant_bond_is_Some (atom_index b1) (atom_index b0) vals vecs coords) as H2.
  destruct (force_constant_bond (atom_index b0) (atom_index b1) vals vecs coords) as [ab|];
    simpl.
  + destruct (force_constant_bond (atom_index b1) (atom_index b0) vals vecs coords) as [ba|];
      simpl.
    * split; [intros _; apply H1; by eexists | intros _; by eexists].
    * split; [by intros [? ?]|]. intros Hr.
      destruct H2 as [_ H2]. destruct H2 as [? ?]; [lia|done].
  + split; [by intros [? ?]|]. intros Hr. destruct H1 as [_ H1].
    destruct H1 as [? ?]; [lia|done].
Qed.

Lemma calculate_bonds_lengths vib (bond_list : list bond) lens vals vecs
    (coords : list (vec3 F)) res :
  calculate_bonds vib bond_list lens vals vecs coords = Some res →
  length res = length bond_list
  ∧ ∀ i b, bond_list !! i = Some b →
           snd <$> res !! i = Some (lens (atom_index (fst b)) (atom_index (snd b))).
Proof.
  unfold calculate_bonds.
  intros Hres. split; [symmetry; by eapply length_mapM|].
  intros i [b0 b1] Hi. apply mapM_Some in Hres.
  destruct (Forall2_lookup_l _ _ _ _ _ Hres Hi) as (y & -> & Hy). simpl in Hy.
  destruct (force_constant_bond (atom_index b0) (atom_index b1) vals vecs coords); [|done].
  destruct (force_constant_bond (atom_index b1) (atom_index b0) vals vecs coords); [|done].
  simpl in Hy. by injection Hy as <-.
Qed.

(** X8: [calculate_bonds] returns (no [IndexError]) exactly when both
    atoms of every bond of the list are atoms of [coords]; it then returns
    one row per bond. *)
Theorem calculate_bonds_bounds vib (bond_list : list bond) lens vals vecs
    (coords : list (vec3 F)) :
  (is_Some (calculate_bonds vib bond_list lens vals vecs coords)
   ↔ Forall (bond_in_range (length coords)) bond_list)
  ∧ ∀ res, calculate_bonds vib bond_list lens vals vecs coords = Some res →
           length res = length bond_list.
Proof.
  split; [apply calculate_bonds_is_Some|].
  intros res Hres. by apply calculate_bonds_lengths in Hres as [? _].
Qed.
End Bounds.

(** ** [calculate_angles]: the scaling factors are always derived *)

Lemma length_insert_by_key {A : Type} (key : A → nat) x (l : list A) :
  length (insert_by_key key x l) = S (length l).
Proof.
  induction l as [|y l IH]; simpl; [done|].
  destruct (key x <=? key y)%nat; simpl; [done|]. by rewrite IH.
Qed.

Lemma length_sorted_by_key {A : Type} (key : A → nat) (l : list A) :
  length (sorted_by_key key l) = length l.
Proof.
  induction l as [|y l IH]; simpl; [done|]. by rewrite length_insert_by_key, IH.
Qed.

Lemma length_central_atoms_angles n (angle_list : list angle) :
  length (central_atoms_angles n angle_list) = n.
Proof.
  unfold central_atoms_angles, central_atoms_angles_unsorted.
  by rewrite !length_map, length_seq.
Qed.

(** Every entry of a row comes from an angle of the list with that central
    atom. *)
Lemma row_entry_from_angle n (angle_list : list angle) i row e :
  central_atoms_angles n angle_list !! i = Some row → e ∈ row →
  ∃ a b c,
    angle_list !! e_count e = Some (a, b, c) ∧ atom_index b = i
    ∧ (e = Entry (atom_index a) (atom_index c) (e_count e)
       ∨ e = Entry (atom_index c) (atom_index a) (e_count e)).
Proof.
  unfold central_atoms_angles, central_atoms_angles_unsorted.
  rewrite !list_lookup_fmap. intros Hrow He.
  destruct (seq 0 n !! i) as [i'|] eqn:Hi; [|done]. simpl in Hrow.
  apply lookup_seq in Hi as [-> _]. simpl in Hrow. injection Hrow as <-.
  apply sorted_by_key_elem, list_elem_of_In, in_flat_map in He
    as ([k [[a b] c]] & Hin & He).
  apply list_elem_of_In, list_elem_of_lookup in Hin as [k' Hin].
  apply enumerate_lookup in Hin as [-> Hk].
  destruct (i =? atom_index b)%nat eqn:Hb; [|done].
  apply Nat.eqb_eq in Hb. exists a, b, c.
  destruct He as [<-|[<-|[]]]; simpl; eauto.
Qed.

Lemma flat_map_length_ge {A B : Type} (f : A → list B) (l : list A) x :
  x ∈ l → (length (f x) ≤ length (flat_map f l))%nat.
Proof.
  induction 1 as [x l|x y l _ IH]; simpl; rewrite length_app; lia.
Qed.

Lemma concat_length_ge {A : Type} (ls : list (list A)) i l :
  ls !! i = Some l → (length l ≤ length (concat ls))%nat.
Proof.
  revert i. induction ls as [|l0 ls IH]; intros [|i]; simpl; try done.
  - intros [= ->]. rewrite length_app. lia.
  - intros H. rewrite length_app. apply IH in H. lia.
Qed.

(** The row of a central atom holds two entries for each of its angles. *)
Lemma central_row_two_entries n (angle_list : list angle) k a b c :
  angle_list !! k = Some (a, b, c) → (atom_index b < n)%nat →
  ∃ row, central_atoms_angles n angle_list !! atom_index b = Some row
         ∧ (2 ≤ length row)%nat.
Proof.
  intros Hk Hb. unfold central_atoms_angles, central_atoms_angles_unsorted.
  rewrite !list_lookup_fmap.
  assert (seq 0 n !! atom_index b = Some (atom_index b)) as ->
      by (apply lookup_seq; lia).
  simpl. eexists. split; [done|]. rewrite length_sorted_by_key.
  match goal with
  | |- context [flat_map ?f _] =>
      pose proof (flat_map_length_ge f (enumerate angle_list) (k, (a, b, c))) as Hge
  end.
  simpl in Hge. rewrite Nat.eqb_refl in Hge. apply Hge.
  apply list_elem_of_lookup. exists k. by apply enumerate_lookup.
Qed.

Section AnglesBounds.
Context {F : Type} {N : Num F}.

Lemma u_pa_from_angles_is_Some a b c (coords : list (vec3 F)) :
  is_Some (u_pa_from_angles a b c coords)
  ↔ (a < length coords ∧ b < length coords ∧ c < length coords)%nat.
Proof.
  unfold u_pa_from_angles.
  pose proof (vector_along_bond_is_Some coords a b) as H1.
  pose proof (vector_along_bond_is_Some coords c b) as H2.
  destruct (vector_along_bond coords a b) as [u_ab|]; simpl.
  - destruct (vector_along_bond coords c b) as [u_cb|]; simpl.
    + destruct H1 as [H1 _], H2 as [H2 _]. split; [|by eexists].
      intros _. destruct H1; [by eexists|]. destruct H2; [by eexists|]. lia.
    + split; [by intros [? ?]|]. intros Hr. destruct H2 as [_ H2].
      destruct H2 as [? ?]; [lia|done].
  - split; [by intros [? ?]|]. intros Hr. destruct H1 as [_ H1].
    destruct H1 as [? ?]; [lia|done].
Qed.

Lemma unit_pa_all_angles_is_Some (angle_list : list angle) (coords : list (vec3 F)) :
  Forall (angle_in_range (length coords)) angle_list →
  is_Some (unit_pa_all_angles (central_atoms_angles (length coords) angle_list) coords).
Proof.
  intros Hall. unfold unit_pa_all_angles. apply mapM_is_Some, Forall_forall.
  intros [i row] Hin. apply list_elem_of_lookup in Hin as [i' Hin].
  apply enumerate_lookup in Hin as [-> Hi]. simpl.
  apply mapM_is_Some, Forall_forall. intros e He. simpl.
  destruct (row_entry_from_angle _ _ _ _ _ Hi He) as (a & b & c & Hk & Hb & Hor).
  rewrite Forall_forall in Hall.
  specialize (Hall (a, b, c) ltac:(by eapply list_elem_of_lookup_2)). simpl in Hall.
  apply u_pa_from_angles_is_Some. destruct Hor as [-> | ->]; simpl; lia.
Qed.

(** The scaling factors are derived for every entry, and each carries
    the position of its angle. *)
Lemma scaling_factor_all_angles_shape (cen : list (list entry)) (coords : list (vec3 F))
    unit_pa :
  unit_pa_all_angles cen coords = Some unit_pa →
  ∃ factors,
    scaling_factor_all_angles cen unit_pa = Some factors
    ∧ Forall2 (Forall2 (fun e fc => snd fc = e_count e)) cen factors.
Proof.
  intros Hupa. unfold unit_pa_all_angles in Hupa. apply mapM_Some in Hupa.
  assert (∀ i row, cen !! i = Some row →
            ∃ upa, unit_pa !! i = Some upa ∧ length upa = length row) as Hrow.
  { intros i row Hi.
    destruct (Forall2_lookup_l _ _ _ i (i, row) Hupa) as (upa & Hu & Hm).
    - by apply enumerate_lookup.
    - exists upa. split; [done|]. symmetry. by eapply length_mapM. }
  assert (is_Some (scaling_factor_all_angles cen unit_pa)) as [factors Hfactors].
  { unfold scaling_factor_all_angles. apply mapM_is_Some, Forall_forall.
    intros [i row] Hin. apply list_elem_of_lookup in Hin as [i' Hin].
    apply enumerate_lookup in Hin as [-> Hi]. simpl.
    destruct (Hrow i' row Hi) as (upa & Hu & Hlen). rewrite Hu. simpl.
    apply mapM_is_Some, Forall_forall. intros j Hj. apply elem_of_seq in Hj.
    destruct (lookup_lt_is_Some_2 row j) as [e He]; [lia|]. simpl.
    by rewrite (scaling_factor_visited row upa j e He). }
  exists factors. split; [done|].
  unfold scaling_factor_all_angles in Hfactors. apply mapM_Some in Hfactors.
  apply Forall2_same_length_lookup. split.
  { apply Forall2_length in Hfactors. by rewrite length_enumerate in Hfactors. }
  intros i row frow Hi Hf.
  destruct (Forall2_lookup_l _ _ _ i (i, row) Hfactors) as (frow' & Hf' & Hm).
  { by apply enumerate_lookup. }
  rewrite Hf in Hf'. injection Hf' as <-. simpl in Hm.
  destruct (Hrow i row Hi) as (upa & Hu & Hlen). rewrite Hu in Hm. simpl in Hm.
  apply mapM_Some in Hm.
  apply Forall2_same_length_lookup. split.
  { apply Forall2_length in Hm. by rewrite length_seq in Hm. }
  intros j e fc He Hfc.
  destruct (Forall2_lookup_l _ _ _ j j Hm) as (fc' & Hfc' & Hs).
  { apply lookup_seq. split; [done|]. by eapply lookup_lt_Some. }
  rewrite Hfc in Hfc'. injection Hfc' as <-.
  rewrite (scaling_factor_visited row upa j e He Hlen) in Hs. by injection Hs as <-.
Qed.

Lemma foldlM_append_all (n : nat) (l : list (F * nat)) (content : list F) :
  Forall (fun fc => (snd fc < n)%nat) l →
  foldlM (fun h '(factor, count) =>
            r ← replicate n 0%nat !! count; PyHeap.append h r factor)
         l [content] = Some [content ++ map fst l].
Proof.
  revert content. induction l as [|[factor count] l IH]; intros content Hall.
  - simpl. by rewrite app_nil_r.
  - inversion Hall as [|? ? Hc Hall']; subst. simpl in Hc.
    cbn [foldlM]. rewrite lookup_replicate_2 by done.
    cbn [mbind option_bind].
    change (PyHeap.append [content] 0 factor) with (Some [content ++ [factor]]).
    cbn [mbind option_bind]. rewrite IH by done. simpl. by rewrite <- app_assoc.
Qed.

Lemma scaling_factors_angles_list_all n (factors : list (list (F * nat))) :
  Forall (fun fc => (snd fc < n)%nat) (concat factors) →
  scaling_factors_angles_list n factors
  = Some ([map fst (concat factors)], replicate n 0%nat).
Proof.
  intros Hall. unfold scaling_factors_angles_list, PyHeap.alloc, PyHeap.repeat_ref. simpl.
  by rewrite foldlM_append_all.
Qed.
End AnglesBounds.

(** ** [calculate_angles]: the rows of the central atoms *)

Lemma row_length_from (i : nat) (angle_list : list angle) :
  ∀ s,
    length (flat_map (fun '(count, (a, b, c)) =>
                        if (i =? atom_index b)%nat
                        then [Entry (atom_index a) (atom_index c) count;
                              Entry (atom_index c) (atom_index a) count]
                        else [])
                     (zip (seq s (length angle_list)) angle_list))
    = (2 * length (filter (fun ang => central_index ang = i) angle_list))%nat.
Proof.
  induction angle_list as [|[[a b] c] l IH]; intros s; [done|].
  cbn [length seq zip zip_with flat_map]. rewrite length_app, IH, filter_cons.
  destruct (i =? atom_index b)%nat eqn:E.
  - apply Nat.eqb_eq in E. rewrite decide_True by (by unfold central_index).
    cbn [length]. lia.
  - apply Nat.eqb_neq in E. rewrite decide_False by (unfold central_index; simpl; lia).
    cbn [length]. lia.
Qed.

(** X9: [central_atoms_angles] has one row per atom; the row of atom
    [i] is sorted by flanking atom and holds, for every angle of the list
    with central atom [i] and for nothing else, the entries [[a, c, count]]
    and [[c, a, count]]: twice as many entries as there are such angles. *)
Theorem central_atoms_angles_rows (n : nat) (angle_list : list angle) :
  length (central_atoms_angles n angle_list) = n
  ∧ ∀ i row, central_atoms_angles n angle_list !! i = Some row →
      StronglySorted (key_le e_first) row
      ∧ length row = (2 * length (filter (fun ang => central_index ang = i) angle_list))%nat
      ∧ ∀ e, e ∈ row ↔
             ∃ a b c,
               angle_list !! e_count e = Some (a, b, c) ∧ atom_index b = i
               ∧ (e = Entry (atom_index a) (atom_index c) (e_count e)
                  ∨ e = Entry (atom_index c) (atom_index a) (e_count e)).
Proof.
  split; [apply length_central_atoms_angles|].
  intros i row Hrow.
  split; [by apply (central_atoms_angles_sorted n angle_list i)|]. split.
  - pose proof Hrow as Hrow'.
    unfold central_atoms_angles, central_atoms_angles_unsorted in Hrow'.
    rewrite !list_lookup_fmap in Hrow'.
    destruct (seq 0 n !! i) as [i'|] eqn:Hi; [|done]. simpl in Hrow'.
    apply lookup_seq in Hi as [-> _]. simpl in Hrow'. injection Hrow' as <-.
    rewrite length_sorted_by_key. apply row_length_from.
  - intros e. split; [by apply (row_entry_from_angle n angle_list i row e)|].
    intros (a & b & c & Hk & Hb & Hor).
    assert (i < n)%nat as Hi.
    { apply lookup_lt_Some in Hrow. by rewrite length_central_atoms_angles in Hrow. }
    destruct (angle_entries_in_row n angle_list (e_count e) a b c Hk) as (row' & Hrow' & H1 & H2);
      [lia|].
    rewrite Hb, Hrow in Hrow'. injection Hrow' as <-.
    by destruct Hor as [-> | ->].
Qed.

(** ** [calculate_angles]: when it returns *)

Section AnglesBounds2.
Context {F : Type} {N : Num F}.

Lemma scaling_store_in_range (angle_list : list angle) (coords : list (vec3 F)) :
  Forall (angle_in_range (length coords)) angle_list →
  ∃ content,
    scaling_store angle_list coords
    = Some ([content], replicate (length angle_list) 0%nat)
    ∧ (angle_list ≠ [] → (2 ≤ length content)%nat).
Proof.
  intros Hall. unfold scaling_store. cbv zeta.
  destruct (unit_pa_all_angles_is_Some angle_list coords Hall) as [unit_pa Hupa].
  rewrite Hupa. cbn [mbind option_bind].
  destruct (scaling_factor_all_angles_shape _ _ _ Hupa) as (factors & -> & Hshape).
  cbn [mbind option_bind].
  exists (map fst (concat factors)). split.
  - apply scaling_factors_angles_list_all. apply Forall_concat, Forall_forall.
    intros frow Hfrow. apply list_elem_of_lookup in Hfrow as [i Hfrow].
    destruct (Forall2_lookup_r _ _ _ _ _ Hshape Hfrow) as (row & Hrow & Hrel).
    apply Forall_forall. intros fc Hfc. apply list_elem_of_lookup in Hfc as [j Hfc].
    destruct (Forall2_lookup_r _ _ _ _ _ Hrel Hfc) as (e & He & ->).
    destruct (row_entry_from_angle _ _ _ _ e Hrow) as (a & b & c & Hk & _).
    { by eapply list_elem_of_lookup_2. }
    by eapply lookup_lt_Some.
  - intros Hne. destruct angle_list as [|[[a b] c] rest]; [done|].
    inversion Hall as [|? ? Hin _]; subst. simpl in Hin.
    destruct (central_row_two_entries (length coords) ((a, b, c) :: rest) 0 a b c)
      as (row & Hrow & Hlen); [done|lia|].
    destruct (Forall2_lookup_l _ _ _ _ _ Hshape Hrow) as (frow & Hfrow & Hrel).
    rewrite length_map. etransitivity; [|by eapply concat_length_ge].
    apply Forall2_length in Hrel. lia.
Qed.

Context {L : Libm F}.

Lemma force_constant_angle_is_Some a b c lens vals vecs (coords : list (vec3 F)) sc :
  is_Some (force_constant_angle a b c lens vals vecs coords sc)
  ↔ (a < length coords ∧ b < length coords ∧ c < length coords)%nat.
Proof.
  rewrite <- u_pa_from_angles_is_Some. unfold force_constant_angle, u_pa_from_angles.
  destruct (vector_along_bond coords a b) as [u_ab|]; simpl; [|done].
  destruct (vector_along_bond coords c b) as [u_cb|]; simpl; [|done].
  destruct (truthy _); split; intros _; by eexists.
Qed.

Lemma angle_result_is_Some vib lens vals vecs (coords : list (vec3 F)) ang sc :
  is_Some (angle_result vib lens vals vecs coords ang sc)
  ↔ angle_in_range (length coords) ang.
Proof.
  destruct ang as [[a b] c]. unfold angle_result, angle_in_range.
  pose proof (force_constant_angle_is_Some (atom_index a) (atom_index b) (atom_index c)
                lens vals vecs coords sc) as H1.
  pose proof (force_constant_angle_is_Some (atom_index c) (atom_index b) (atom_index a)
                lens vals vecs coords (snd sc, fst sc)) as H2.
  destruct (force_constant_angle (atom_index a) _ _ _ _ _ _ sc) as [[k1 t1]|];
    cbn [mbind option_bind].
  - destruct (force_constant_angle (atom_index c) _ _ _ _ _ _ _) as [[k2 t2]|];
      cbn [mbind option_bind].
    + split; [intros _; apply H1; by eexists | intros _; by eexists].
    + split; [by intros [? ?]|]. intros Hr. destruct H2 as [_ H2].
      destruct H2 as [? ?]; [lia|done].
  - split; [by intros [? ?]|]. intros Hr. destruct H1 as [_ H1].
    destruct H1 as [? ?]; [lia|done].
Qed.

Lemma calculate_angles_is_Some vib (angle_list : list angle) lens vals vecs
    (coords : list (vec3 F)) :
  is_Some (calculate_angles vib angle_list lens vals vecs coords)
  ↔ Forall (angle_in_range (length coords)) angle_list.
Proof.
  - split.
    + intros [res Hres]. unfold calculate_angles in Hres.
      destruct (scaling_store angle_list coords) as [store|]; [|done].
      cbn [mbind option_bind] in Hres. apply mapM_Some in Hres.
      apply Forall_forall. intros ang Hang. apply list_elem_of_lookup in Hang as [i Hi].
      destruct (Forall2_lookup_l _ _ _ i (i, ang) Hres) as (y & _ & Hy).
      { by apply enumerate_lookup. }
      simpl in Hy. destruct (scalings_of store i) as [sc|]; [|done].
      cbn [mbind option_bind] in Hy.
      eapply angle_result_is_Some. by eexists.
    + intros Hall. unfold calculate_angles.
      destruct (scaling_store_in_range angle_list coords Hall) as (content & -> & Hlen).
      cbn [mbind option_bind]. apply mapM_is_Some, Forall_forall.
      intros [i ang] Hin. apply list_elem_of_lookup in Hin as [i' Hin].
      apply enumerate_lookup in Hin as [-> Hi]. simpl.
      assert (angle_list ≠ []) as Hne by (intros ->; done).
      specialize (Hlen Hne).
      destruct (lookup_lt_is_Some_2 content 0) as [s0 Hs0]; [lia|].
      destruct (lookup_lt_is_Some_2 content 1) as [s1 Hs1]; [lia|].
      unfold scalings_of, PyHeap.read. cbn [fst snd].
      rewrite lookup_replicate_2 by (by eapply lookup_lt_Some).
      cbn [mbind option_bind lookup list_lookup]. 
      change ([content] !! 0%nat) with (Some content). cbn [mbind option_bind].
      rewrite Hs0, Hs1. cbn [mbind option_bind].
      apply angle_result_is_Some. rewrite Forall_forall in Hall. apply Hall.
      by eapply list_elem_of_lookup_2.
Qed.

Lemma calculate_angles_length vib (angle_list : list angle) lens vals vecs
    (coords : list (vec3 F)) res :
  calculate_angles vib angle_list lens vals vecs coords = Some res →
  length res = length angle_list.
Proof.
  intros Hres. unfold calculate_angles in Hres.
  destruct (scaling_store angle_list coords) as [store|]; [|done].
  cbn [mbind option_bind] in Hres. apply length_mapM in Hres.
  by rewrite length_enumerate in Hres.
Qed.

(** X10: [calculate_angles] returns (no [IndexError]) exactly when the
    three atoms of every angle of the list are atoms of [coords]; it then
    returns one row per angle.  In particular the two reads
    [scaling_factors_angles_list[i][0]] and [[i][1]] never fail for such a
    list. *)
Theorem calculate_angles_bounds vib (angle_list : list angle) lens vals vecs
    (coords : list (vec3 F)) :
  (is_Some (calculate_angles vib angle_list lens vals vecs coords)
   ↔ Forall (angle_in_range (length coords)) angle_list)
  ∧ ∀ res, calculate_angles vib angle_list lens vals vecs coords = Some res →
           length res = length angle_list.
Proof.
  split; [apply calculate_angles_is_Some | apply calculate_angles_length].
Qed.
End AnglesBounds2.

(** ** [calculate_angles]: the factors handed on *)

Section SharedPair.
Context {F : Type} {N : Num F}.

(** X11: because all slots of [scaling_factors_angles_list] are one
    list ([[[]] * len(angle_list)]), the pair of scalings read for every
    angle [i] consists of the first two factors appended to that list: the
    factors of the first two entries met when the rows of the central atoms
    are walked in order, whatever [i] is. *)
Theorem every_angle_reads_first_two_factors (angle_list : list angle)
    (coords : list (vec3 F)) store :
  scaling_store angle_list coords = Some store →
  let cen := central_atoms_angles (length coords) angle_list in
  ∃ unit_pa factors,
    unit_pa_all_angles cen coords = Some unit_pa
    ∧ scaling_factor_all_angles cen unit_pa = Some factors
    ∧ ∀ i, (i < length angle_list)%nat →
           scalings_of store i =
           (s0 ← fst <$> concat factors !! 0%nat;
            s1 ← fst <$> concat factors !! 1%nat;
            Some (s0, s1)).
Proof.
  intros Hstore cen. unfold scaling_store in Hstore. fold cen in Hstore.
  destruct (unit_pa_all_angles cen coords) as [unit_pa|];
    cbn [mbind option_bind] in Hstore; [|done].
  destruct (scaling_factor_all_angles cen unit_pa) as [factors|] eqn:Hfactors;
    cbn [mbind option_bind] in Hstore; [|done].
  exists unit_pa, factors. split; [done|]. split; [done|].
  intros i Hi. destruct store as [h slots].
  apply scaling_factors_angles_list_shared in Hstore as [-> ->].
  unfold scalings_of, PyHeap.read. cbn [fst snd].
  rewrite lookup_replicate_2 by done. cbn [mbind option_bind].
  change ([map fst (concat factors)] !! 0%nat) with (Some (map fst (concat factors))).
  cbn [mbind option_bind]. by rewrite !list_lookup_fmap.
Qed.
End SharedPair.

Section FactorsR.
Local Open Scope R_scope.

Lemma fold_left_Rplus_nonneg (l : list R) x :
  Forall (fun y => 0 <= y) l → 0 <= x → 0 <= fold_left Rplus l x.
Proof.
  revert x. induction l as [|y l IH]; intros x Hall Hx; simpl; [done|].
  inversion Hall; subst. apply IH; [done|lra].
Qed.

Lemma one_plus_mean_ge_1 (l : list R) :
  Forall (fun y => 0 <= y) l → 1 <= Spec.one_plus_mean l.
Proof.
  intros Hall. destruct l as [|y l]; [simpl; lra|].
  rewrite one_plus_mean_nonempty by done. unfold py_sum.
  assert (0 <= fold_left Rplus (y :: l) 0) as Hs
      by (apply fold_left_Rplus_nonneg; [done|lra]).
  assert (0 < IZR (Z.of_nat (length (y :: l)))) as Hn.
  { apply IZR_lt. simpl. lia. }
  assert (0 <= fold_left Rplus (y :: l) 0 / IZR (Z.of_nat (length (y :: l)))) as Hq.
  { apply Rmult_le_pos; [done|]. left. by apply Rinv_0_lt_compat. }
  change (1 <= 1 + fold_left Rplus (y :: l) 0 / IZR (Z.of_nat (length (y :: l)))).
  lra.
Qed.

(** X12: in exact arithmetic every scaling factor derived in
    [calculate_angles] is at least 1. *)
Theorem scaling_factors_at_least_one (angle_list : list angle) (coords : list (vec3 R))
    unit_pa factors :
  let cen := central_atoms_angles (length coords) angle_list in
  unit_pa_all_angles cen coords = Some unit_pa →
  scaling_factor_all_angles cen unit_pa = Some factors →
  ∀ i j fc, factors !! i ≫= (.!! j) = Some fc → 1 <= fst fc.
Proof.
  intros cen Hupa Hfactors i j fc Hfc.
  unfold unit_pa_all_angles in Hupa. apply mapM_Some in Hupa.
  unfold scaling_factor_all_angles in Hfactors. apply mapM_Some in Hfactors.
  destruct (factors !! i) as [frow|] eqn:Hfrow; [|done]. simpl in Hfc.
  destruct (Forall2_lookup_r _ _ _ _ _ Hfactors Hfrow) as ([i' row] & Hrow & Hm).
  apply enumerate_lookup in Hrow as [-> Hrow]. simpl in Hm.
  destruct (Forall2_lookup_l _ _ _ i (i, row) Hupa) as (upa & Hu & Hmu).
  { by apply enumerate_lookup. }
  rewrite Hu in Hm. simpl in Hm. apply mapM_Some in Hm.
  destruct (Forall2_lookup_r _ _ _ _ _ Hm Hfc) as (j' & Hj & Hs).
  apply lookup_seq in Hj as [-> Hj]. simpl in Hs.
  destruct (lookup_lt_is_Some_2 row j Hj) as [e He].
  rewrite (scaling_factor_visited row upa j e He) in Hs
    by (symmetry; by eapply length_mapM).
  injection Hs as <-. simpl. apply one_plus_mean_ge_1.
  apply Forall_forall. intros y Hy. apply list_elem_of_fmap in Hy as (k & -> & _).
  rewrite contribution_is_squared_dot. apply Rle_0_sqr.
Qed.
End FactorsR.

(** ** [modified_seminario_method] *)

Section MethodGeneric.
Context {F : Type} {N : Num F} {L : Libm F}.
Variable eig : vec3 (vec3 F) → option (@eig_result F).


Lemma eigen_cache_lookup n (hessian : nat → nat → F) cache i j :
  eigen_cache eig n hessian = Some cache → (i < n)%nat → (j < n)%nat →
  cache_lookup cache i j = eig (partial_hessian hessian i j)
  ∧ is_Some (cache_lookup cache i j).
Proof.
  unfold eigen_cache, cache_lookup. intros Hc Hi Hj. apply mapM_Some in Hc.
  destruct (Forall2_lookup_l _ _ _ i i Hc) as (row & -> & Hrow).
  { apply lookup_seq. lia. }
  simpl. simpl in Hrow. apply mapM_Some in Hrow.
  destruct (Forall2_lookup_l _ _ _ j j Hrow) as (r & Hr & Heig).
  { apply lookup_seq. lia. }
  rewrite Hr. split; [done | by eexists].
Qed.

End MethodGeneric.

Section MethodR.
Local Open Scope R_scope.
Variable eig : vec3 (vec3 R) → option (@eig_result R).

Lemma bond_lens_of_sym (coords : list (vec3 R)) i j :
  bond_lens_of coords i j = bond_lens_of coords j i.
Proof.
  unfold bond_lens_of. destruct (coords !! i) as [ci|], (coords !! j) as [cj|]; try done.
  by rewrite (vsub_swap ci cj), norm_vopp.
Qed.

(** X14: in exact arithmetic, when [modified_seminario_method]
    returns, it gives one row per bond and one per angle of the topology;
    the length reported for a bond is the distance of its two atoms (the
    same in both orders), and the row of an angle is [vib_scaling ** 2]
    times the force constant, and the angle, that [force_constant_angle]
    gives for the angle as listed, from the eigenpairs of the blocks of the
    Hessian. *)
Theorem modified_seminario_method_results vib (qm : list (string * vec3 R))
    (hessian : nat → nat → R) edges angles bonds angs :
  modified_seminario_method eig vib qm hessian edges angles = Some (bonds, angs) →
  let coords := coords_of qm in
  length bonds = length edges ∧ length angs = length angles
  ∧ (∀ i a b, edges !! i = Some (a, b) →
       ∃ ca cb,
         coords !! atom_index a = Some ca ∧ coords !! atom_index b = Some cb
         ∧ snd <$> bonds !! i = Some (norm (vsub ca cb))
         ∧ norm (vsub ca cb) = norm (vsub cb ca))
  ∧ ∃ cache,
      eigen_cache eig (length qm) hessian = Some cache
      ∧ ∀ i a b c, angles !! i = Some (a, b, c) →
          ∃ scalings k_theta theta_0,
            force_constant_angle (atom_index a) (atom_index b) (atom_index c)
              (bond_lens_of coords) (eigenvals_of cache) (eigenvecs_of cache)
              coords scalings = Some (k_theta, theta_0)
            ∧ angs !! i = Some (vib * vib * k_theta, theta_0).
Proof.
  unfold modified_seminario_method. cbv zeta. intros H.
  destruct (eigen_cache eig (length qm) hessian) as [cache|];
    cbn [mbind option_bind] in H; [|done].
  destruct (calculate_bonds _ _ _ _ _ _) as [bonds'|] eqn:Hb;
    cbn [mbind option_bind] in H; [|done].
  destruct (calculate_angles _ _ _ _ _ _) as [angs'|] eqn:Ha;
    cbn [mbind option_bind] in H; [|done].
  injection H as -> ->.
  destruct (calculate_bonds_lengths _ _ _ _ _ _ _ Hb) as [Hlb Hlens].
  split; [done|]. split; [by eapply calculate_angles_length|]. split.
  - intros i a b Hi.
    assert (is_Some (calculate_bonds vib edges (bond_lens_of (coords_of qm))
                       (eigenvals_of cache) (eigenvecs_of cache) (coords_of qm))) as Hs
        by (by eexists).
    apply calculate_bonds_is_Some in Hs. rewrite Forall_forall in Hs.
    destruct (Hs (a, b) ltac:(by eapply list_elem_of_lookup_2)) as [Hia Hib].
    simpl in Hia, Hib.
    destruct (lookup_lt_is_Some_2 _ _ Hia) as [ca Hca].
    destruct (lookup_lt_is_Some_2 _ _ Hib) as [cb Hcb].
    exists ca, cb. split; [done|]. split; [done|]. split.
    + rewrite (Hlens i (a, b) Hi). simpl. unfold bond_lens_of. by rewrite Hca, Hcb.
    + by rewrite (vsub_swap ca cb), norm_vopp.
  - exists cache. split; [done|]. intros i a b c Hi.
    unfold calculate_angles in Ha.
    destruct (scaling_store angles (coords_of qm)) as [store|];
      cbn [mbind option_bind] in Ha; [|done].
    apply mapM_Some in Ha.
    destruct (Forall2_lookup_l _ _ _ i (i, (a, b, c)) Ha) as (y & Hy & Hres).
    { by apply enumerate_lookup. }
    cbv beta iota in Hres. destruct (scalings_of store i) as [[s0 s1]|];
      cbn [mbind option_bind] in Hres; [|done].
    rewrite angle_result_forward in Hres by apply bond_lens_of_sym.
    destruct (force_constant_angle _ _ _ _ _ _ _ _) as [[k t]|] eqn:Hf;
      cbn [mbind option_bind] in Hres; [|done].
    exists (s0, s1), k, t. split; [done|]. by rewrite Hy, <- Hres.
Qed.
End MethodR.

(** ** [append_ais_bis]: the tabulated elements *)

Section Elements.
Context {F : Type} {N : Num F}.

Lemma elem_dict_is_Some (s : string) :
  is_Some (@elem_dict F N !! s) ↔ s ∈ supported_elements.
Proof.
  unfold elem_dict, supported_elements. cbn [list_to_map foldr uncurry fst snd].
  rewrite !lookup_insert_is_Some, lookup_empty, is_Some_alt, !elem_of_cons, elem_of_nil.
  split.
  - intros H. repeat (destruct H as [<-|[_ H]]; [tauto|]). done.
  - intros H. repeat (destruct H as [->|H]; [repeat (first [by left | right; split; [done|]])|]).
    done.
Qed.

Context {L : Libm F}.

Lemma ais_bis_is_Some (atom : aim_atom F) :
  is_Some (ais_bis atom) ↔ atom_type atom ∈ supported_elements.
Proof.
  rewrite <- elem_dict_is_Some. unfold ais_bis.
  destruct (elem_dict !! atom_type atom) as [[[vfree bfree] rfree]|]; simpl.
  - split; intros _; by eexists.
  - split; by intros [? ?].
Qed.

Lemma ais_bis_aim (atom : aim_atom F) lj : ais_bis atom = Some lj → aim lj = atom.
Proof.
  unfold ais_bis.
  destruct (elem_dict !! atom_type atom) as [[[vfree bfree] rfree]|]; simpl; [|done].
  by intros [= <-].
Qed.

(** X15: [append_ais_bis] returns exactly when the element of every
    atom is one of the eight keys of [elem_dict] (a [KeyError] otherwise);
    each row of the result extends the row of its atom, and its [a_i] is
    [32 * b_i * r_aim ** 6]. *)
Theorem append_ais_bis_supported (ddec_data : list (aim_atom F)) :
  (is_Some (append_ais_bis ddec_data)
   ↔ Forall (fun atom => atom_type atom ∈ supported_elements) ddec_data)
  ∧ ∀ out, append_ais_bis ddec_data = Some out →
           map aim out = ddec_data
           ∧ Forall (fun lj => a_i lj = of_Z 32 *. b_i lj *. ipow (r_aim lj) 6) out.
Proof.
  unfold append_ais_bis. split.
  - rewrite mapM_is_Some. apply Forall_iff. intros atom. apply ais_bis_is_Some.
  - intros out Hout. apply mapM_Some in Hout. split.
    + induction Hout as [|atom lj d out Hlj _ IH]; simpl; [done|].
      by rewrite (ais_bis_aim _ _ Hlj), IH.
    + induction Hout as [|atom lj d out Hlj _ IH]; constructor; [|done].
      unfold ais_bis in Hlj.
      destruct (elem_dict !! atom_type atom) as [[[vfree bfree] rfree]|]; simpl in Hlj;
        [|done].
      by injection Hlj as <-.
Qed.
End Elements.

(** ** [calculate_sig_eps]: sigma and epsilon of one atom *)

Section SigmaR.
Local Open Scope R_scope.

Lemma elem_dict_positive (s : string) (vfree bfree rfree : R) :
  (elem_dict : gmap string (R * R * R)) !! s = Some (vfree, bfree, rfree) →
  0 < vfree ∧ 0 < bfree ∧ 0 < rfree.
Proof.
  unfold elem_dict. cbn [list_to_map foldr uncurry fst snd].
  rewrite !lookup_insert_Some, lookup_empty. unfold lit. simpl.
  intros H.
  repeat (destruct H as [[_ H]|[_ H]]; [injection H as <- <- <-; repeat split; lra|]).
  done.
Qed.

Lemma ipow_6 (x : R) : ipow x 6 = x ^ 6.
Proof. simpl. ring. Qed.

Lemma Rpower_sixth_of_sixth_power (r : R) : 0 < r → Rpower (r ^ 6) (1 / 6) = r.
Proof.
  intros Hr. rewrite <- (Rpower_pow 6 r Hr), Rpower_mult.
  replace (INR 6 * (1 / 6)) with 1 by (simpl; field).
  by apply Rpower_1.
Qed.

Lemma ais_bis_positive (atom : aim_atom R) (lj : lj_atom R) :
  ais_bis atom = Some lj → 0 < vol atom →
  0 < r_aim lj ∧ 0 < b_i lj ∧ a_i lj = 32 * b_i lj * r_aim lj ^ 6.
Proof.
  unfold ais_bis. intros H Hvol.
  destruct (elem_dict !! atom_type atom) as [[[vfree bfree] rfree]|] eqn:He;
    cbn [mbind option_bind] in H; [|done].
  apply elem_dict_positive in He as (Hv & Hb & Hr).
  injection H as <-. cbn [r_aim b_i a_i].
  assert (0 < vol atom / vfree) as Hq by (by apply Rdiv_lt_0_compat).
  split; [|split].
  - simpl. unfold Rpow. destruct (Req_dec_T _ 0) as [H0|_]; [simpl in Hq; lra|].
    apply Rmult_lt_0_compat; [done|]. unfold Rpower. apply exp_pos.
  - simpl. apply Rmult_lt_0_compat; [done|]. by apply Rmult_lt_0_compat.
  - simpl. ring.
Qed.

(** X16: in exact arithmetic, for an atom of a tabulated element with
    a positive volume, [r_aim] and [b_i] are positive and
    [calculate_sig_eps] computes [sigma = 32 ** (1 / 6) * r_aim *
    sigma_conversion] and [epsilon = b_i / (128 * r_aim ** 6) *
    epsilon_conversion]. *)
Theorem sigma_proportional_to_aim_radius (atom : aim_atom R) (lj : lj_atom R) :
  ais_bis atom = Some lj → 0 < vol atom →
  0 < r_aim lj ∧ 0 < b_i lj
  ∧ sig_eps lj =
    Some (Rpower 32 (1 / 6) * r_aim lj * sigma_conversion,
          b_i lj / (128 * r_aim lj ^ 6) * epsilon_conversion).
Proof.
  intros H Hvol. destruct (ais_bis_positive atom lj H Hvol) as (Hr & Hb & Ha).
  split; [done|]. split; [done|].
  destruct lj as [aim0 r b a]. cbn [r_aim b_i a_i] in Hr, Hb, Ha. subst a.
  assert (0 < r ^ 6) as Hr6 by (by apply pow_lt).
  assert (0 < 32 * b * r ^ 6) as Hpos.
  { apply Rmult_lt_0_compat; [|done]. lra. }
  unfold sig_eps, py_div. cbn [r_aim b_i a_i].
  assert (feqb (32 * b * r ^ 6) (of_Z 0) = false) as ->
      by (apply Reqb_false; simpl; lra).
  assert (feqb b (of_Z 0) = false) as -> by (apply Reqb_false; simpl; lra).
  cbn [mbind option_bind].
  assert (feqb (of_Z 4 *. (32 * b * r ^ 6)) (of_Z 0) = false) as ->
      by (apply Reqb_false; simpl; lra).
  cbn [mbind option_bind]. f_equal. f_equal.
  - f_equal. change (Rpow (32 * b * r ^ 6 / b) (1 / 6) = Rpower 32 (1 / 6) * r).
    unfold Rpow.
    replace (32 * b * r ^ 6 / b) with (32 * r ^ 6) by (field; lra).
    destruct (Req_dec_T (32 * r ^ 6) 0) as [H0|_]; [lra|].
    rewrite <- Rpower_mult_distr by lra.
    by rewrite Rpower_sixth_of_sixth_power.
  - f_equal. change (b * b / (4 * (32 * b * r ^ 6)) = b / (128 * r ^ 6)).
    field. lra.
Qed.
End SigmaR.

(** ** [correct_polar_hydrogens]: the positions of the atoms *)

Section Positions.
Context {F : Type} {N : Num F}.

Lemma index_of_distinct (input : list (@input_atom F)) pos atom :
  distinct_atoms input → input !! pos = Some atom → index_of input pos atom = pos.
Proof.
  intros Hd Hpos. unfold index_of.
  destruct (list_find _ (take pos input)) as [[k x]|] eqn:Hfind; [|done].
  apply list_find_Some in Hfind as (Hk & Heq & _).
  pose proof (lookup_lt_Some _ _ _ Hk) as Hlt. rewrite length_take in Hlt.
  rewrite lookup_take_lt in Hk by lia.
  rewrite (Hd k pos x atom) in Heq; [done|lia|done|done].
Qed.

Lemma fold_left_ext_elem {A B : Type} (f g : B → A → B) (l : list A) (b : B) :
  (∀ b x, x ∈ l → f b x = g b x) → fold_left f l b = fold_left g l b.
Proof.
  revert b. induction l as [|x l IH]; intros b H; simpl; [done|].
  rewrite (H b x) by left. apply IH. intros b' y Hy. apply H. by right.
Qed.

Lemma fold_left_insert_labels (l : list (@input_atom F)) :
  ∀ s (d : gmap positive string) p,
    fold_left (fun d '(pos, atom) => <[Pos.of_succ_nat pos := fst atom]> d)
              (zip (seq s (length l)) l) d !! p
    = if decide (s ≤ atom_index p < s + length l)%nat
      then fst <$> l !! (atom_index p - s)%nat
      else d !! p.
Proof.
  induction l as [|atom l IH]; intros s d p.
  - simpl. rewrite decide_False by lia. done.
  - cbn [length seq zip zip_with fold_left]. rewrite IH.
    destruct (decide (S s ≤ atom_index p < S s + length l)%nat) as [Hin|Hout].
    + rewrite decide_True by (simpl; lia).
      replace (atom_index p - s)%nat with (S (atom_index p - S s)) by lia. done.
    + destruct (decide (atom_index p = s)) as [Hp|Hne].
      * rewrite decide_True by (simpl; lia).
        assert (p = Pos.of_succ_nat s) as ->.
        { unfold atom_index in Hp. lia. }
        rewrite lookup_insert_eq. rewrite Hp, Nat.sub_diag. done.
      * rewrite decide_False by (simpl; lia).
        rewrite lookup_insert_ne; [done|]. unfold atom_index in Hne. lia.
Qed.

Lemma positions_distinct (input : list (@input_atom F)) p :
  distinct_atoms input → positions input !! p = fst <$> input !! atom_index p.
Proof.
  intros Hd.
  assert (positions input =
          fold_left (fun (d : gmap positive string) '((pos, atom) : nat * @input_atom F) =>
                       <[Pos.of_succ_nat pos := fst atom]> d)
                    (enumerate input) ∅) as ->.
  { unfold positions. apply fold_left_ext_elem.
    intros d [pos atom] Hin. apply list_elem_of_lookup in Hin as [i Hi].
    apply enumerate_lookup in Hi as [-> Hi]. by rewrite index_of_distinct. }
  unfold enumerate. rewrite fold_left_insert_labels.
  destruct (decide _) as [Hin|Hout].
  - by rewrite Nat.sub_0_r.
  - rewrite lookup_empty. assert (length input ≤ atom_index p)%nat as Hge by (clear -Hout; lia). by rewrite lookup_ge_None_2.
Qed.

(** X17: when no two atoms of the input are equal, the dictionary
    [positions] built in [correct_polar_hydrogens] maps the label of every
    atom to its element and holds nothing else, and [new_pairs] is built
    (no [KeyError]) exactly when both labels of every edge are labels of
    atoms. *)
Theorem positions_of_distinct_atoms (input : list (@input_atom F)) :
  distinct_atoms input →
  (∀ p, positions input !! p = fst <$> input !! atom_index p)
  ∧ ∀ edges, is_Some (new_pairs input edges)
             ↔ Forall (bond_in_range (length input)) edges.
Proof.
  intros Hd. split; [intros p; by apply positions_distinct|].
  intros edges. unfold new_pairs. rewrite mapM_is_Some. apply Forall_iff.
  intros [p0 p1]. unfold bond_in_range. simpl.
  rewrite !positions_distinct by done.
  rewrite <- !lookup_lt_is_Some.
  destruct (input !! atom_index p0) as [x0|]; simpl.
  - destruct (input !! atom_index p1) as [x1|]; simpl.
    + split; [intros _; split; by eexists | intros _; by eexists].
    + split; [by intros [? ?] | by intros [_ [? ?]]].
  - split; [by intros [? ?] | by intros [[? ?] _]].
Qed.
End Positions.

(** ** [correct_polar_hydrogens]: what is conserved *)

Lemma foldlM_fixed {A B : Type} (f : B → A → option B) (l : list A) (b : B) :
  (∀ x, x ∈ l → f b x = Some b) → foldlM f l b = Some b.
Proof.
  induction l as [|x l IH]; intros H; simpl; [done|].
  rewrite (H x) by left. simpl. apply IH. intros y Hy. apply H. by right.
Qed.

Section NoPolarR.
Local Open Scope R_scope.

Lemma correct_b_a_no_pairs (d : list (lj_atom R)) :
  Forall (fun atom => 0 <= b_i atom ∧ a_i atom = 32 * b_i atom * ipow (r_aim atom) 6) d →
  correct_b_a [] d = Some d.
Proof.
  intros Hall. unfold correct_b_a. cbn [foldlM mbind option_bind]. f_equal.
  rewrite !map_map. induction Hall as [|atom d [Hb Ha] _ IH]; simpl; [done|].
  f_equal; [|done]. destruct atom as [aim0 r b a]. simpl in Hb, Ha. subst a.
  unfold set_a_i, set_b_i. simpl. rewrite sqrt_sqrt by done. done.
Qed.

Lemma update_epsilon_after_sig_eps (nbf : gmap nat (nb_entry R)) pos (atom : lj_atom R)
    sigma epsilon :
  sig_eps atom = Some (sigma, epsilon) →
  nbf !! pos = Some (NbEntry (charge (aim atom)) sigma epsilon) →
  update_epsilon nbf (pos, atom) = Some nbf.
Proof.
  unfold sig_eps, update_epsilon. intros Hse Hpos.
  destruct (feqb (a_i atom) (of_Z 0)).
  - injection Hse as <- <-. rewrite Hpos. cbn [mbind option_bind].
    rewrite lookup_insert_eq. cbn [mbind option_bind]. f_equal.
    rewrite insert_insert_eq. by apply insert_id.
  - destruct (py_div (a_i atom) (b_i atom)) as [q|]; cbn [mbind option_bind] in Hse; [|done].
    destruct (py_div (ipow (b_i atom) 2) (of_Z 4 *. a_i atom)) as [e|];
      cbn [mbind option_bind] in Hse; [|done].
    injection Hse as <- <-. cbn [mbind option_bind]. rewrite Hpos.
    cbn [mbind option_bind]. f_equal. by apply insert_id.
Qed.

(** X18: in exact arithmetic, on a molecule without a polar bond
    (no hydrogen bonded to O, N or S), [correct_polar_hydrogens] run after
    [calculate_sig_eps] changes neither [ddec_data] nor
    [non_bonded_force], provided the rows are as [append_ais_bis] leaves
    them ([a_i = 32 * b_i * r_aim ** 6], [b_i >= 0]). *)
Theorem no_polar_hydrogen_no_change (input : list input_atom) (edges : list bond)
    (ddec_data : list (lj_atom R)) (nbf0 nbf : gmap nat (nb_entry R)) pairs :
  Forall (fun atom => 0 <= b_i atom ∧ a_i atom = 32 * b_i atom * ipow (r_aim atom) 6)
         ddec_data →
  calculate_sig_eps ddec_data nbf0 = Some nbf →
  new_pairs input edges = Some pairs →
  polars pairs = [] →
  correct_polar_hydrogens input edges ddec_data nbf = Some (ddec_data, nbf).
Proof.
  intros Hrows Hsig Hpairs Hpol. unfold correct_polar_hydrogens.
  rewrite Hpairs. cbn [mbind option_bind]. rewrite Hpol.
  rewrite correct_b_a_no_pairs by done. cbn [mbind option_bind].
  apply calculate_sig_eps_spec in Hsig as [_ Hin].
  rewrite foldlM_fixed; [done|].
  intros [pos atom] Hx. apply list_elem_of_lookup in Hx as [i Hx].
  apply enumerate_lookup in Hx as [-> Hx].
  destruct (Hin i atom Hx) as (sigma & epsilon & Hse & Hnbf).
  by eapply update_epsilon_after_sig_eps.
Qed.
End NoPolarR.

Section RootConservation.
Local Open Scope R_scope.

Lemma sum_b_insert (l : list (lj_atom R)) i x atom :
  l !! i = Some atom → sum_b (<[i := set_b_i x atom]> l) = sum_b l - b_i atom + x.
Proof.
  unfold sum_b. revert i. induction l as [|y l IH]; intros [|i]; simpl; try done.
  - intros [= ->]. lra.
  - intros H. rewrite (IH i H). lra.
Qed.

Lemma redistribute_at_sum (d d' : list (lj_atom R)) h son :
  redistribute_at d (h, son) = Some d' → h ≠ son → nonneg_b d →
  sum_b d' = sum_b d ∧ nonneg_b d'.
Proof.
  unfold redistribute_at, nonneg_b. intros H Hne Hpos.
  destruct (d !! son) as [atom_son|] eqn:Hson; cbn [mbind option_bind] in H; [|done].
  destruct (d !! h) as [atom_h|] eqn:Hh; cbn [mbind option_bind] in H; [|done].
  rewrite list_lookup_insert_ne in H by done. rewrite Hh in H.
  cbn [mbind option_bind] in H. injection H as <-.
  pose proof (Forall_lookup_1 _ _ _ _ Hpos Hson) as Hs. simpl in Hs.
  pose proof (Forall_lookup_1 _ _ _ _ Hpos Hh) as Hhh. simpl in Hhh.
  split.
  - rewrite sum_b_insert by (by rewrite list_lookup_insert_ne).
    rewrite sum_b_insert by done. simpl. lra.
  - apply Forall_insert; [apply Forall_insert; [done|]|]; simpl; lra.
Qed.

Lemma foldlM_redistribute_at_sum (hs : list (nat * nat)) :
  ∀ d d' : list (lj_atom R),
    foldlM redistribute_at hs d = Some d' →
    (∀ h son, (h, son) ∈ hs → h ≠ son) → nonneg_b d →
    sum_b d' = sum_b d ∧ nonneg_b d'.
Proof.
  induction hs as [|[h son] hs IH]; intros d d' Hfold Hne Hpos.
  - simpl in Hfold. by injection Hfold as <-.
  - cbn [foldlM] in Hfold.
    destruct (redistribute_at d (h, son)) as [d1|] eqn:Hstep;
      cbn [mbind option_bind] in Hfold; [|done].
    apply redistribute_at_sum in Hstep as [Hsum Hpos1]; [|apply Hne; left|done].
    destruct (IH d1 d' Hfold) as [Hsum' Hpos']; [|done|].
    + intros h' son' Hin. apply Hne. by right.
    + split; [congruence|done].
Qed.

(** X19: in exact arithmetic, [correct_polar_hydrogens] conserves
    the sum over the atoms of the square roots of [b_i], and leaves every
    [b_i] non-negative, when they were so. *)
Theorem polar_correction_conserves_roots (input : list input_atom) (edges : list bond)
    (ddec_data ddec_data' : list (lj_atom R)) (nbf nbf' : gmap nat (nb_entry R)) :
  correct_polar_hydrogens input edges ddec_data nbf = Some (ddec_data', nbf') →
  Forall (fun atom => 0 <= b_i atom) ddec_data →
  total_root_b ddec_data' = total_root_b ddec_data
  ∧ Forall (fun atom => 0 <= b_i atom) ddec_data'.
Proof.
  intros Hcorr Hpos. unfold correct_polar_hydrogens in Hcorr.
  destruct (new_pairs input edges) as [pairs|] eqn:Hpairs;
    cbn [mbind option_bind] in Hcorr; [|done].
  destruct (correct_b_a (polars pairs) ddec_data) as [d1|] eqn:Hba;
    cbn [mbind option_bind] in Hcorr; [|done].
  destruct (foldlM update_epsilon (enumerate d1) nbf) as [nbf1|];
    cbn [mbind option_bind] in Hcorr; [|done].
  injection Hcorr as <- <-.
  apply correct_b_a_rows in Hba as (d2 & Hred & Hb & _).
  apply foldlM_redistribute in Hred.
  2:{ intros pair Hin. apply elem_of_polars in Hin as [_ [Hc|Hc]];
        apply andb_prop in Hc as [_ ->]; by rewrite ?orb_true_r. }
  apply foldlM_redistribute_at_sum in Hred as [Hsum Hpos2].
  2:{ intros h son Hin ->.
      pose proof (polar_bonds_partner_not_hydrogen input edges son son) as Hp.
      unfold Spec.polar_bonds in Hp. rewrite Hpairs in Hp. apply Hp; [done|].
      apply list_elem_of_fmap. by exists (son, son). }
  2:{ unfold nonneg_b. apply Forall_fmap, Forall_forall. intros atom _. simpl.
      apply sqrt_pos. }
  assert (map b_i d1 = map (fun b => b * b) (map b_i d2)) as Hmap.
  { apply list_eq. intros k. change (map b_i d1) with (b_i <$> d1).
    rewrite list_lookup_fmap, Hb.
    change (map (fun b => b * b) (map b_i d2)) with ((fun b => b * b) <$> (b_i <$> d2)).
    by rewrite !list_lookup_fmap. }
  split.
  - unfold total_root_b.
    replace (map (fun atom => sqrt (b_i atom)) d1) with (map sqrt (map b_i d1))
      by (by rewrite map_map).
    rewrite Hmap, map_map.
    replace (map (fun atom => sqrt (b_i atom)) ddec_data)
      with (map b_i (map (fun atom => set_b_i (fsqrt (b_i atom)) atom) ddec_data))
      by (by rewrite map_map).
    fold (sum_b (map (fun atom => set_b_i (fsqrt (b_i atom)) atom) ddec_data)).
    rewrite <- Hsum. unfold sum_b. f_equal. rewrite map_map.
    apply map_ext_Forall. eapply Forall_impl; [exact Hpos2|].
    intros atom Ha. simpl. by apply sqrt_square.
  - apply Forall_forall. intros atom Hin. apply list_elem_of_lookup in Hin as [k Hk].
    specialize (Hb k). rewrite Hk in Hb. simpl in Hb.
    destruct (d2 !! k) as [a2|]; simpl in Hb; [|done]. injection Hb as ->.
    apply Rle_0_sqr.
Qed.
End RootConservation.

(** ** [apply_symmetrisation] with one group *)

Section Symmetrisation.
Context {F : Type} {N : Num F}.

Lemma foldlM_collect (atom_set : list positive) (nbf : gmap nat (nb_entry F)) cs ss es :
  foldlM collect atom_set (nbf, (cs, ss, es)) =
  (entries ← group_entries nbf atom_set;
   Some (nbf, (cs ++ map nb_charge entries, ss ++ map nb_sigma entries,
               es ++ map nb_epsilon entries))).
Proof.
  unfold group_entries. revert cs ss es.
  induction atom_set as [|atom atom_set IH]; intros cs ss es.
  - simpl. by rewrite !app_nil_r.
  - cbn [foldlM mapM].
    destruct (nbf !! atom_index atom) as [e|] eqn:He.
    + assert (collect (nbf, (cs, ss, es)) atom
              = Some (nbf, (cs ++ [nb_charge e], ss ++ [nb_sigma e], es ++ [nb_epsilon e])))
        as -> by (unfold collect; by rewrite He).
      cbn [mbind option_bind]. rewrite IH.
      destruct (mapM _ atom_set) as [entries|]; cbn [mbind option_bind]; [|done].
      simpl. by rewrite <- !app_assoc.
    + assert (collect (nbf, (cs, ss, es)) atom = None) as ->
          by (unfold collect; by rewrite He).
      done.
Qed.

Lemma fold_left_insert_const (atom_set : list positive) (v : nb_entry F)
    (m : gmap nat (nb_entry F)) k :
  fold_left (fun m atom => <[atom_index atom := v]> m) atom_set m !! k
  = if decide (k ∈ atom_index <$> atom_set) then Some v else m !! k.
Proof.
  revert m. induction atom_set as [|atom atom_set IH]; intros m.
  - cbn [fold_left]. destruct (decide _) as [Hin|_]; [|done].
    by apply elem_of_nil in Hin.
  - cbn [fold_left]. rewrite IH. rewrite fmap_cons.
    destruct (decide (k ∈ atom_index <$> atom_set)) as [Hin|Hnin].
    + rewrite decide_True; [done|]. by right.
    + destruct (decide (k = atom_index atom)) as [->|Hne].
      * rewrite lookup_insert_eq, decide_True; [done|]. by left.
      * rewrite lookup_insert_ne by done. rewrite decide_False; [done|].
        intros Hin. apply elem_of_cons in Hin as [?|?]; done.
Qed.

Lemma symmetrise_atom_set_spec (atom_set : list positive) (nbf : gmap nat (nb_entry F))
    cs ss es :
  symmetrise_atom_set (nbf, (cs, ss, es)) atom_set =
  (entries ← group_entries nbf atom_set;
   let charges := cs ++ map nb_charge entries in
   let sigmas := ss ++ map nb_sigma entries in
   let epsilons := es ++ map nb_epsilon entries in
   charge ← mean charges;
   sigma ← mean sigmas;
   epsilon ← mean epsilons;
   Some (fold_left (fun nbf atom => <[atom_index atom := NbEntry charge sigma epsilon]> nbf)
                   atom_set nbf,
         (charges, sigmas, epsilons))).
Proof.
  unfold symmetrise_atom_set. rewrite foldlM_collect.
  by destruct (group_entries nbf atom_set) as [entries|].
Qed.

(** X20: with one symmetry group under a key,
    [apply_symmetrisation] gives every atom of the group the mean charge,
    sigma and epsilon of the group and leaves the entries of all other
    atoms as they are. *)
Theorem single_group_gets_its_mean (atom_set : list positive)
    (nbf nbf' : gmap nat (nb_entry F)) :
  apply_symmetrisation [[atom_set]] nbf = Some nbf' →
  ∃ entries charge sigma epsilon,
    group_entries nbf atom_set = Some entries
    ∧ mean (map nb_charge entries) = Some charge
    ∧ mean (map nb_sigma entries) = Some sigma
    ∧ mean (map nb_epsilon entries) = Some epsilon
    ∧ ∀ k, nbf' !! k =
           if decide (k ∈ atom_index <$> atom_set)
           then Some (NbEntry charge sigma epsilon) else nbf !! k.
Proof.
  unfold apply_symmetrisation, symmetrise_sym_set. cbn [foldlM]. intros H.
  rewrite symmetrise_atom_set_spec in H. cbn [app] in H.
  destruct (group_entries nbf atom_set) as [entries|] eqn:He;
    cbn [mbind option_bind] in H; [|done].
  cbv zeta in H.
  destruct (mean (map nb_charge entries)) as [c|] eqn:Hc;
    cbn [mbind option_bind] in H; [|done].
  destruct (mean (map nb_sigma entries)) as [s|] eqn:Hs;
    cbn [mbind option_bind] in H; [|done].
  destruct (mean (map nb_epsilon entries)) as [e|] eqn:Hee;
    cbn [mbind option_bind fst] in H; [|done].
  injection H as <-. exists entries, c, s, e.
  do 4 (split; [done|]). intros k. apply fold_left_insert_const.
Qed.
End Symmetrisation.

Section SymmetrisationR.
Local Open Scope R_scope.

Lemma mean_R (l : list R) :
  mean l = if decide (l = []) then None else Some (py_sum l / INR (length l)).
Proof.
  unfold mean, py_div. rewrite <- INR_IZR_INZ. destruct l as [|x l].
  - simpl. assert (Reqb 0 0 = true) as -> by (by apply Reqb_true). done.
  - rewrite decide_False by done.
    assert (feqb (INR (length (x :: l))) (of_Z 0) = false) as ->; [|done].
    apply Reqb_false. simpl of_Z. apply not_0_INR. simpl. lia.
Qed.

Lemma fold_left_Rplus_replicate n (c x : R) :
  fold_left Rplus (replicate n c) x = x + INR n * c.
Proof.
  revert x. induction n as [|n IH]; intros x.
  - simpl. ring.
  - cbn [replicate fold_left]. rewrite IH, S_INR. ring.
Qed.

Lemma mean_replicate n (c : R) : (0 < n)%nat → mean (replicate n c) = Some c.
Proof.
  intros Hn. rewrite mean_R. destruct n as [|n]; [lia|]. rewrite decide_False by done.
  f_equal. unfold py_sum. simpl add. simpl of_Z. rewrite fold_left_Rplus_replicate.
  rewrite length_replicate. field. apply not_0_INR. lia.
Qed.

Lemma group_entries_is_Some (nbf : gmap nat (nb_entry R)) atom_set :
  is_Some (group_entries nbf atom_set)
  ↔ Forall (fun atom => is_Some (nbf !! atom_index atom)) atom_set.
Proof. unfold group_entries. by rewrite mapM_is_Some. Qed.

Lemma group_entries_const (nbf : gmap nat (nb_entry R)) atom_set v :
  (∀ atom, atom ∈ atom_set → nbf !! atom_index atom = Some v) →
  group_entries nbf atom_set = Some (replicate (length atom_set) v).
Proof.
  unfold group_entries. induction atom_set as [|atom atom_set IH]; intros H; [done|].
  cbn [mapM]. rewrite (H atom) by left. cbn [mbind option_bind].
  rewrite IH by (intros a Ha; apply H; by right). done.
Qed.

(** X21: in exact arithmetic, with one symmetry group under a key,
    [apply_symmetrisation] returns exactly when the group is not empty
    (else a [ZeroDivisionError]) and all its atoms have an entry (else a
    [KeyError]); applying it again changes nothing, and the total charge
    of the group is conserved. *)
Theorem single_group_symmetrisation_R (atom_set : list positive)
    (nbf : gmap nat (nb_entry R)) :
  (is_Some (apply_symmetrisation [[atom_set]] nbf)
   ↔ atom_set ≠ [] ∧ Forall (fun atom => is_Some (nbf !! atom_index atom)) atom_set)
  ∧ ∀ nbf', apply_symmetrisation [[atom_set]] nbf = Some nbf' →
      apply_symmetrisation [[atom_set]] nbf' = Some nbf'
      ∧ ∃ before after,
          group_entries nbf atom_set = Some before
          ∧ group_entries nbf' atom_set = Some after
          ∧ py_sum (map nb_charge after) = py_sum (map nb_charge before).
Proof.
  assert (∀ m : gmap nat (nb_entry R),
            apply_symmetrisation [[atom_set]] m =
            (entries ← group_entries m atom_set;
             charge ← mean (map nb_charge entries);
             sigma ← mean (map nb_sigma entries);
             epsilon ← mean (map nb_epsilon entries);
             Some (fold_left
                     (fun nbf atom => <[atom_index atom := NbEntry charge sigma epsilon]> nbf)
                     atom_set m))) as Hsym.
  { intros m. unfold apply_symmetrisation, symmetrise_sym_set. cbn [foldlM].
    rewrite symmetrise_atom_set_spec. cbn [app].
    destruct (group_entries m atom_set) as [entries|]; cbn [mbind option_bind]; [|done].
    cbv zeta.
    destruct (mean (map nb_charge entries)) as [c|]; cbn [mbind option_bind]; [|done].
    destruct (mean (map nb_sigma entries)) as [s|]; cbn [mbind option_bind]; [|done].
    by destruct (mean (map nb_epsilon entries)) as [e|]. }
  split.
  - rewrite Hsym, <- group_entries_is_Some.
    destruct (group_entries nbf atom_set) as [entries|] eqn:He; cbn [mbind option_bind].
    2:{ split; [by intros [? ?] | by intros [_ [? ?]]]. }
    pose proof (length_mapM _ _ _ He) as Hlen.
    rewrite !mean_R.
    destruct atom_set as [|atom atom_set].
    + destruct entries; [|done]. simpl. split; [by intros [? ?] | by intros [? _]].
    + destruct entries as [|e0 entries]; [done|]. simpl.
      split; [intros _; split; [done | by eexists] | intros _; by eexists].
  - intros nbf' H. rewrite Hsym in H.
    destruct (group_entries nbf atom_set) as [entries|] eqn:He;
      cbn [mbind option_bind] in H; [|done].
    destruct (mean (map nb_charge entries)) as [c|] eqn:Hc;
      cbn [mbind option_bind] in H; [|done].
    destruct (mean (map nb_sigma entries)) as [s|] eqn:Hs;
      cbn [mbind option_bind] in H; [|done].
    destruct (mean (map nb_epsilon entries)) as [e|] eqn:Hee;
      cbn [mbind option_bind] in H; [|done].
    injection H as <-.
    set (v := NbEntry c s e).
    set (nbf' := fold_left (fun nbf atom => <[atom_index atom := v]> nbf) atom_set nbf).
    assert (∀ atom, atom ∈ atom_set → nbf' !! atom_index atom = Some v) as Hin.
    { intros atom Ha. unfold nbf'. rewrite fold_left_insert_const, decide_True; [done|].
      by apply list_elem_of_fmap_2. }
    pose proof (group_entries_const nbf' atom_set v Hin) as He'.
    pose proof (length_mapM _ _ _ He) as Hlen.
    assert (entries ≠ []) as Hne.
    { intros ->. rewrite mean_R in Hc. simpl in Hc. done. }
    assert (0 < length atom_set)%nat as Hpos.
    { rewrite Hlen. destruct entries; [done|simpl; lia]. }
    split.
    + rewrite Hsym, He'. cbn [mbind option_bind].
      change (@map) with (@fmap list _). rewrite !fmap_replicate.
      rewrite !mean_replicate by done.
      cbn [mbind option_bind]. f_equal. apply map_eq. intros k.
      rewrite fold_left_insert_const. fold v.
      destruct (decide (k ∈ atom_index <$> atom_set)) as [Hk|]; [|done].
      apply list_elem_of_fmap in Hk as (atom & -> & Ha). symmetry. by apply Hin.
    + exists entries, (replicate (length atom_set) v). split; [done|]. split; [done|].
      change (map nb_charge (replicate (length atom_set) v))
        with (nb_charge <$> replicate (length atom_set) v).
      rewrite fmap_replicate. unfold py_sum. simpl add. simpl of_Z.
      rewrite fold_left_Rplus_replicate. simpl nb_charge.
      rewrite mean_R, decide_False in Hc.
      2:{ intros Hnil. apply Hne. by destruct entries. }
      injection Hc as <-. rewrite length_map, <- Hlen. unfold py_sum. simpl add. simpl of_Z.
      field. apply not_0_INR. lia.
Qed.
End SymmetrisationR.

(** ** [extract_extra_sites]: the local frame *)

Section SiteFrameR.
Local Open Scope R_scope.

Lemma dot_normalised (v : vec3 R) :
  v ≠ V3 0 0 0 → dot (vdiv v (sqrt (dot v v))) (vdiv v (sqrt (dot v v))) = 1.
Proof.
  intros Hv. change (sqrt (dot v v)) with (norm v).
  assert (norm v ≠ 0) as Hn by (by rewrite norm_eq_0).
  rewrite dot_vdiv_l, dot_vdiv_r, <- norm_sq. by field.
Qed.

Lemma cross_zero_l (u : vec3 R) : cross (V3 0 0 0) u = V3 0 0 0.
Proof. unfold cross. simpl. apply vec3_eq_R; simpl; ring. Qed.

(** Two orthogonal unit vectors and their cross product resolve every
    vector. *)
Lemma frame_complete (x z d : vec3 R) :
  dot x x = 1 → dot z z = 1 → dot z x = 0 →
  vadd (vadd (vscale_l (dot d x) x) (vscale_l (dot d (cross z x)) (cross z x)))
       (vscale_l (dot d z) z) = d.
Proof.
  destruct x as [x1 x2 x3], z as [z1 z2 z3], d as [d1 d2 d3].
  unfold dot, cross, vadd, vscale_l, vmap. simpl. intros Hx Hz Hzx.
  f_equal; nsatz.
Qed.

(** X22: in exact arithmetic, when the parent atom and its two
    closest atoms are not on one line, the local frame built in
    [extract_extra_sites] has its origin at the parent, its three
    directions are orthogonal unit vectors, and the coordinates stored for
    a site, multiplied by 10 again, give back the position of the site. *)
Theorem site_frame_orthonormal (parent_pos close_a close_b v_pos : vec3 R) :
  cross (vsub close_a parent_pos) (vsub close_b parent_pos) ≠ V3 0 0 0 →
  let '(orig, x_dir, y_dir, z_dir) := site_frame parent_pos close_a close_b in
  let p := site_local_coords parent_pos close_a close_b v_pos in
  orig = parent_pos
  ∧ dot x_dir x_dir = 1 ∧ dot y_dir y_dir = 1 ∧ dot z_dir z_dir = 1
  ∧ dot x_dir y_dir = 0 ∧ dot y_dir z_dir = 0 ∧ dot z_dir x_dir = 0
  ∧ vadd orig (vadd (vadd (vscale_l (10 * vx p) x_dir) (vscale_l (10 * vy p) y_dir))
                    (vscale_l (10 * vz p) z_dir)) = v_pos.
Proof.
  intros Hc. unfold site_local_coords, site_frame. cbv zeta.
  assert (vadd (vadd (vscale_l w1o parent_pos) (vscale_l w2o close_a))
               (vscale_r close_b w3o) = parent_pos) as ->.
  { unfold vadd, vscale_l, vscale_r, vmap, w1o, w2o, w3o. simpl.
    apply vec3_eq_R; simpl; ring. }
  assert (vadd (vadd (vscale_l w1x parent_pos) (vscale_l w2x close_a))
               (vscale_l w3x close_b) = vsub close_a parent_pos) as ->.
  { unfold vadd, vscale_l, vmap, vsub, w1x, w2x, w3x. simpl.
    apply vec3_eq_R; simpl; ring. }
  assert (vadd (vadd (vscale_l w1y parent_pos) (vscale_l w2y close_a))
               (vscale_l w3y close_b) = vsub close_b parent_pos) as ->.
  { unfold vadd, vscale_l, vmap, vsub, w1y, w2y, w3y. simpl.
    apply vec3_eq_R; simpl; ring. }
  set (u := vsub close_a parent_pos) in Hc |- * .
  set (w := vsub close_b parent_pos) in Hc |- * .
  assert (u ≠ V3 0 0 0) as Hu.
  { intros H0. apply Hc. rewrite H0. apply cross_zero_l. }
  set (z := vdiv (cross u w) (fsqrt (dot (cross u w) (cross u w)))).
  set (x := vdiv u (fsqrt (dot u u))).
  assert (dot x x = 1) as Hx by (by apply dot_normalised).
  assert (dot z z = 1) as Hz by (by apply dot_normalised).
  assert (dot z x = 0) as Hzx.
  { unfold z, x. rewrite dot_vdiv_l, dot_vdiv_r, dot_cross_l. unfold Rdiv. ring. }
  assert (dot (cross z x) (cross z x) = 1) as Hy.
  { rewrite dot_cross_cross, Hx, Hz, Hzx. ring. }
  split; [done|]. split; [done|]. split; [done|]. split; [done|].
  split; [by rewrite dot_comm, dot_cross_r|].
  split; [by rewrite dot_cross_l|]. split; [done|].
  cbn [vx vy vz].
  assert (∀ t : R, 10 * (t /. of_Z 10) = t) as H10 by (intros t; simpl; field).
  rewrite !H10.
  rewrite (frame_complete x z (vsub v_pos parent_pos) Hx Hz Hzx).
  unfold vadd, vsub. simpl. apply vec3_eq_R; simpl; ring.
Qed.
End SiteFrameR.

(** ** [extract_extra_sites]: the charges of the parents *)

Section Sites.
Context {F : Type} {N : Num F}.

Lemma take_site_charge_spec (nbf nbf1 : gmap nat (nb_entry F)) (value : @site F) :
  take_site_charge nbf value = Some nbf1 →
  ∃ e, nbf !! site_parent value = Some e
       ∧ nbf1 = <[site_parent value :=
                    NbEntry (nb_charge e -. site_charge value) (nb_sigma e) (nb_epsilon e)]> nbf.
Proof.
  unfold take_site_charge, site_parent.
  destruct (nbf !! (site_atoms value).1.1) as [e|]; cbn [mbind option_bind]; [|done].
  intros [= <-]. by exists e.
Qed.

Lemma take_site_charges_lookup (sites : list (@site F)) :
  ∀ nbf nbf' : gmap nat (nb_entry F),
    take_site_charges sites nbf = Some nbf' →
    ∀ k, nbf' !! k =
         (fun e => NbEntry (fold_left sub (site_charges_of k sites) (nb_charge e))
                           (nb_sigma e) (nb_epsilon e)) <$> nbf !! k.
Proof.
  unfold take_site_charges.
  induction sites as [|value sites IH]; intros nbf nbf' H k.
  - simpl in H. injection H as <-. unfold site_charges_of. simpl.
    destruct (nbf !! k) as [[c s e]|]; done.
  - cbn [foldlM] in H.
    destruct (take_site_charge nbf value) as [nbf1|] eqn:Hstep;
      cbn [mbind option_bind] in H; [|done].
    apply take_site_charge_spec in Hstep as (e & He & ->).
    rewrite (IH _ _ H k). unfold site_charges_of. rewrite filter_cons.
    destruct (decide (site_parent value = k)) as [<-|Hne].
    + rewrite lookup_insert_eq, He. done.
    + by rewrite lookup_insert_ne.
Qed.

Lemma take_site_charges_is_Some (sites : list (@site F)) :
  ∀ nbf : gmap nat (nb_entry F),
    is_Some (take_site_charges sites nbf)
    ↔ Forall (fun value => is_Some (nbf !! site_parent value)) sites.
Proof.
  unfold take_site_charges.
  induction sites as [|value sites IH]; intros nbf.
  - simpl. split; [by constructor | by eexists].
  - cbn [foldlM]. rewrite Forall_cons.
    destruct (take_site_charge nbf value) as [nbf1|] eqn:Hstep; cbn [mbind option_bind].
    + apply take_site_charge_spec in Hstep as (e & He & ->).
      rewrite IH. split.
      * intros Hall. split; [by eexists|]. eapply Forall_impl; [exact Hall|].
        intros v. simpl. rewrite lookup_insert_is_Some.
        intros [<-|[_ ?]]; [by eexists | done].
      * intros [_ Hall]. eapply Forall_impl; [exact Hall|].
        intros v. simpl. rewrite lookup_insert_is_Some.
        destruct (decide (site_parent value = site_parent v)); [by left | by right].
    + split; [by intros [? ?]|]. intros [[e He] _].
      unfold take_site_charge in Hstep. fold (site_parent value) in Hstep.
      by rewrite He in Hstep.
Qed.

(** X23: the last loop of [extract_extra_sites] returns exactly when
    the parent of every site has an entry in [non_bonded_force]; the charge
    of every atom is then its charge less the charges of its sites,
    subtracted in the order of the sites, and sigma and epsilon are
    untouched. *)
Theorem site_charges_leave_parents (sites : list (@site F)) (nbf : gmap nat (nb_entry F)) :
  (is_Some (take_site_charges sites nbf)
   ↔ Forall (fun value => is_Some (nbf !! site_parent value)) sites)
  ∧ ∀ nbf', take_site_charges sites nbf = Some nbf' →
      ∀ k, nbf' !! k =
           (fun e => NbEntry (fold_left sub (site_charges_of k sites) (nb_charge e))
                             (nb_sigma e) (nb_epsilon e)) <$> nbf !! k.
Proof.
  split; [apply take_site_charges_is_Some | apply take_site_charges_lookup].
Qed.
End Sites.

(** ** [Gaussian.hessian] *)

Lemma tri_S i : tri (S i) = (tri i + S i)%nat.
Proof.
  unfold tri. replace (S i * (S i + 1))%nat with (i * (i + 1) + S i * 2)%nat by lia.
  by rewrite Nat.div_add.
Qed.

Lemma foldlM_app {A B : Type} (f : B → A → option B) (l1 l2 : list A) (b : B) :
  foldlM f (l1 ++ l2) b = (b' ← foldlM f l1 b; foldlM f l2 b').
Proof.
  revert b. induction l1 as [|x l1 IH]; intros b; simpl; [done|].
  destruct (f b x) as [b1|]; simpl; [apply IH | done].
Qed.

Section GaussianFill.
Context {F : Type} {N : Num F}.
Import Gaussian.

Lemma cell_set_at (h : list (list F)) i j x a b :
  cell (set_at h i j x) a b
  = if decide (a = i ∧ b = j) then (cell h a b ≫= λ _, Some x) else cell h a b.
Proof.
  unfold cell, set_at. destruct (decide (a = i)) as [->|Hne].
  - destruct (h !! i) as [row|] eqn:Hrow.
    + rewrite list_lookup_alter_eq, Hrow. simpl.
      destruct (decide (b = j)) as [->|Hb].
      * rewrite decide_True by done.
        destruct (row !! j) as [y|] eqn:Hy; simpl.
        -- apply list_lookup_insert_eq. by eapply lookup_lt_Some.
        -- apply lookup_ge_None. rewrite length_insert. by apply lookup_ge_None.
      * rewrite decide_False by tauto. by rewrite list_lookup_insert_ne.
    + rewrite list_lookup_alter_eq, Hrow. simpl. by destruct (decide _).
  - rewrite list_lookup_alter_ne by done. rewrite decide_False by tauto. done.
Qed.

(** The inner loop over [j = 0, ..., c - 1] for row [i]. *)
Lemma fill_row (l : list F) i (h : list (list F)) m c :
  (m + c ≤ length l)%nat →
  ∃ h', foldlM (fill_step l i) (seq 0 c) (h, m) = Some (h', (m + c)%nat)
        ∧ ∀ a b, cell h' a b =
                 if decide ((a = i ∧ b < c) ∨ (b = i ∧ a < c))%nat
                 then cell h a b ≫= λ _, l !! (m + (if decide (a = i) then b else a))%nat
                 else cell h a b.
Proof.
  induction c as [|c IH]; intros Hlen.
  - exists h. simpl. split; [by rewrite Nat.add_0_r|].
    intros a b. rewrite decide_False by lia. done.
  - destruct IH as (h1 & Hfold & Hcells); [lia|].
    rewrite seq_S, foldlM_app, Hfold. cbn [mbind option_bind foldlM plus].
    unfold fill_step at 1.
    destruct (lookup_lt_is_Some_2 l (m + c)%nat) as [x Hx]; [lia|].
    rewrite Hx. cbn [mbind option_bind].
    eexists. split; [do 2 f_equal; lia|].
    intros a b. rewrite !cell_set_at, Hcells.
    destruct (decide (a = i)) as [->|Hai].
    + destruct (decide (b = c)) as [->|Hbc].
      * destruct (decide (i = c)) as [->|Hic].
        -- rewrite !decide_True by lia. rewrite decide_False by lia.
           rewrite decide_True by lia. by destruct (cell h c c).
        -- rewrite (decide_False (P := i = c ∧ c = i)) by lia.
           rewrite (decide_True (P := i = i ∧ c = c)) by lia.
           rewrite (decide_False (P := _ ∨ _)) by lia.
           rewrite decide_True by lia. by destruct (cell h i c).
      * rewrite (decide_False (P := i = c ∧ b = i)) by lia.
        rewrite (decide_False (P := i = i ∧ b = c)) by lia.
        destruct (decide (b < c)%nat) as [Hlt|Hge].
        -- rewrite !decide_True by lia. done.
        -- rewrite !decide_False by lia. done.
    + rewrite (decide_False (P := a = i ∧ b = c)) by lia.
      destruct (decide (a = c ∧ b = i)) as [[-> ->]|Hne].
      * rewrite (decide_False (P := _ ∨ _)) by lia.
        rewrite decide_True by lia. by destruct (cell h c i).
      * destruct (decide (b = i ∧ a < c)%nat) as [[-> Hlt]|Hn2].
        -- rewrite !decide_True by lia. done.
        -- rewrite !decide_False by lia. done.
Qed.

Lemma fill_row_short (l : list F) i (h : list (list F)) m c :
  (length l < m + S c)%nat → foldlM (fill_step l i) (seq 0 (S c)) (h, m) = None.
Proof.
  induction c as [|c IH]; intros Hlen.
  - cbn [seq foldlM]. unfold fill_step. rewrite lookup_ge_None_2 by lia. done.
  - rewrite seq_S, foldlM_app.
    destruct (decide (length l < m + S c)%nat) as [Hlt|Hge].
    + by rewrite IH.
    + destruct (fill_row l i h m (S c)) as (h1 & -> & _); [lia|].
      cbn [mbind option_bind foldlM]. unfold fill_step.
      rewrite lookup_ge_None_2 by lia. done.
Qed.

Lemma cell_zeros n (z : F) a b :
  cell (replicate n (replicate n z)) a b
  = if decide (a < n ∧ b < n)%nat then Some z else None.
Proof.
  unfold cell. destruct (decide (a < n)%nat) as [Ha|Ha].
  - rewrite lookup_replicate_2 by done. simpl.
    destruct (decide (b < n)%nat) as [Hb|Hb].
    + rewrite lookup_replicate_2 by done. by rewrite decide_True.
    + rewrite (proj1 (lookup_replicate_None n z b)) by lia. by rewrite decide_False by lia.
  - rewrite (proj1 (lookup_replicate_None n (replicate n z) a)) by lia. simpl.
    by rewrite decide_False by lia.
Qed.

Lemma fill_rows_ok (l : list F) (h0 : list (list F)) i :
  (tri i ≤ length l)%nat →
  ∃ h', fill_rows l i (h0, 0%nat) = Some (h', tri i)
        ∧ ∀ a b, cell h' a b =
                 if decide (a < i ∧ b < i)%nat
                 then cell h0 a b ≫= λ _, l !! (tri (a `max` b) + a `min` b)%nat
                 else cell h0 a b.
Proof.
  unfold fill_rows. induction i as [|i IH]; intros Hlen.
  - exists h0. split; [done|]. intros a b. by rewrite decide_False by lia.
  - rewrite tri_S in Hlen. destruct IH as (h1 & Hfold & Hcells); [lia|].
    rewrite seq_S, foldlM_app, Hfold. cbn [mbind option_bind foldlM plus].
    destruct (fill_row l i h1 (tri i) (i + 1)) as (h2 & -> & Hrow); [lia|].
    cbn [mbind option_bind]. exists h2. split; [by rewrite tri_S, Nat.add_1_r|].
    intros a b. rewrite Hrow, Hcells.
    destruct (decide ((a = i ∧ b < i + 1) ∨ (b = i ∧ a < i + 1))%nat) as [Hin|Hout].
    + rewrite (decide_False (P := (a < i ∧ b < i)%nat)) by lia.
      rewrite (decide_True (P := (a < S i ∧ b < S i)%nat)) by lia.
      destruct (cell h0 a b); [|done]. simpl. f_equal.
      destruct (decide (a = i)) as [->|Hne].
      * rewrite Nat.max_l, Nat.min_r by lia. done.
      * rewrite Nat.max_r, Nat.min_l by lia. f_equal. f_equal. lia.
    + destruct (decide (a < i ∧ b < i)%nat) as [Hlt|Hge].
      * by rewrite (decide_True (P := (a < S i ∧ b < S i)%nat)) by lia.
      * by rewrite (decide_False (P := (a < S i ∧ b < S i)%nat)) by lia.
Qed.

Lemma fill_rows_short (l : list F) (h0 : list (list F)) i :
  (length l < tri i)%nat → fill_rows l i (h0, 0%nat) = None.
Proof.
  induction i as [|i IH]; intros Hlen; [unfold tri in Hlen; simpl in Hlen; lia|].
  unfold fill_rows. rewrite seq_S, foldlM_app. fold (fill_rows l i (h0, 0%nat)).
  destruct (decide (length l < tri i)%nat) as [Hlt|Hge].
  - by rewrite IH.
  - destruct (fill_rows_ok l h0 i) as (h1 & -> & _); [lia|].
    cbn [mbind option_bind foldlM plus]. rewrite tri_S in Hlen.
    rewrite Nat.add_1_r, fill_row_short by lia. done.
Qed.

Lemma fill_symmetric_cells (n : nat) (l : list F) :
  (is_Some (fill_symmetric n l) ↔ (tri n ≤ length l)%nat)
  ∧ ∀ h, fill_symmetric n l = Some h →
      ∀ a b, cell h a b =
             if decide (a < n ∧ b < n)%nat
             then l !! (tri (a `max` b) + a `min` b)%nat else None.
Proof.
  unfold fill_symmetric. cbv zeta.
  fold (fill_rows l n (replicate n (replicate n (of_Z 0)), 0%nat)).
  destruct (decide (tri n ≤ length l)%nat) as [Hle|Hgt].
  - destruct (fill_rows_ok l (replicate n (replicate n (of_Z 0))) n Hle)
      as (h' & -> & Hcells).
    cbn [mbind option_bind fst]. split; [split; [done | by eexists]|].
    intros h [= <-] a b. rewrite Hcells, cell_zeros.
    destruct (decide (a < n ∧ b < n)%nat); done.
  - rewrite fill_rows_short by lia. cbn [mbind option_bind].
    split; [split; [by intros [? ?] | lia] | done].
Qed.

Section Whole.
Variable floats_of_line : string → option (list F).

(** X24: the loops of [Gaussian.hessian] that fill the array return
    exactly when the list read from the file holds at least
    [n * (n + 1) / 2] numbers, [n = 3 * len(molecule)] (an [IndexError]
    otherwise); the array returned is symmetric, and for [j <= i] its
    entries [[i, j]] and [[j, i]] are number [i * (i + 1) / 2 + j] of the
    list. *)
Theorem gaussian_hessian_is_symmetric (lines : list string) (n_atoms : nat) :
  (∀ l, is_Some (fill_symmetric (3 * n_atoms) l)
        ↔ (tri (3 * n_atoms) ≤ length l)%nat)
  ∧ ∀ h, hessian floats_of_line lines n_atoms = Some h →
      ∃ l, hessian_list floats_of_line lines = Some l
           ∧ (tri (3 * n_atoms) ≤ length l)%nat
           ∧ (∀ i j, (j ≤ i < 3 * n_atoms)%nat →
                     cell h i j = l !! (tri i + j)%nat ∧ cell h j i = l !! (tri i + j)%nat)
           ∧ ∀ a b, cell h a b = cell h b a.
Proof.
  split; [intros l; apply fill_symmetric_cells|].
  intros h Hh. unfold hessian in Hh.
  destruct (hessian_list floats_of_line lines) as [l|]; cbn [mbind option_bind] in Hh;
    [|done].
  exists l. split; [done|].
  destruct (fill_symmetric_cells (3 * n_atoms) l) as [Hsome Hcells].
  split; [apply Hsome; by eexists|].
  specialize (Hcells h Hh). split.
  - intros i j Hij. rewrite !Hcells, !decide_True by lia.
    rewrite Nat.max_l, Nat.min_r, Nat.max_r, Nat.min_l by lia. done.
  - intros a b. rewrite !Hcells, (Nat.max_comm b a), (Nat.min_comm b a).
    destruct (decide (a < 3 * n_atoms ∧ b < 3 * n_atoms)%nat).
    + by rewrite decide_True by lia.
    + by rewrite decide_False by lia.
Qed.
End Whole.
End GaussianFill.

(** ** [PSI4.hessian] *)

Section PSI4Reshape.
Context {F : Type}.
Import PSI4.

Lemma extra_cases n :
  (extra n = 0 ∧ n mod 5 = 0 ∨ extra n = 1 ∧ 0 < n mod 5)%nat.
Proof. unfold extra. destruct (n mod 5 =? 0)%nat eqn:E; [left|right].
  - apply Nat.eqb_eq in E. done.
  - apply Nat.eqb_neq in E. lia.
Qed.

Lemma col_blocks_ceiling n :
  (0 < n)%nat → (5 * (col_blocks n - 1) < n ≤ 5 * col_blocks n)%nat.
Proof.
  intros Hn. unfold col_blocks. pose proof (Nat.div_mod_eq n 5) as Hdm.
  pose proof (Nat.mod_upper_bound n 5 ltac:(lia)) as Hm.
  destruct (extra_cases n) as [[-> H0]|[-> H1]]; lia.
Qed.

Lemma reshaped_row_is_Some (n : nat) (hess_vals : list (list F)) r :
  is_Some (mapM (fun col_block => hess_vals !! (r + col_block * n)%nat)
                (seq 0 (n / 5 + extra n)))
  ↔ ∀ cb, (cb < col_blocks n)%nat → (r + cb * n < length hess_vals)%nat.
Proof.
  rewrite mapM_is_Some, Forall_forall. unfold col_blocks. split.
  - intros H cb Hcb. apply lookup_lt_is_Some. apply H. apply elem_of_seq. lia.
  - intros H cb Hcb. apply elem_of_seq in Hcb. apply lookup_lt_is_Some. apply H. lia.
Qed.

Lemma concat_uniform_lookup {A : Type} (ls : list (list A)) w k j l :
  (∀ i li, (i < k)%nat → ls !! i = Some li → length li = w) →
  ls !! k = Some l → (j < length l)%nat →
  concat ls !! (k * w + j)%nat = l !! j.
Proof.
  revert k. induction ls as [|l0 ls IH]; intros k Hw Hk Hj; [done|].
  destruct k as [|k]; simpl in Hk.
  - injection Hk as ->. simpl. by rewrite lookup_app_l.
  - simpl. rewrite lookup_app_r.
    + rewrite (Hw 0%nat l0) by (done || lia).
      replace (w + k * w + j - w)%nat with (k * w + j)%nat by lia.
      apply IH; [|done|done]. intros i li Hi Hli. apply (Hw (S i)); [lia|done].
    + rewrite (Hw 0%nat l0) by (done || lia). lia.
Qed.

Lemma concat_uniform_length {A : Type} (ls : list (list A)) w :
  Forall (fun l => length l = w) ls → length (concat ls) = (length ls * w)%nat.
Proof. induction 1 as [|l ls Hl _ IH]; simpl; [done|]. rewrite length_app. lia. Qed.

(** X25: for a Hessian of size [n > 0], [hess_length] in
    [PSI4.hessian] is the number of lines of [ceil(n / 5)] blocks of [n]
    rows, separated by 3 lines; the reshaping returns exactly when
    [hess_vals] holds at least [ceil(n / 5) * n] rows (an [IndexError]
    otherwise), and when the rows of the blocks have 5 numbers (those of
    the last block [n mod 5], if that is not 0) the result is [n x n] with
    entry [[r, c]] the number [c mod 5] of row [r + (c // 5) * n]. *)
Theorem psi4_reshaped_layout (n : nat) (hess_vals : list (list F)) :
  (0 < n)%nat →
  (hess_length n = Z.of_nat (col_blocks n * n + 3 * (col_blocks n - 1))
   ∧ 5 * (col_blocks n - 1) < n ≤ 5 * col_blocks n)%nat
  ∧ (is_Some (reshaped n hess_vals) ↔ (col_blocks n * n ≤ length hess_vals)%nat)
  ∧ ∀ m, reshaped n hess_vals = Some m →
      (∀ r cb row, (r < n)%nat → (cb < col_blocks n)%nat →
         hess_vals !! (r + cb * n)%nat = Some row →
         length row = if (cb <? n / 5)%nat then 5%nat else (n mod 5)%nat) →
      length m = n
      ∧ ∀ r row, m !! r = Some row →
          length row = n
          ∧ ∀ c, (c < n)%nat → row !! c = cell hess_vals (r + (c / 5) * n) (c mod 5).
Proof.
  intros Hn. pose proof (col_blocks_ceiling n Hn) as Hceil.
  split; [split; [|done]|split].
  - unfold hess_length, col_blocks. cbv zeta.
    replace (Z.of_nat n / 5)%Z with (Z.of_nat (n / 5)) by (by rewrite Nat2Z.inj_div).
    unfold col_blocks in Hceil.
    destruct (extra_cases n) as [[He H0]|[He H1]]; rewrite He in Hceil; rewrite He; nia.
  - unfold reshaped. rewrite mapM_is_Some, Forall_forall. split.
    + intros H. specialize (H (n - 1)%nat ltac:(apply elem_of_seq; lia)).
      unfold compose in H.
      destruct (mapM _ (seq 0 (n / 5 + extra n))) as [blocks|] eqn:Hb;
        [|by destruct H].
      pose proof (proj1 (reshaped_row_is_Some n hess_vals (n - 1)%nat)) as Hs.
      rewrite Hb in Hs. specialize (Hs ltac:(by eexists)).
      specialize (Hs (col_blocks n - 1)%nat ltac:(lia)). nia.
    + intros Hlen r Hr. apply elem_of_seq in Hr. unfold compose.
      destruct (proj2 (reshaped_row_is_Some n hess_vals r)) as [blocks ->];
        [|by eexists].
      intros cb Hcb. nia.
  - intros m Hm Hwidth. unfold reshaped in Hm. pose proof (length_mapM _ _ _ Hm) as Hlen.
    rewrite length_seq in Hlen. split; [done|].
    intros r row Hrow. apply mapM_Some in Hm.
    destruct (Forall2_lookup_r _ _ _ _ _ Hm Hrow) as (r' & Hr' & Hblocks).
    apply lookup_seq in Hr' as [-> Hr]. simpl in Hblocks. simpl in Hr.
    destruct (mapM _ (seq 0 (n / 5 + extra n))) as [blocks|] eqn:Hb;
      cbn [mbind option_bind] in Hblocks; [|done].
    injection Hblocks as <-. apply mapM_Some in Hb.
    assert (∀ cb, (cb < col_blocks n)%nat →
              ∃ blk, blocks !! cb = Some blk
                     ∧ hess_vals !! (r + cb * n)%nat = Some blk
                     ∧ length blk = if (cb <? n / 5)%nat then 5%nat else (n mod 5)%nat)
      as Hblk.
    { intros cb Hcb.
      destruct (Forall2_lookup_l _ _ _ cb cb Hb) as (blk & Hblk & Hv).
      { apply lookup_seq. unfold col_blocks in Hcb. lia. }
      exists blk. split; [done|]. split; [done|]. by apply (Hwidth r cb). }
    pose proof (Nat.div_mod_eq n 5) as Hdm.
    pose proof (Nat.mod_upper_bound n 5 ltac:(lia)) as Hmod.
    assert (length blocks = col_blocks n) as Hnb.
    { apply Forall2_length in Hb. rewrite length_seq in Hb. unfold col_blocks. lia. }
    split.
    + (* the length of the row *)
      assert (take (n / 5) blocks ++ drop (n / 5) blocks = blocks) as Hsplit
          by apply take_drop.
      rewrite <- Hsplit, concat_app, length_app.
      rewrite (concat_uniform_length (take (n / 5) blocks) 5).
      2:{ apply Forall_forall. intros blk Hin. apply list_elem_of_lookup in Hin as [i Hi].
          pose proof (lookup_lt_Some _ _ _ Hi) as Hlt. rewrite length_take in Hlt.
          rewrite lookup_take_lt in Hi by lia.
          destruct (Hblk i) as (blk' & Hb' & _ & Hl); [unfold col_blocks; lia|].
          rewrite Hi in Hb'. injection Hb' as <-.
          assert ((i <? n / 5)%nat = true) as Ht by (apply Nat.ltb_lt; lia).
          by rewrite Ht in Hl. }
      rewrite length_take.
      destruct (extra_cases n) as [[He H0]|[He H1]].
      * rewrite drop_ge by (unfold col_blocks in Hnb; lia). cbn [concat length].
        unfold col_blocks in Hnb. lia.
      * destruct (Hblk (n / 5)%nat) as (blk & Hb' & _ & Hl); [unfold col_blocks; lia|].
        rewrite Nat.ltb_irrefl in Hl.
        rewrite (drop_S _ _ _ Hb'), drop_ge by (unfold col_blocks in Hnb; lia).
        cbn [concat]. rewrite app_nil_r. unfold col_blocks in Hnb. lia.
    + intros c Hc. unfold cell.
      pose proof (Nat.div_mod_eq c 5) as Hcdm.
      pose proof (Nat.mod_upper_bound c 5 ltac:(lia)) as Hcmod.
      assert (c / 5 < col_blocks n)%nat as Hcb.
      { unfold col_blocks. destruct (extra_cases n) as [[He H0]|[He H1]]; lia. }
      destruct (Hblk (c / 5)%nat Hcb) as (blk & Hb' & Hv & Hl).
      rewrite Hv. cbn [mbind option_bind].
      replace c with (c / 5 * 5 + c mod 5)%nat at 1 by lia.
      apply concat_uniform_lookup; [|done|].
      * intros i li Hi Hli.
        destruct (Hblk i) as (blk' & Hb'' & _ & Hl'); [lia|].
        rewrite Hli in Hb''. injection Hb'' as <-.
        assert ((i <? n / 5)%nat = true) as Ht by (apply Nat.ltb_lt; lia).
        by rewrite Ht in Hl'.
      * rewrite Hl. destruct (c / 5 <? n / 5)%nat eqn:Et; [lia|].
        apply Nat.ltb_ge in Et. lia.
Qed.
End PSI4Reshape.

(** ** Reading a structure: the first marker *)

Section FirstMarker.
Context {A : Type}.

(** The first line that holds a marker, in a file cut at that line. *)
Lemma list_find_first (marker : string) (pre post : list string) (m : string) :
  Forall (fun line => is_substring marker line = false) pre →
  is_substring marker m = true →
  list_find (fun line => is_substring marker line = true) (pre ++ m :: post)
  = Some (length pre, m).
Proof.
  intros Hpre Hm. apply list_find_Some. split; [|split; [done|]].
  - by rewrite lookup_app_r, Nat.sub_diag.
  - intros j y Hj Hlt. rewrite lookup_app_l in Hj by done.
    rewrite Forall_lookup in Hpre. rewrite (Hpre j y Hj). done.
Qed.

Lemma list_find_no_marker (marker : string) (lines : list string) :
  Forall (fun line => is_substring marker line = false) lines →
  list_find (fun line => is_substring marker line = true) lines = None.
Proof.
  intros H. apply list_find_None. eapply Forall_impl; [exact H|].
  intros line Hline. simpl in Hline. by rewrite Hline.
Qed.
End FirstMarker.

Section PSI4Structure.
Context {F : Type}.
Variable struct_row_of_line : string → option (string * vec3 F).

(** X26: [PSI4.optimised_structure] raises [EOFError] when no line of
    [output.dat] holds ['==> Geometry']; otherwise it reads the
    [len(molecule)] lines that start 9 lines below the first such line,
    whatever follows (a later ['==> Geometry'] is never looked at): it
    returns one row per atom, and fails with an [IndexError] when the file
    ends before the last of these lines. *)
Theorem psi4_structure_is_first_geometry (lines : list string) (n_atoms : nat) :
  (Forall (fun line => is_substring "==> Geometry" line = false) lines →
   PSI4.optimised_structure struct_row_of_line lines n_atoms = None)
  ∧ ∀ pre m post,
      lines = pre ++ m :: post →
      Forall (fun line => is_substring "==> Geometry" line = false) pre →
      is_substring "==> Geometry" m = true →
      PSI4.optimised_structure struct_row_of_line lines n_atoms
      = mapM (fun row => line ← post !! (8 + row)%nat; struct_row_of_line line)
             (seq 0 n_atoms)
      ∧ (is_Some (PSI4.optimised_structure struct_row_of_line lines n_atoms) →
         n_atoms = 0%nat ∨ (8 + n_atoms ≤ length post)%nat)
      ∧ ∀ s, PSI4.optimised_structure struct_row_of_line lines n_atoms = Some s →
             length s = n_atoms.
Proof.
  split.
  - intros H. unfold PSI4.optimised_structure.
    by rewrite (list_find_no_marker _ _ H).
  - intros pre m post -> Hpre Hm.
    assert (PSI4.optimised_structure struct_row_of_line (pre ++ m :: post) n_atoms
            = mapM (fun row => line ← post !! (8 + row)%nat; struct_row_of_line line)
                   (seq 0 n_atoms)) as Heq.
    { unfold PSI4.optimised_structure. rewrite (list_find_first _ _ _ _ Hpre Hm).
      cbn [mbind option_bind last]. apply mapM_ext_eq. intros row.
      rewrite lookup_app_r by lia.
      replace (length pre + 9 + row - length pre)%nat with (S (8 + row)) by lia.
      done. }
    split; [exact Heq|]. rewrite Heq. split.
    + intros Hsome. destruct n_atoms as [|n]; [by left|]. right.
      apply mapM_is_Some in Hsome. rewrite Forall_forall in Hsome.
      destruct (Hsome n) as [r Hr].
      { apply elem_of_seq. lia. }
      destruct (post !! (8 + n)%nat) as [line|] eqn:Hline; [|done].
      apply lookup_lt_Some in Hline. lia.
    + intros s Hs. apply length_mapM in Hs. by rewrite length_seq in Hs.
Qed.
End PSI4Structure.

Section GaussianStructure.
Context {F : Type}.
Variable last_floats_of_line : string → option (list F).

Lemma mapM_enumerate_zip {B C D : Type} (g : B → C → option D) (l0 l : list B)
    (xs : list C) :
  (length xs ≤ length l)%nat →
  mapM (fun '(i, x) => a ← (l0 ++ l) !! i; g a x) (zip (seq (length l0) (length xs)) xs)
  = mapM (fun '(a, x) => g a x) (zip l xs).
Proof.
  revert l0 l. induction xs as [|x xs IH]; intros l0 l Hlen.
  - by destruct l.
  - destruct l as [|a l]; [simpl in Hlen; lia|].
    cbn [length seq zip zip_with mapM].
    rewrite lookup_app_r, Nat.sub_diag by done. cbn [lookup list_lookup mbind option_bind].
    destruct (g a x) as [d|]; cbn [mbind option_bind]; [|done].
    specialize (IH (l0 ++ [a]) l). rewrite <- app_assoc, length_app in IH.
    cbn [length app] in IH. rewrite Nat.add_1_r in IH. rewrite IH; [done|].
    simpl in Hlen. lia.
Qed.

(** X27: [Gaussian.optimised_structure] raises [EOFError] when no
    line of the log holds ['Input orientation']; otherwise it reads the
    lines that start 5 lines below the first such line, one per atom of the
    molecule, and pairs them with the names of the atoms in order.  When
    the log ends early it returns fewer rows, as many as there are lines
    left, without an error. *)
Theorem gaussian_structure_is_first_orientation (lines : list string)
    (molecule : list (string * vec3 F)) :
  (Forall (fun line => is_substring "Input orientation" line = false) lines →
   Gaussian.optimised_structure last_floats_of_line lines molecule = None)
  ∧ ∀ pre m post,
      lines = pre ++ m :: post →
      Forall (fun line => is_substring "Input orientation" line = false) pre →
      is_substring "Input orientation" m = true →
      Gaussian.optimised_structure last_floats_of_line lines molecule
      = mapM (fun '(atom, line) => vals ← last_floats_of_line line; Some (fst atom, vals))
             (zip molecule (drop 4 post))
      ∧ ∀ s, Gaussian.optimised_structure last_floats_of_line lines molecule = Some s →
             length s = (length molecule `min` (length post - 4))%nat.
Proof.
  split.
  - intros H. unfold Gaussian.optimised_structure.
    by rewrite (list_find_no_marker _ _ H).
  - intros pre m post -> Hpre Hm.
    assert (Gaussian.optimised_structure last_floats_of_line (pre ++ m :: post) molecule
            = mapM (fun '(atom, line) =>
                      vals ← last_floats_of_line line; Some (fst atom, vals))
                   (zip molecule (drop 4 post))) as Heq.
    { unfold Gaussian.optimised_structure. rewrite (list_find_first _ _ _ _ Hpre Hm).
      cbn [mbind option_bind last]. cbv zeta.
      assert (slice (pre ++ m :: post) (length pre + 5)
                    (length pre + 5 + length molecule)
              = take (length molecule) (drop 4 post)) as ->.
      { unfold slice. f_equal; [lia|].
        rewrite drop_app_ge by lia.
        replace (length pre + 5 - length pre)%nat with 5%nat by lia. done. }
      unfold enumerate.
      rewrite (mapM_enumerate_zip
                 (fun atom line => vals ← last_floats_of_line line; Some (fst atom, vals))
                 [] molecule (take (length molecule) (drop 4 post))).
      - f_equal. apply (zip_with_take_r pair molecule (drop 4 post)).
      - rewrite length_take. lia. }
    split; [exact Heq|]. rewrite Heq. intros s Hs.
    apply length_mapM in Hs. rewrite length_zip, length_drop in Hs. lia.
Qed.
End GaussianStructure.

(** ** [Gaussian.hessian]: the lines between the last markers *)

Section LastMarker.
Variable P : string → bool.
Variable f : nat → nat.

Lemma fold_marker_none (k : nat) (l : list string) (a : option nat) :
  Forall (fun line => P line = false) l →
  fold_left (fun a '(count, line) => if P line then Some (f count) else a)
            (zip (seq k (length l)) l) a = a.
Proof.
  revert k a. induction l as [|x l IH]; intros k a Hl; [done|].
  apply Forall_cons in Hl as [Hx Hl]. cbn [length seq zip zip_with fold_left].
  rewrite Hx. by apply IH.
Qed.

Lemma fold_marker_last (k : nat) (pre rest : list string) (s : string) (a : option nat) :
  P s = true → Forall (fun line => P line = false) rest →
  fold_left (fun a '(count, line) => if P line then Some (f count) else a)
            (zip (seq k (length (pre ++ s :: rest))) (pre ++ s :: rest)) a
  = Some (f (k + length pre)%nat).
Proof.
  intros Hs Hrest. revert k a. induction pre as [|x pre IH]; intros k a.
  - cbn [app length seq zip zip_with fold_left]. rewrite Hs, Nat.add_0_r.
    by apply fold_marker_none.
  - cbn [app length seq zip zip_with fold_left]. rewrite IH. f_equal. f_equal. lia.
Qed.
End LastMarker.

Section GaussianMarkers.
Context {F : Type} {N : Num F}.
Variable floats_of_line : string → option (list F).

Lemma scan_markers_split (lines : list string) :
  Gaussian.scan_markers lines
  = (fold_left (fun (a : option nat) '((count, line) : nat * string) =>
                  if String.prefix "Cartesian Force Constants" line
                  then Some (count + 1)%nat else a) (enumerate lines) None,
     fold_left (fun (a : option nat) '((count, line) : nat * string) =>
                  if String.prefix "Dipole Moment" line then Some count else a)
               (enumerate lines) None).
Proof.
  unfold Gaussian.scan_markers.
  generalize (@None nat) at 1 3. generalize (@None nat).
  generalize (enumerate lines). intros l. induction l as [|[count line] l IH]; intros b a.
  - done.
  - cbn [fold_left]. by rewrite IH.
Qed.

(** X28: [Gaussian.hessian] fails when no line of [lig.fchk] starts
    with ['Cartesian Force Constants'], or none with ['Dipole Moment'] (the
    position is then unbound, and no [EOFError] is raised); when the last
    line that starts with the first marker comes before the last line that
    starts with the second, [hessian_list] holds the numbers of the lines
    between the two, in order, each multiplied by 0.529. *)
Theorem gaussian_hessian_between_last_markers (lines : list string) :
  (Forall (fun line => String.prefix "Cartesian Force Constants" line = false) lines
   ∨ Forall (fun line => String.prefix "Dipole Moment" line = false) lines →
   Gaussian.hessian_list floats_of_line lines = None)
  ∧ ∀ pre s mid e post,
      lines = pre ++ s :: mid ++ e :: post →
      String.prefix "Cartesian Force Constants" s = true →
      Forall (fun line => String.prefix "Cartesian Force Constants" line = false)
             (mid ++ e :: post) →
      String.prefix "Dipole Moment" e = true →
      Forall (fun line => String.prefix "Dipole Moment" line = false) post →
      Gaussian.hessian_list floats_of_line lines
      = (rows ← mapM floats_of_line mid;
         Some (map (fun num => num *. lit 529 1000) (concat rows))).
Proof.
  split.
  - intros H. unfold Gaussian.hessian_list. rewrite scan_markers_split.
    unfold enumerate. destruct H as [H|H].
    + by rewrite (fold_marker_none _ (fun count => count + 1)%nat 0 lines None H).
    + rewrite (fold_marker_none _ (fun count => count) 0 lines None H).
      by destruct (fold_left _ _ _).
  - intros pre s mid e post -> Hs Hrest He Hpost.
    unfold Gaussian.hessian_list. rewrite scan_markers_split. unfold enumerate.
    rewrite (fold_marker_last _ (fun count => count + 1)%nat 0 pre (mid ++ e :: post) s None Hs Hrest).
    replace (pre ++ s :: mid ++ e :: post) with ((pre ++ s :: mid) ++ e :: post)
      by (by rewrite <- app_assoc).
    rewrite (fold_marker_last _ (fun count => count) 0 (pre ++ s :: mid) post e None He Hpost).
    cbn [mbind option_bind]. rewrite Nat.add_0_l, Nat.add_0_l, Nat.add_1_r.
    assert (slice ((pre ++ s :: mid) ++ e :: post) (S (length pre))
                  (length (pre ++ s :: mid)) = mid) as ->; [|done].
    unfold slice. rewrite length_app. cbn [length].
    replace (length pre + S (length mid) - S (length pre))%nat with (length mid) by lia.
    rewrite <- app_assoc. cbn [app].
    rewrite drop_app_ge by lia.
    replace (S (length pre) - length pre)%nat with 1%nat by lia.
    cbn [drop]. by rewrite drop_0, take_app_length.
Qed.
End GaussianMarkers.

(** ** [PSI4.hessian]: the lines read *)

Section PSI4Window.
Context {F : Type}.
Variable vals_of_line : string → option (list F).

(** X29: [PSI4.hessian] raises [EOFError] when no line of
    [output.dat] holds ['## Hessian']; otherwise [hess_vals] is read from
    the [hess_length] lines that start 5 lines below the first such line
    (fewer when the file ends before), the lines without a value removed:
    no row of [hess_vals] is empty, and it has at most [hess_length]
    rows. *)
Theorem psi4_hess_vals_window (lines : list string) (hess_size : nat) :
  (Forall (fun line => is_substring "## Hessian" line = false) lines →
   PSI4.hess_vals vals_of_line lines hess_size = None)
  ∧ ∀ pre m post,
      lines = pre ++ m :: post →
      Forall (fun line => is_substring "## Hessian" line = false) pre →
      is_substring "## Hessian" m = true →
      PSI4.hess_vals vals_of_line lines hess_size
      = (rows ← mapM vals_of_line
                  (take (Z.to_nat (PSI4.hess_length hess_size)) (drop 4 post));
         Some (filter (fun elem => elem ≠ []) rows))
      ∧ ∀ hv, PSI4.hess_vals vals_of_line lines hess_size = Some hv →
              Forall (fun row => row ≠ []) hv
              ∧ (length hv ≤ Z.to_nat (PSI4.hess_length hess_size))%nat
              ∧ (length hv ≤ length post - 4)%nat.
Proof.
  split.
  - intros H. unfold PSI4.hess_vals, PSI4.hess_start.
    by rewrite (list_find_no_marker _ _ H).
  - intros pre m post -> Hpre Hm.
    assert (PSI4.hess_vals vals_of_line (pre ++ m :: post) hess_size
            = (rows ← mapM vals_of_line
                        (take (Z.to_nat (PSI4.hess_length hess_size)) (drop 4 post));
               Some (filter (fun elem => elem ≠ []) rows))) as Heq.
    { unfold PSI4.hess_vals, PSI4.hess_start.
      rewrite (list_find_first _ _ _ _ Hpre Hm). cbn [mbind option_bind]. cbv zeta.
      unfold slice. rewrite drop_app_ge by lia.
      replace (length pre + 5 - length pre)%nat with 5%nat by lia.
      replace (Z.to_nat (Z.of_nat (length pre + 5) + PSI4.hess_length hess_size)
               - (length pre + 5))%nat
        with (Z.to_nat (PSI4.hess_length hess_size)) by lia.
      done. }
    split; [exact Heq|]. rewrite Heq. intros hv Hhv.
    destruct (mapM vals_of_line _) as [rows|] eqn:Hrows; [|done].
    cbn [mbind option_bind] in Hhv. apply (inj Some) in Hhv. subst hv.
    apply length_mapM in Hrows. rewrite length_take, length_drop in Hrows.
    split; [|split].
    + apply Forall_forall. intros row Hrow. by apply list_elem_of_filter in Hrow as [? _].
    + pose proof (length_filter (fun elem : list F => elem ≠ []) rows). lia.
    + pose proof (length_filter (fun elem : list F => elem ≠ []) rows). lia.
Qed.
End PSI4Window.

(** ** [calculate_non_bonded_force]: the charges *)

Section Pipeline.
Context {F : Type} {N : Num F}.

(** [correct_polar_hydrogens] writes, for every atom, the charge of its row
    of [ddec_data]; it needs an entry for every atom and adds none. *)
Lemma correct_polar_hydrogens_charge_column (input : list input_atom) (edges : list bond)
    (d d' : list (lj_atom F)) (nbf nbf' : gmap nat (nb_entry F)) :
  correct_polar_hydrogens input edges d nbf = Some (d', nbf') →
  (∀ k, (length d ≤ k)%nat → nbf' !! k = nbf !! k)
  ∧ ∀ pos atom, d !! pos = Some atom →
      is_Some (nbf !! pos) ∧ nb_charge <$> nbf' !! pos = Some (charge (aim atom)).
Proof.
  unfold correct_polar_hydrogens. intros H.
  destruct (new_pairs input edges) as [pairs|]; cbn [mbind option_bind] in H; [|done].
  destruct (correct_b_a (polars pairs) d) as [d1|] eqn:Hba;
    cbn [mbind option_bind] in H; [|done].
  destruct (foldlM update_epsilon (enumerate d1) nbf) as [nbf1|] eqn:Hfold;
    cbn [mbind option_bind] in H; [|done].
  injection H as <- <-.
  apply correct_b_a_frame in Hba as [Haim _].
  assert (length d1 = length d) as Hlen.
  { apply (f_equal length) in Haim. by rewrite !length_map in Haim. }
  apply (foldlM_enumerate update_epsilon
           (fun pos a old new =>
              is_Some old ∧ nb_charge <$> new = Some (charge (aim a)))) in Hfold.
  - destruct Hfold as [Hout Hin]. split.
    + intros k Hk. apply Hout. lia.
    + intros pos atom Hpos.
      assert (∃ a1, d1 !! pos = Some a1 ∧ aim a1 = aim atom) as (a1 & Ha1 & Eaim).
      { apply (f_equal (fun l => l !! pos)) in Haim.
        change (@map) with (@fmap list _) in Haim.
        rewrite !list_lookup_fmap, Hpos in Haim.
        destruct (d1 !! pos) as [a1|]; [|done]. exists a1. split; [done|].
        by injection Haim. }
      destruct (Hin pos a1 Ha1) as [Hold Hnew]. rewrite Eaim in Hnew. done.
  - intros m pos a m' Hstep. apply update_epsilon_spec in Hstep as [Hother (old & Ho & Hn)].
    split; [done|]. rewrite Ho, Hn. split; [by eexists | done].
Qed.

(** A group is given its means: no entry is added, and the entries of the
    atoms outside the group stay. *)
Lemma symmetrise_atom_set_frame (st st' : sym_state) (atom_set : list positive) :
  symmetrise_atom_set st atom_set = Some st' →
  (∀ k, is_Some (fst st' !! k) ↔ is_Some (fst st !! k))
  ∧ ∀ k, k ∉ atom_index <$> atom_set → fst st' !! k = fst st !! k.
Proof.
  destruct st as [nbf [[cs ss] es]]. rewrite symmetrise_atom_set_spec.
  destruct (group_entries nbf atom_set) as [entries|] eqn:Hent;
    cbn [mbind option_bind]; [|done].
  cbv zeta.
  destruct (mean (cs ++ map nb_charge entries)) as [charge|];
    cbn [mbind option_bind]; [|done].
  destruct (mean (ss ++ map nb_sigma entries)) as [sigma|];
    cbn [mbind option_bind]; [|done].
  destruct (mean (es ++ map nb_epsilon entries)) as [epsilon|];
    cbn [mbind option_bind]; [|done].
  intros [= <-]. cbn [fst]. split.
  - intros k. rewrite fold_left_insert_const.
    destruct (decide (k ∈ atom_index <$> atom_set)) as [Hin|Hout]; [|done].
    split; [|by eexists]. intros _.
    apply list_elem_of_fmap in Hin as (atom & -> & Hatom).
    assert (is_Some (group_entries nbf atom_set)) as Hsome by (by eexists).
    unfold group_entries in Hsome. rewrite mapM_is_Some, Forall_forall in Hsome.
    by apply Hsome.
  - intros k Hk. rewrite fold_left_insert_const. by rewrite decide_False.
Qed.

Lemma apply_symmetrisation_frame (symm_hs : list (list (list positive)))
    (nbf nbf' : gmap nat (nb_entry F)) :
  apply_symmetrisation symm_hs nbf = Some nbf' →
  (∀ k, is_Some (nbf' !! k) ↔ is_Some (nbf !! k))
  ∧ ∀ k, (∀ sym_set atom_set, sym_set ∈ symm_hs → atom_set ∈ sym_set →
                               k ∉ atom_index <$> atom_set) →
         nbf' !! k = nbf !! k.
Proof.
  unfold apply_symmetrisation. intros H.
  apply (foldlM_invariant _
           (fun m : gmap nat (nb_entry F) =>
              (∀ k, is_Some (m !! k) ↔ is_Some (nbf !! k))
              ∧ ∀ k, (∀ sym_set atom_set, sym_set ∈ symm_hs → atom_set ∈ sym_set →
                                          k ∉ atom_index <$> atom_set) →
                     m !! k = nbf !! k)) in H; [done| |done].
  intros m sym_set m' Hsym [Hdom Hframe] Hstep. unfold symmetrise_sym_set in Hstep.
  destruct (foldlM symmetrise_atom_set sym_set (m, ([], [], []))) as [st|] eqn:Hfold;
    cbn [mbind option_bind] in Hstep; [|done].
  injection Hstep as <-.
  apply (foldlM_invariant _
           (fun st : sym_state =>
              (∀ k, is_Some (fst st !! k) ↔ is_Some (nbf !! k))
              ∧ ∀ k, (∀ sym_set atom_set, sym_set ∈ symm_hs → atom_set ∈ sym_set →
                                          k ∉ atom_index <$> atom_set) →
                     fst st !! k = nbf !! k)) in Hfold; [done| |done].
  intros st0 atom_set st1 Hset [Hdom0 Hframe0] Hstep.
  apply symmetrise_atom_set_frame in Hstep as [Hdom1 Hframe1]. split.
  - intros k. by rewrite Hdom1.
  - intros k Hk. rewrite Hframe1 by (by eapply Hk). by apply Hframe0.
Qed.

Context {L : Libm F}.

(** X30: [calculate_non_bonded_force] raises [KeyError] for a charges
    engine other than ['chargemol'] and ['onetep'].  When it returns, the
    table has an entry for every atom of the data of the engine and for
    nothing else, and the charge of every atom that is in no symmetry group
    is the charge read from the output of the engine, less, for ['onetep'],
    the charges of the extra sites of the atom, subtracted in the order of
    the sites: neither [calculate_sig_eps] nor the polar-hydrogen
    correction changes a charge. *)
Theorem calculate_non_bonded_force_charges (charges_engine : string)
    (extract_params_chargemol extract_params_onetep : option (list (aim_atom F)))
    (input : list input_atom) (edges : list bond)
    (symm_hs : list (list (list positive))) (read_sites : option (list (@site F))) :
  (charges_engine ≠ "chargemol" → charges_engine ≠ "onetep" →
   calculate_non_bonded_force charges_engine extract_params_chargemol
     extract_params_onetep input edges symm_hs read_sites = None)
  ∧ ∀ nbf,
      calculate_non_bonded_force charges_engine extract_params_chargemol
        extract_params_onetep input edges symm_hs read_sites = Some nbf →
      ∃ data sites,
        (charges_engine = "chargemol" ∧ extract_params_chargemol = Some data ∧ sites = []
         ∨ charges_engine = "onetep" ∧ extract_params_onetep = Some data
           ∧ read_sites = Some sites)
        ∧ (∀ k, is_Some (nbf !! k) ↔ (k < length data)%nat)
        ∧ ∀ pos atom,
            data !! pos = Some atom →
            (∀ sym_set atom_set, sym_set ∈ symm_hs → atom_set ∈ sym_set →
                                 pos ∉ atom_index <$> atom_set) →
            nb_charge <$> nbf !! pos
            = Some (fold_left sub (site_charges_of pos sites) (charge atom)).
Proof.
  split.
  - intros H1 H2. unfold calculate_non_bonded_force.
    apply String.eqb_neq in H1, H2. by rewrite H1, H2.
  - intros nbf H. unfold calculate_non_bonded_force in H.
    set (chosen := if String.eqb charges_engine "chargemol" then extract_params_chargemol
                   else if String.eqb charges_engine "onetep" then extract_params_onetep
                   else None) in H.
    destruct chosen as [data|] eqn:Hchosen; cbn [mbind option_bind] in H; [|done].
    destruct (append_ais_bis data) as [d1|] eqn:Hd1; cbn [mbind option_bind] in H; [|done].
    destruct (calculate_sig_eps d1 ∅) as [nbf1|] eqn:Hsig;
      cbn [mbind option_bind] in H; [|done].
    destruct (correct_polar_hydrogens input edges d1 nbf1) as [[d2 nbf2]|] eqn:Hpol;
      cbn [mbind option_bind] in H; [|done].
    destruct (apply_symmetrisation symm_hs nbf2) as [nbf3|] eqn:Hsym;
      cbn [mbind option_bind] in H; [|done].
    (* the rows of the atoms *)
    unfold append_ais_bis in Hd1. apply mapM_Some in Hd1.
    pose proof (Forall2_length _ _ _ Hd1) as Hlen.
    apply calculate_sig_eps_spec in Hsig as [Hsig_out Hsig_in].
    apply correct_polar_hydrogens_charge_column in Hpol as [Hpol_out Hpol_in].
    apply apply_symmetrisation_frame in Hsym as [Hsym_dom Hsym_frame].
    assert (∀ k, is_Some (nbf3 !! k) ↔ (k < length data)%nat) as Hdom3.
    { intros k. rewrite Hsym_dom. split.
      - intros Hk. destruct (decide (k < length data)%nat) as [|Hge]; [done|].
        rewrite Hpol_out, Hsig_out in Hk by lia. rewrite lookup_empty in Hk.
        by destruct Hk.
      - intros Hk. rewrite Hlen in Hk. apply lookup_lt_is_Some in Hk as [lj Hlj].
        destruct (Hpol_in k lj Hlj) as [_ Hc].
        destruct (nbf2 !! k); [by eexists | done]. }
    assert (∀ pos atom, data !! pos = Some atom →
              (∀ sym_set atom_set, sym_set ∈ symm_hs → atom_set ∈ sym_set →
                                   pos ∉ atom_index <$> atom_set) →
              nb_charge <$> nbf3 !! pos = Some (charge atom)) as Hcharge3.
    { intros pos atom Hpos Hout. rewrite Hsym_frame by done.
      destruct (Forall2_lookup_l _ _ _ _ _ Hd1 Hpos) as (lj & Hlj & Hais).
      apply ais_bis_aim in Hais. destruct (Hpol_in pos lj Hlj) as [_ Hc].
      by rewrite Hais in Hc. }
    destruct (String.eqb charges_engine "onetep") eqn:Honetep.
    + destruct read_sites as [sites|]; cbn [mbind option_bind] in H; [|done].
      exists data, sites. split; [|split].
      * right. unfold chosen in Hchosen.
        destruct (String.eqb charges_engine "chargemol") eqn:Hcm.
        { apply String.eqb_eq in Hcm, Honetep. congruence. }
        apply String.eqb_eq in Honetep. done.
      * intros k. rewrite (take_site_charges_lookup _ _ _ H k).
        rewrite <- Hdom3. by rewrite fmap_is_Some.
      * intros pos atom Hpos Hout.
        rewrite (take_site_charges_lookup _ _ _ H pos).
        specialize (Hcharge3 pos atom Hpos Hout).
        destruct (nbf3 !! pos) as [e|]; [|done]. simpl in Hcharge3. simpl.
        by injection Hcharge3 as ->.
    + injection H as <-. exists data, []. split; [|split].
      * left. unfold chosen in Hchosen.
        destruct (String.eqb charges_engine "chargemol") eqn:Hcm; [|done].
        apply String.eqb_eq in Hcm. done.
      * done.
      * intros pos atom Hpos Hout. by apply Hcharge3.
Qed.
End Pipeline.

(** ** Instances of the further properties *)

Lemma every_angle_reads_first_two_factors_witness :
  ∃ store unit_pa factors,
    scaling_store Examples.tripod_angles Examples.tripod = Some store
    ∧ unit_pa_all_angles
        (central_atoms_angles (length Examples.tripod) Examples.tripod_angles)
        Examples.tripod = Some unit_pa
    ∧ scaling_factor_all_angles
        (central_atoms_angles (length Examples.tripod) Examples.tripod_angles) unit_pa
      = Some factors
    ∧ scalings_of store 2 =
      (s0 ← fst <$> concat factors !! 0%nat;
       s1 ← fst <$> concat factors !! 1%nat;
       Some (s0, s1)).
Proof.
  eassert (scaling_store Examples.tripod_angles Examples.tripod = Some _) as Hstore.
  { vm_compute. reflexivity. }
  destruct (every_angle_reads_first_two_factors _ _ _ Hstore)
    as (unit_pa & factors & Hupa & Hfactors & Hread).
  eexists _, unit_pa, factors. split; [exact Hstore|]. split; [exact Hupa|].
  split; [exact Hfactors|]. apply Hread. simpl. lia.
Defined.

Lemma scaling_factors_at_least_one_witness :
  ∃ unit_pa factors fc,
    unit_pa_all_angles
      (central_atoms_angles (length Examples.right_angle_R) Examples.one_angle)
      Examples.right_angle_R = Some unit_pa
    ∧ scaling_factor_all_angles
        (central_atoms_angles (length Examples.right_angle_R) Examples.one_angle) unit_pa
      = Some factors
    ∧ factors !! 1%nat ≫= (.!! 0%nat) = Some fc
    ∧ (1 <= fst fc)%R.
Proof.
  eassert (unit_pa_all_angles
             (central_atoms_angles (length Examples.right_angle_R) Examples.one_angle)
             Examples.right_angle_R = Some _) as Hupa.
  { reflexivity. }
  match type of Hupa with
  | _ = Some ?u =>
      eassert (scaling_factor_all_angles
                 (central_atoms_angles (length Examples.right_angle_R) Examples.one_angle) u
               = Some _) as Hfactors
  end.
  { reflexivity. }
  eexists _, _, _. split; [exact Hupa|]. split; [exact Hfactors|].
  split; [reflexivity|].
  exact (scaling_factors_at_least_one _ _ _ _ Hupa Hfactors 1%nat 0%nat _ eq_refl).
Defined.

Lemma angle_orderings_agree_witness :
  Examples.unit_lens 0%nat 1%nat = Examples.unit_lens 1%nat 0%nat
  ∧ Examples.unit_lens 1%nat 2%nat = Examples.unit_lens 2%nat 1%nat
  ∧ force_constant_angle 2 1 0 Examples.unit_lens Examples.diag_eigenvals
      Examples.diag_eigenvecs Examples.right_angle_R (3, 2)%R
    = force_constant_angle 0 1 2 Examples.unit_lens Examples.diag_eigenvals
        Examples.diag_eigenvecs Examples.right_angle_R (2, 3)%R.
Proof.
  split; [reflexivity|]. split; [reflexivity|].
  exact (proj1 (angle_orderings_agree 1%R 1 2 3 Examples.unit_lens Examples.diag_eigenvals
                  Examples.diag_eigenvecs Examples.right_angle_R 2%R 3%R
                  eq_refl eq_refl)).
Defined.

Lemma modified_seminario_method_results_witness :
  ∃ bonds angs,
    modified_seminario_method Examples.diag_eig 1%R Examples.two_atoms_qm
      (fun _ _ => 0%R) Examples.one_bond [] = Some (bonds, angs)
    ∧ length bonds = 1%nat ∧ length angs = 0%nat.
Proof.
  eassert (modified_seminario_method Examples.diag_eig 1%R Examples.two_atoms_qm
             (fun _ _ => 0%R) Examples.one_bond [] = Some (_, _)) as H.
  { reflexivity. }
  eexists _, _. split; [exact H|].
  destruct (modified_seminario_method_results _ _ _ _ _ _ _ _ H) as (H1 & H2 & _).
  split; [exact H1 | exact H2].
Defined.

Lemma unit_vector_n_is_unit_normal_witness :
  cross (V3 1 0 0)%R (V3 0 1 0)%R ≠ (V3 0 0 0)%R
  ∧ norm (unit_vector_n (V3 1 0 0)%R (V3 0 1 0)%R) = 1%R.
Proof.
  assert (cross (V3 1 0 0)%R (V3 0 1 0)%R ≠ (V3 0 0 0)%R) as Hc.
  { intros H. apply (f_equal vz) in H. simpl in H. lra. }
  split; [exact Hc|].
  exact (proj1 (unit_vector_n_is_unit_normal _ _ Hc)).
Defined.

Lemma u_pa_from_angles_in_plane_witness :
  ∃ u_ab u_cb u_pa,
    vector_along_bond Examples.right_angle_R 0 1 = Some u_ab
    ∧ vector_along_bond Examples.right_angle_R 2 1 = Some u_cb
    ∧ Spec.colinear 0 1 2 Examples.right_angle_R = Some false
    ∧ u_pa_from_angles 0 1 2 Examples.right_angle_R = Some u_pa
    ∧ norm u_pa = 1%R ∧ dot u_pa u_ab = 0%R.
Proof.
  eassert (vector_along_bond Examples.right_angle_R 0 1 = Some _) as Hab by reflexivity.
  eassert (vector_along_bond Examples.right_angle_R 2 1 = Some _) as Hcb by reflexivity.
  assert (Spec.colinear 0 1 2 Examples.right_angle_R = Some false) as Hcol.
  { unfold Spec.colinear. rewrite Hab, Hcb. cbn [mbind option_bind]. f_equal.
    apply is_zero_vector_false. intros H. apply (f_equal vz) in H.
    unfold cross, vdiv, vsub, norm in H. cbn [vx vy vz] in H. simpl in H.
    replace ((0 - 0) * (0 - 0) + (0 - 1) * (0 - 1) + (0 - 0) * (0 - 0))%R with 1%R in H
      by ring.
    replace ((0 - 1) * (0 - 1) + (0 - 0) * (0 - 0) + (0 - 0) * (0 - 0))%R with 1%R in H
      by ring.
    rewrite sqrt_1 in H. lra. }
  destruct (u_pa_from_angles_in_plane _ _ _ _ _ _ Hab Hcb Hcol) as (u_pa & Hu & Hn & Hd & _).
  eexists _, _, u_pa. split; [exact Hab|]. split; [exact Hcb|]. split; [exact Hcol|].
  split; [exact Hu|]. split; [exact Hn | exact Hd].
Defined.

Lemma sigma_proportional_to_aim_radius_witness :
  ∃ lj,
    ais_bis (AimAtom "C" 0 1)%R = Some lj
    ∧ (0 < vol (AimAtom "C" 0 1))%R
    ∧ sig_eps lj =
      Some (Rpower 32 (1 / 6) * r_aim lj * sigma_conversion,
            b_i lj / (128 * r_aim lj ^ 6) * epsilon_conversion)%R.
Proof.
  eassert (ais_bis (AimAtom "C" 0 1)%R = Some _) as Hlj by reflexivity.
  assert (0 < vol (AimAtom "C" 0 1))%R as Hvol by (simpl; lra).
  eexists. split; [exact Hlj|]. split; [exact Hvol|].
  exact (proj2 (proj2 (sigma_proportional_to_aim_radius _ _ Hlj Hvol))).
Defined.

Lemma no_polar_hydrogen_no_change_witness :
  ∃ nbf pairs,
    Forall (fun atom => (0 <= b_i atom)%R
                        ∧ a_i atom = (32 * b_i atom * ipow (r_aim atom) 6)%R)
           Examples.ch_ddec
    ∧ calculate_sig_eps Examples.ch_ddec ∅ = Some nbf
    ∧ new_pairs Examples.ch_input Examples.ch_edges = Some pairs
    ∧ polars pairs = []
    ∧ correct_polar_hydrogens Examples.ch_input Examples.ch_edges Examples.ch_ddec nbf
      = Some (Examples.ch_ddec, nbf).
Proof.
  assert (Forall (fun atom => (0 <= b_i atom)%R
                              ∧ a_i atom = (32 * b_i atom * ipow (r_aim atom) 6)%R)
                 Examples.ch_ddec) as Hrows.
  { repeat constructor; simpl; lra. }
  eassert (calculate_sig_eps Examples.ch_ddec ∅ = Some _) as Hsig.
  { unfold calculate_sig_eps, enumerate, Examples.ch_ddec, sig_eps, py_div.
    run_R. reflexivity. }
  assert (new_pairs Examples.ch_input Examples.ch_edges
          = Some [((1%positive, "C"), (2%positive, "H"))]) as Hpairs by (by vm_compute).
  assert (polars [((1%positive, "C"), (2%positive, "H"))] = []) as Hpol by (by vm_compute).
  eexists _, _. split; [exact Hrows|]. split; [exact Hsig|]. split; [exact Hpairs|].
  split; [exact Hpol|].
  exact (no_polar_hydrogen_no_change _ _ _ _ _ _ Hrows Hsig Hpairs Hpol).
Defined.

Lemma polar_correction_conserves_roots_witness :
  ∃ nbf ddec_data' nbf',
    calculate_sig_eps Examples.oh_ddec ∅ = Some nbf
    ∧ correct_polar_hydrogens Examples.oh_input Examples.oh_edges Examples.oh_ddec nbf
      = Some (ddec_data', nbf')
    ∧ Forall (fun atom => (0 <= b_i atom)%R) Examples.oh_ddec
    ∧ total_root_b ddec_data' = total_root_b Examples.oh_ddec.
Proof.
  eassert (calculate_sig_eps Examples.oh_ddec ∅ = Some _) as Hsig.
  { unfold calculate_sig_eps, enumerate, Examples.oh_ddec, sig_eps, py_div.
    run_R. reflexivity. }
  match type of Hsig with
  | _ = Some ?nbf =>
      eassert (correct_polar_hydrogens Examples.oh_input Examples.oh_edges
                 Examples.oh_ddec nbf = Some (_, _)) as Hcorr
  end.
  { unfold correct_polar_hydrogens.
    assert (new_pairs Examples.oh_input Examples.oh_edges
            = Some [((1%positive, "O"), (2%positive, "H"))]) as -> by (by vm_compute).
    cbn [mbind option_bind].
    assert (polars [((1%positive, "O"), (2%positive, "H"))]
            = [((1%positive, "O"), (2%positive, "H"))]) as -> by (by vm_compute).
    unfold correct_b_a, Examples.oh_ddec, redistribute, update_epsilon, enumerate, py_div.
    run_R. reflexivity. }
  assert (Forall (fun atom => (0 <= b_i atom)%R) Examples.oh_ddec) as Hpos.
  { repeat constructor; simpl; lra. }
  eexists _, _, _. split; [exact Hsig|]. split; [exact Hcorr|]. split; [exact Hpos|].
  exact (proj1 (polar_correction_conserves_roots _ _ _ _ _ _ Hcorr Hpos)).
Defined.

Lemma single_group_gets_its_mean_witness :
  ∃ nbf' entries charge sigma epsilon,
    apply_symmetrisation [[[1; 2]]]%positive Examples.four_atoms_table = Some nbf'
    ∧ group_entries Examples.four_atoms_table [1; 2]%positive = Some entries
    ∧ mean (map nb_charge entries) = Some charge
    ∧ nbf' !! 0%nat = Some (NbEntry charge sigma epsilon)
    ∧ nbf' !! 2%nat = Examples.four_atoms_table !! 2%nat.
Proof.
  eassert (apply_symmetrisation [[[1; 2]]]%positive Examples.four_atoms_table = Some _)
    as Hsym.
  { vm_compute. reflexivity. }
  destruct (single_group_gets_its_mean _ _ _ Hsym)
    as (entries & c & s & e & He & Hc & Hs & Hee & Hlookup).
  eexists _, entries, c, s, e. split; [exact Hsym|]. split; [exact He|].
  split; [exact Hc|]. split.
  - rewrite (Hlookup 0%nat). apply decide_True.
    apply list_elem_of_fmap. exists 1%positive. split; [reflexivity | left].
  - rewrite (Hlookup 2%nat). apply decide_False.
    intros Hin. apply list_elem_of_fmap in Hin as (atom & Hatom & Hin).
    apply elem_of_cons in Hin as [->|Hin]; [discriminate Hatom|].
    apply elem_of_cons in Hin as [->|Hin]; [discriminate Hatom|].
    by apply elem_of_nil in Hin.
Defined.

Lemma site_frame_orthonormal_witness :
  cross (vsub (V3 1 0 0)%R (V3 0 0 0)%R) (vsub (V3 0 1 0)%R (V3 0 0 0)%R) ≠ (V3 0 0 0)%R
  ∧ let '(orig, x_dir, y_dir, z_dir) :=
      site_frame (V3 0 0 0)%R (V3 1 0 0)%R (V3 0 1 0)%R in
    orig = (V3 0 0 0)%R ∧ dot x_dir x_dir = 1%R.
Proof.
  assert (cross (vsub (V3 1 0 0)%R (V3 0 0 0)%R) (vsub (V3 0 1 0)%R (V3 0 0 0)%R) ≠ (V3 0 0 0)%R)
    as Hc.
  { intros H. apply (f_equal vz) in H. simpl in H. lra. }
  split; [exact Hc|].
  pose proof (site_frame_orthonormal (V3 0 0 0)%R (V3 1 0 0)%R (V3 0 1 0)%R (V3 1 2 3)%R Hc)
    as H.
  destruct (site_frame (V3 0 0 0)%R (V3 1 0 0)%R (V3 0 1 0)%R) as [[[orig x] y] z].
  destruct H as (H1 & H2 & _). split; [exact H1 | exact H2].
Defined.

Lemma positions_of_distinct_atoms_witness :
  distinct_atoms Examples.water_input
  ∧ positions Examples.water_input !! 2%positive = Some "H"
  ∧ positions Examples.water_input !! 4%positive = None.
Proof.
  assert (distinct_atoms Examples.water_input) as Hd.
  { intros i j x y Hij Hi Hj.
    destruct i as [|[|[|i]]]; destruct j as [|[|[|j]]]; try lia; simpl in Hi, Hj;
      try discriminate;
      apply (inj Some) in Hi; apply (inj Some) in Hj; subst x y; by vm_compute. }
  split; [exact Hd|].
  destruct (positions_of_distinct_atoms Examples.water_input Hd) as [Hpos _].
  split; rewrite Hpos; reflexivity.
Defined.

Lemma psi4_reshaped_layout_witness :
  (0 < 6)%nat
  ∧ PSI4.hess_length 6 = 15%Z
  ∧ ¬ is_Some (PSI4.reshaped 6 ([] : list (list nat))).
Proof.
  assert (0 < 6)%nat as Hn by lia.
  split; [exact Hn|].
  destruct (psi4_reshaped_layout 6 ([] : list (list nat)) Hn) as ((Hlen & _) & Hsome & _).
  split.
  - rewrite Hlen. reflexivity.
  - intros H. apply Hsome in H. vm_compute in H. lia.
Defined.

Lemma bond_orderings_agree_witness :
  Examples.diag_eigenvals 0%nat 1%nat = Examples.diag_eigenvals 1%nat 0%nat
  ∧ Examples.diag_eigenvecs 0%nat 1%nat = Examples.diag_eigenvecs 1%nat 0%nat
  ∧ force_constant_bond 1 0 Examples.diag_eigenvals Examples.diag_eigenvecs
      Examples.right_angle_R
    = force_constant_bond 0 1 Examples.diag_eigenvals Examples.diag_eigenvecs
        Examples.right_angle_R.
Proof.
  split; [reflexivity|]. split; [reflexivity|].
  exact (proj1 (bond_orderings_agree 0 1 Examples.diag_eigenvals Examples.diag_eigenvecs
                  Examples.right_angle_R eq_refl eq_refl)).
Defined.

Lemma force_constants_scale_with_eigenvalues_witness :
  (2 ≠ 0)%R
  ∧ force_constant_bond 0 1 (scale_eigenvals 2%R Examples.diag_eigenvals)
      Examples.diag_eigenvecs Examples.right_angle_R
    = cmul (c_of_real 2%R)
        <$> force_constant_bond 0 1 Examples.diag_eigenvals Examples.diag_eigenvecs
              Examples.right_angle_R.
Proof.
  assert (2 ≠ 0)%R as Ht by lra.
  split; [exact Ht|].
  exact (proj1 (force_constants_scale_with_eigenvalues 2%R Examples.diag_eigenvals
                  Examples.diag_eigenvecs Examples.right_angle_R Ht) 0%nat 1%nat).
Defined.
